(** * Gem puzzle (sliding tiles) solved with A*: a shallow embedding

    The source is one notebook, [gem-puzzle.ipynb].  Its code cell defines
    [Action], [Node], [available_actions], [do_action], the two heuristics
    [manhattan_distance] and [enhanced_manhattan], and the class
    [GemPuzzleSolver] with [state_to_tuple], [reconstruct_path] and [solve].

    Conventions of the embedding:
    - a 2-D [np.ndarray] of integers is a list of rows, each a list of [Z];
    - a Python exception is [None] in the [option] monad (or [Raised] for
      [solve]); nothing in the source catches exceptions;
    - [heapq] belongs to the Python standard library, not to the notebook: it
      is represented by the interface [HeapQ], which states the documented
      contract of [heappush] and [heappop] on a list kept as a heap;
    - Python integers are unbounded, hence [Z]; the sums of the heuristics are
      NumPy 64-bit integers in the source, far from overflow on any board
      that can be searched. *)

From stdpp Require Import gmap list.
From Stdlib Require Import ZArith Lia.

Open Scope Z_scope.

(** ** Arrays, positions and actions *)

Abbreviation grid := (list (list Z)).

Abbreviation pos := (Z * Z)%type.

(** [Action = namedtuple('Action', ['pos1', 'pos2'])] *)
Record Action := mkAction { pos1 : pos; pos2 : pos }.

#[global] Instance Action_eq_dec : EqDecision Action.
Proof. solve_decision. Defined.

(** [a.shape[0]] and [a.shape[1]]. *)
Definition shape0 (a : grid) : nat := length a.

Definition shape1 (a : grid) : nat :=
  match a with
  | [] => 0%nat
  | row :: _ => length row
  end.

(** NumPy index normalisation along an axis of length [len]: indices in
    [0, len) are taken as they are, indices in [-len, 0) count from the end,
    anything else raises [IndexError]. *)
Definition norm_index (len : nat) (i : Z) : option nat :=
  if bool_decide (0 ≤ i < Z.of_nat len) then Some (Z.to_nat i)
  else if bool_decide (- Z.of_nat len ≤ i < 0) then Some (Z.to_nat (i + Z.of_nat len))
  else None.

(** [a[p]] for a tuple [p = (x, y)]: a scalar read. *)
Definition getitem (a : grid) (p : pos) : option Z :=
  x ← norm_index (length a) p.1;
  row ← a !! x;
  y ← norm_index (length row) p.2;
  row !! y.

(** [a[p] = v] for a tuple [p = (x, y)]: the array after the scalar write. *)
Definition setitem (a : grid) (p : pos) (v : Z) : option grid :=
  x ← norm_index (length a) p.1;
  row ← a !! x;
  y ← norm_index (length row) p.2;
  Some (<[x := <[y := v]> row]> a).

(** First index of [v] in a 1-D array: [np.where(line == v)[0][0]]. *)
Fixpoint index_of (v : Z) (line : list Z) : option nat :=
  match line with
  | [] => None
  | w :: rest => if bool_decide (w = v) then Some 0%nat else S <$> index_of v rest
  end.

(** [np.where(a == v)] lists the matching cells in row-major order as a pair
    of index arrays; the source only ever reads entry [0] of each, that is the
    first matching cell.  [None] is the [IndexError] of reading entry [0] of
    an empty index array. *)
Fixpoint where_first (a : grid) (v : Z) : option (nat * nat) :=
  match a with
  | [] => None
  | row :: rest =>
      match index_of v row with
      | Some j => Some (0%nat, j)
      | None => (λ p, (S p.1, p.2)) <$> where_first rest v
      end
  end.

(** [a[i]] (a row) and [a[:, j]] (a column). *)
Definition row (a : grid) (i : nat) : option (list Z) := a !! i.

Definition column (a : grid) (j : nat) : option (list Z) :=
  if bool_decide (j < shape1 a)%nat then Some ((λ r : list Z, r !!! j) <$> a) else None.

(** [range(n)] as Python integers. *)
Definition range (n : nat) : list Z := Z.of_nat <$> seq 0 n.

(** A [for] loop whose body may raise. *)
Fixpoint for_each {A S : Type} (l : list A) (body : A → S → option S) (s : S) : option S :=
  match l with
  | [] => Some s
  | a :: rest => s' ← body a s; for_each rest body s'
  end.

(** ** State / action model *)

Definition available_actions (state : grid) : option (list Action) :=
  p ← where_first state 0;
  let x := Z.of_nat p.1 in
  let y := Z.of_nat p.2 in
  let puzzle_dim := Z.of_nat (shape0 state) in
  let actions := [] in
  let actions := if bool_decide (x > 0) then actions ++ [mkAction (x, y) (x - 1, y)] else actions in
  let actions := if bool_decide (x < puzzle_dim - 1) then actions ++ [mkAction (x, y) (x + 1, y)] else actions in
  let actions := if bool_decide (y > 0) then actions ++ [mkAction (x, y) (x, y - 1)] else actions in
  let actions := if bool_decide (y < puzzle_dim - 1) then actions ++ [mkAction (x, y) (x, y + 1)] else actions in
  Some actions.

(** [do_action] at the level of values: the returned array as a function of
    the contents of the argument.  The tuple assignment reads both cells of
    the copy first, then writes [pos1], then [pos2]. *)
Definition do_action (state : grid) (action : Action) : option grid :=
  let new_state := state in
  t1 ← getitem new_state (pos2 action);
  t2 ← getitem new_state (pos1 action);
  new_state ← setitem new_state (pos1 action) t1;
  setitem new_state (pos2 action) t2.

(** [do_action] at the level of objects.  Arrays live in a store and are
    passed by reference; [state.copy()] allocates, item assignment updates the
    referenced array in place. *)
Module Mem.

Abbreviation loc := nat.

Abbreviation store := (list grid).

(** State and exception monad over the store. *)
Definition M (A : Type) : Type := store → option (A * store).

Definition ret {A} (a : A) : M A := λ σ, Some (a, σ).

Definition bind {A B} (m : M A) (k : A → M B) : M B :=
  λ σ, match m σ with
       | Some (a, σ') => k a σ'
       | None => None
       end.

Notation "'let*' x := m 'in' k" := (bind m (λ x, k))
  (at level 10, x name, m at level 100, k at level 200, only parsing).

(** [a.copy()] *)
Definition copy (a : loc) : M loc :=
  λ σ, contents ← σ !! a; Some (length σ, σ ++ [contents]).

(** [a[p]] *)
Definition load (a : loc) (p : pos) : M Z :=
  λ σ, contents ← σ !! a; v ← getitem contents p; Some (v, σ).

(** [a[p] = v] *)
Definition assign (a : loc) (p : pos) (v : Z) : M unit :=
  λ σ, contents ← σ !! a; contents' ← setitem contents p v; Some (tt, <[a := contents']> σ).

Definition do_action (state : loc) (action : Action) : M loc :=
  let* new_state := copy state in
  let* t1 := load new_state (pos2 action) in
  let* t2 := load new_state (pos1 action) in
  let* _ := assign new_state (pos1 action) t1 in
  let* _ := assign new_state (pos2 action) t2 in
  ret new_state.

End Mem.

(** ** Heuristics *)

Definition manhattan_distance (state goal_state : grid) : option Z :=
  let total_distance := 0 in
  let puzzle_dim := shape0 state in
  for_each (range puzzle_dim) (λ i total_distance,
    for_each (range puzzle_dim) (λ j total_distance,
      v ← getitem state (i, j);
      if bool_decide (v ≠ 0) then
        goal_pos ← where_first goal_state v;
        let goal_x := Z.of_nat goal_pos.1 in
        let goal_y := Z.of_nat goal_pos.2 in
        Some (total_distance + (Z.abs (i - goal_x) + Z.abs (j - goal_y)))
      else Some total_distance) total_distance) total_distance.

(** The inner function of [enhanced_manhattan].  Every read is guarded in the
    source ([i], [j] range over the indices of [line1]; the positions in
    [line2] are looked up only after the membership test), so it cannot
    raise. *)
Definition count_conflicts (line1 line2 : list Z) : Z :=
  foldl (λ conflicts i,
    if bool_decide (line1 !!! i = 0) then conflicts
    else
      foldl (λ conflicts j,
        if bool_decide (line1 !!! j = 0) then conflicts
        else if bool_decide (line1 !!! i ∈ line2) && bool_decide (line1 !!! j ∈ line2) then
          let pos_i := default 0%nat (index_of (line1 !!! i) line2) in
          let pos_j := default 0%nat (index_of (line1 !!! j) line2) in
          if bool_decide (pos_j < pos_i)%nat then conflicts + 2 else conflicts
        else conflicts)
      conflicts (seq (i + 1) (length line1 - (i + 1))))
  0 (seq 0 (length line1)).

Definition enhanced_manhattan (state goal_state : grid) : option Z :=
  cost ← manhattan_distance state goal_state;
  cost ← for_each (seq 0 (shape0 state)) (λ i cost,
            line1 ← row state i;
            line2 ← row goal_state i;
            Some (cost + count_conflicts line1 line2)) cost;
  cost ← for_each (seq 0 (shape1 state)) (λ j cost,
            line1 ← column state j;
            line2 ← column goal_state j;
            Some (cost + count_conflicts line1 line2)) cost;
  Some cost.

(** ** Search nodes *)

#[local] Set Warnings "-register-all".

Inductive Node := mkNode {
  state : grid;
  parent : option Node;
  action : option Action;
  g_cost : Z;
  h_cost : Z
}.

Definition f_cost (self : Node) : Z := g_cost self + h_cost self.

(** [Node.__lt__] *)
Definition Node_lt (self other : Node) : bool := bool_decide (f_cost self < f_cost other).

(** Number of parent links above a node, and the ancestor [k] links up. *)
Fixpoint depth (node : Node) : nat :=
  match parent node with
  | Some p => S (depth p)
  | None => 0%nat
  end.

Fixpoint ancestor (k : nat) (node : Node) : Node :=
  match k with
  | O => node
  | S k' => match parent node with
            | Some p => ancestor k' p
            | None => node
            end
  end.

(** ** The priority queue of the standard library

    [heapq] keeps a Python list as a binary heap ordered by [<], here
    [Node_lt].  [heappop] of an empty list raises [IndexError]. *)
Class HeapQ := {
  heappush : list Node → Node → list Node;
  heappop : list Node → option (Node * list Node);
  is_heap : list Node → Prop;
  is_heap_singleton : ∀ n, is_heap [n];
  heappush_is_heap : ∀ h n, is_heap h → is_heap (heappush h n);
  heappush_perm : ∀ h n, heappush h n ≡ₚ n :: h;
  heappop_is_Some : ∀ h, h ≠ [] → is_Some (heappop h);
  heappop_perm : ∀ h n h', heappop h = Some (n, h') → h ≡ₚ n :: h';
  heappop_is_heap : ∀ h n h', is_heap h → heappop h = Some (n, h') → is_heap h';
  heappop_min : ∀ h n h' m,
    is_heap h → heappop h = Some (n, h') → m ∈ h → Node_lt m n = false
}.

(** ** The solver *)

(** Values stored in [g_scores]: a Python integer, or [float('inf')], the
    default of the [defaultdict]. *)
Inductive score := Fin (g : Z) | Inf.

(** [new_g_cost >= s] *)
Definition ge_score (new_g_cost : Z) (s : score) : bool :=
  match s with
  | Fin g => bool_decide (new_g_cost >= g)
  | Inf => false
  end.

(** [d[k]] on a [defaultdict]: a missing key is first bound to the default. *)
Definition defaultdict_getitem (d : gmap (list Z) score) (k : list Z)
    : score * gmap (list Z) score :=
  match d !! k with
  | Some v => (v, d)
  | None => (Inf, <[k := Inf]> d)
  end.

(** The fields of [GemPuzzleSolver] set by [__init__] and read by [solve]
    ([puzzle_dim] is never read; [states_evaluated] is reset by [solve] and
    is part of the loop state below). *)
Record GemPuzzleSolver := {
  initial_state : grid;
  goal_state : grid;
  heuristic_func : grid → grid → option Z
}.

(** [tuple(state.flatten())] *)
Definition state_to_tuple (state : grid) : list Z := concat state.

(** [(a == b).all()].  NumPy compares two 2-D arrays element by element after
    broadcasting: along each axis the lengths must be equal or one of them
    must be 1, in which case that array is repeated along the axis; any other
    pair of shapes raises. *)
Definition broadcast_dim (d1 d2 : nat) : option nat :=
  if decide (d1 = d2) then Some d1
  else if decide (d1 = 1%nat) then Some d2
  else if decide (d2 = 1%nat) then Some d1
  else None.

Definition broadcast_get (a : grid) (i j : nat) : Z :=
  (a !!! (if decide (shape0 a = 1%nat) then 0%nat else i))
    !!! (if decide (shape1 a = 1%nat) then 0%nat else j).

Definition eq_all (a b : grid) : option bool :=
  rows ← broadcast_dim (shape0 a) (shape0 b);
  cols ← broadcast_dim (shape1 a) (shape1 b);
  Some (forallb (λ i,
          forallb (λ j, bool_decide (broadcast_get a i j = broadcast_get b i j))
                  (seq 0 cols))
          (seq 0 rows)).

Abbreviation path_entry := (grid * option Action)%type.

(** The [while] loop of [reconstruct_path] walks the parent links. *)
Fixpoint reconstruct_loop (current : Node) (path : list path_entry) : list path_entry :=
  match parent current with
  | Some p => reconstruct_loop p (path ++ [(state current, action current)])
  | None => path ++ [(state current, None)]
  end.

Definition reconstruct_path (node : Node) : list path_entry :=
  reverse (reconstruct_loop node []).

(** The variables of [solve] that live across iterations of the [while]
    loop. *)
Record config := mkConfig {
  open_set : list Node;
  g_scores : gmap (list Z) score;
  closed_set : gset (list Z);
  states_evaluated : Z
}.

(** The triple returned by [solve]. *)
Abbreviation solution := (option (list path_entry) * Z * Z)%type.

(** One iteration of the [while] loop either goes back to the loop head,
    returns (the second component records the variables at the [return]), or
    raises. *)
Inductive outcome :=
  | Continue (c : config)
  | Return (r : solution) (c : config)
  | Raise.

Inductive completion (A : Type) :=
  | Returns (a : A)
  | Raises
  | OutOfFuel.
Arguments Returns {A} a.
Arguments Raises {A}.
Arguments OutOfFuel {A}.

Section Solver.
Context `{HeapQ}.

(** Body of [for action in available_actions(current.state)]. *)
Definition expand (self : GemPuzzleSolver) (current : Node) (action : Action) (c : config)
    : option config :=
  new_state ← do_action (state current) action;
  let new_state_tuple := state_to_tuple new_state in
  if bool_decide (new_state_tuple ∈ closed_set c) then Some c
  else
    let new_g_cost := g_cost current + 1 in
    let '(known, g_scores') := defaultdict_getitem (g_scores c) new_state_tuple in
    if ge_score new_g_cost known then
      Some (mkConfig (open_set c) g_scores' (closed_set c) (states_evaluated c))
    else
      h ← heuristic_func self new_state (goal_state self);
      let new_node := mkNode new_state (Some current) (Some action) new_g_cost h in
      Some (mkConfig (heappush (open_set c) new_node)
                     (<[new_state_tuple := Fin new_g_cost]> g_scores')
                     (closed_set c) (states_evaluated c)).

(** Body of [while open_set], together with the [return] after the loop. *)
Definition step (self : GemPuzzleSolver) (c : config) : outcome :=
  match open_set c with
  | [] => Return (None, 0, states_evaluated c) c
  | _ :: _ =>
      match heappop (open_set c) with
      | None => Raise
      | Some (current, open_set') =>
          let current_tuple := state_to_tuple (state current) in
          if bool_decide (current_tuple ∈ closed_set c) then
            Continue (mkConfig open_set' (g_scores c) (closed_set c) (states_evaluated c))
          else
            let states_evaluated' := states_evaluated c + 1 in
            match eq_all (state current) (goal_state self) with
            | None => Raise
            | Some true =>
                let path := reconstruct_path current in
                Return (Some path, Z.of_nat (length path) - 1, states_evaluated')
                       (mkConfig open_set' (g_scores c) (closed_set c) states_evaluated')
            | Some false =>
                let closed_set' := {[current_tuple]} ∪ closed_set c in
                match available_actions (state current) with
                | None => Raise
                | Some actions =>
                    match for_each actions (expand self current)
                            (mkConfig open_set' (g_scores c) closed_set' states_evaluated') with
                    | None => Raise
                    | Some c' => Continue c'
                    end
                end
            end
      end
  end.

(** The loop, with a bound on the number of iterations. *)
Fixpoint loop (fuel : nat) (self : GemPuzzleSolver) (c : config) : completion (solution * config) :=
  match fuel with
  | O => OutOfFuel
  | S fuel' =>
      match step self c with
      | Continue c' => loop fuel' self c'
      | Return r c' => Returns (r, c')
      | Raise => Raises
      end
  end.

(** The statements of [solve] before the loop. *)
Definition init_config (self : GemPuzzleSolver) : option config :=
  h ← heuristic_func self (initial_state self) (goal_state self);
  let start_node := mkNode (initial_state self) None None 0 h in
  Some (mkConfig [start_node]
                 (<[state_to_tuple (initial_state self) := Fin 0]> ∅)
                 ∅ 0).

(** [solve], observed together with its variables at the [return]. *)
Definition solve_run (fuel : nat) (self : GemPuzzleSolver) : completion (solution * config) :=
  match init_config self with
  | None => Raises
  | Some c => loop fuel self c
  end.

Definition solve (fuel : nat) (self : GemPuzzleSolver) : completion solution :=
  match solve_run fuel self with
  | Returns (r, _) => Returns r
  | Raises => Raises
  | OutOfFuel => OutOfFuel
  end.

(** The loop head reached after [k] full iterations, if the loop gets that
    far. *)
Fixpoint iterate (k : nat) (self : GemPuzzleSolver) (c : config) : option config :=
  match k with
  | O => Some c
  | S k' =>
      match step self c with
      | Continue c' => iterate k' self c'
      | _ => None
      end
  end.

(** The node popped by the iteration that starts at loop head [c]. *)
Definition popped (c : config) : option Node :=
  match open_set c with
  | [] => None
  | _ :: _ => fst <$> heappop (open_set c)
  end.

End Solver.

(** ** Vocabulary of the specification *)

(** An [n] by [n] array. *)
Definition square (n : nat) (a : grid) : Prop :=
  length a = n ∧ Forall (λ r, length r = n) a.

(** A puzzle state: an [n] by [n] array holding each of [0 .. n*n-1] once. *)
Definition valid_state (n : nat) (a : grid) : Prop :=
  square n a ∧ concat a ≡ₚ range (n * n).

(** A cell of an [n] by [n] board. *)
Definition in_bounds (n : nat) (p : pos) : Prop :=
  0 ≤ p.1 < Z.of_nat n ∧ 0 ≤ p.2 < Z.of_nat n.

(** [q] is one step up, down, left or right of [p]. *)
Definition orthogonal_neighbour (p q : pos) : Prop :=
  (q.1 = p.1 ∧ Z.abs (q.2 - p.2) = 1) ∨ (q.2 = p.2 ∧ Z.abs (q.1 - p.1) = 1).

(** A legal action slides a tile into the blank: [pos1] holds the blank and
    [pos2] is a neighbouring cell of the board. *)
Definition legal (n : nat) (s : grid) (a : Action) : Prop :=
  in_bounds n (pos1 a) ∧ getitem s (pos1 a) = Some 0 ∧
  in_bounds n (pos2 a) ∧ orthogonal_neighbour (pos1 a) (pos2 a).

(** Where the blank sits on the border of an [n] by [n] board. *)
Definition on_border (n : nat) (i : Z) : Prop := i = 0 ∨ i = Z.of_nat n - 1.

Definition corner (n : nat) (p : pos) : Prop := on_border n p.1 ∧ on_border n p.2.

Definition edge (n : nat) (p : pos) : Prop :=
  (on_border n p.1 ∧ ¬ on_border n p.2) ∨ (¬ on_border n p.1 ∧ on_border n p.2).

Definition interior (n : nat) (p : pos) : Prop := ¬ on_border n p.1 ∧ ¬ on_border n p.2.

(** One move of the puzzle, as the solver generates it. *)
Definition move (s s' : grid) : Prop :=
  ∃ actions a, available_actions s = Some actions ∧ a ∈ actions ∧ do_action s a = Some s'.

(** [path_len s k t]: [k] moves lead from [s] to [t]. *)
Inductive path_len (s : grid) : nat → grid → Prop :=
  | path_here : path_len s 0 s
  | path_step k t u : path_len s k t → move t u → path_len s (S k) u.

(** [k] is the length of a shortest sequence of moves from [s] to [t]. *)
Definition shortest (s t : grid) (k : nat) : Prop :=
  path_len s k t ∧ ∀ k', path_len s k' t → (k ≤ k')%nat.

(** Heuristic [h] never overestimates the distance to [goal] from a state
    reachable from [init]. *)
Definition admissible (h : grid → grid → option Z) (init goal : grid) : Prop :=
  ∀ s j k, path_len init j s → path_len s k goal →
    ∃ v, h s goal = Some v ∧ v ≤ Z.of_nat k.

(** Heuristic [h] drops by at most one across a move, on the states reachable
    from [init]. *)
Definition consistent (h : grid → grid → option Z) (init goal : grid) : Prop :=
  ∀ s j s', path_len init j s → move s s' →
    ∃ v v', h s goal = Some v ∧ h s' goal = Some v' ∧ v ≤ v' + 1.

(** Executing a list of actions, each of which must be on offer. *)
Fixpoint play (s : grid) (actions : list Action) : option grid :=
  match actions with
  | [] => Some s
  | a :: rest =>
      offered ← available_actions s;
      if bool_decide (a ∈ offered) then s' ← do_action s a; play s' rest else None
  end.

(** ** Cells of a board by natural indices *)

(** Cell [(i, j)] by natural indices, and the write of a cell. *)
Definition cell (a : grid) (i j : nat) : option Z := a !! i ≫= (.!! j).

Definition set_cell (a : grid) (i j : nat) (v : Z) : grid :=
  <[i := <[j := v]> (a !!! i)]> a.

(** The array returned by [do_action] on two cells of the board. *)
Definition swapped (a : grid) (p q : pos) : grid :=
  let i1 := Z.to_nat p.1 in let j1 := Z.to_nat p.2 in
  let i2 := Z.to_nat q.1 in let j2 := Z.to_nat q.2 in
  set_cell (set_cell a i1 j1 (default 0 (cell a i2 j2))) i2 j2 (default 0 (cell a i1 j1)).

(** The list built by the four tests of [available_actions] for a blank at
    [(x, y)] on a board of side [d]. *)
Definition actions_at (d x y : Z) : list Action :=
  (if bool_decide (x > 0) then [mkAction (x, y) (x - 1, y)] else []) ++
  (if bool_decide (x < d - 1) then [mkAction (x, y) (x + 1, y)] else []) ++
  (if bool_decide (y > 0) then [mkAction (x, y) (x, y - 1)] else []) ++
  (if bool_decide (y < d - 1) then [mkAction (x, y) (x, y + 1)] else []).

(** ** A priority queue to run the solver with *)

(** An implementation of the interface [HeapQ]: a list kept in increasing
    order of [f_cost]; a new node goes before the first node that is strictly
    greater. *)
Fixpoint sorted_push (h : list Node) (n : Node) : list Node :=
  match h with
  | [] => [n]
  | m :: rest => if Node_lt n m then n :: m :: rest else m :: sorted_push rest n
  end.

Definition sorted_pop (h : list Node) : option (Node * list Node) :=
  match h with
  | [] => None
  | n :: rest => Some (n, rest)
  end.

Fixpoint sorted_by_f (h : list Node) : Prop :=
  match h with
  | [] => True
  | n :: rest => (∀ m, m ∈ rest → f_cost n ≤ f_cost m) ∧ sorted_by_f rest
  end.

(** ** Statements about [available_actions] and the counter of evaluated states *)

(** What the specification says of [available_actions] on an [n] by [n]
    state [s]: the actions are in one-to-one correspondence with the cells of
    the board next to the blank, there are 2, 3 or 4 of them according to
    where the blank is, and each of them is legal. *)
Definition available_actions_claim (n : nat) (s : grid) : Prop :=
  ∃ actions b,
    available_actions s = Some actions ∧
    in_bounds n b ∧ getitem s b = Some 0 ∧
    NoDup actions ∧
    (∀ a, a ∈ actions ↔
          pos1 a = b ∧ in_bounds n (pos2 a) ∧ orthogonal_neighbour b (pos2 a)) ∧
    (corner n b → length actions = 2%nat) ∧
    (edge n b → length actions = 3%nat) ∧
    (interior n b → length actions = 4%nat) ∧
    (∀ a, a ∈ actions → legal n s a).

(** The counter stays at or below the number of keys in the closed set. *)
Definition evaluated_within_closed (c : config) : Prop :=
  states_evaluated c ≤ Z.of_nat (size (closed_set c)).

(** The counter is the number of keys in the closed set. *)
Definition evaluated_is_closed (c : config) : Prop :=
  states_evaluated c = Z.of_nat (size (closed_set c)).

Section CounterVocabulary.
Context `{HeapQ}.

(** What the specification says of the counter, at the loop head [c] and at
    the point where the iteration that starts there ends. *)
Definition evaluated_claim (self : GemPuzzleSolver) (c : config) : Prop :=
  evaluated_within_closed c ∧
  match step self c with
  | Continue c' =>
      states_evaluated c ≤ states_evaluated c' ∧ closed_set c ⊆ closed_set c' ∧
      evaluated_within_closed c'
  | Return r c' =>
      states_evaluated c ≤ states_evaluated c' ∧ closed_set c ⊆ closed_set c' ∧
      r.2 = states_evaluated c' ∧ evaluated_within_closed c'
  | Raise => True
  end.

(** What the code does: the counter and the closed set grow together, except
    that the iteration that finds the goal counts it and returns before
    inserting it. *)
Definition evaluated_accounting (self : GemPuzzleSolver) (c : config) : Prop :=
  evaluated_is_closed c ∧
  match step self c with
  | Continue c' =>
      states_evaluated c ≤ states_evaluated c' ∧ closed_set c ⊆ closed_set c' ∧
      evaluated_is_closed c'
  | Return (Some path, moves, evaluated) c' =>
      states_evaluated c ≤ states_evaluated c' ∧ closed_set c ⊆ closed_set c' ∧
      evaluated = states_evaluated c' ∧
      states_evaluated c' = Z.of_nat (size (closed_set c')) + 1
  | Return (None, moves, evaluated) c' =>
      states_evaluated c ≤ states_evaluated c' ∧ closed_set c ⊆ closed_set c' ∧
      evaluated = states_evaluated c' ∧ evaluated_is_closed c'
  | Raise => True
  end.

End CounterVocabulary.

(** ** Invariants of the solver *)

(** The entries collected by the loop, from the given node up to the start
    node. *)
Fixpoint collected (node : Node) : list path_entry :=
  match parent node with
  | Some p => (state node, action node) :: collected p
  | None => [(state node, None)]
  end.

(** A node built by [solve]: its [h_cost] is the heuristic of its state, the
    start node holds the initial state at cost 0, and every other node holds
    the result of an action offered in the state of its parent, at the cost
    of the parent plus 1. *)
Fixpoint chain_ok (self : GemPuzzleSolver) (node : Node) : Prop :=
  heuristic_func self (state node) (goal_state self) = Some (h_cost node) ∧
  match parent node with
  | None => state node = initial_state self ∧ g_cost node = 0
  | Some p =>
      (∃ actions a, action node = Some a ∧ available_actions (state p) = Some actions ∧
                    a ∈ actions ∧ do_action (state p) a = Some (state node)) ∧
      g_cost node = g_cost p + 1 ∧
      chain_ok self p
  end.

(** All lists of a given length over an alphabet. *)
Fixpoint words (alphabet : list Z) (len : nat) : list (list Z) :=
  match len with
  | O => [[]]
  | S len' => a ← alphabet; (λ w, a :: w) <$> words alphabet len'
  end.

(** The keys a closed set may hold when the search starts from [init] on a
    board of side [n]. *)
Definition universe (n : nat) (init : grid) : gset (list Z) :=
  list_to_set (words (concat init) (n * n)).

(** The moves out of [s0] through one of the actions of [l]. *)
Definition pending_via (s0 : grid) (l : list Action) (s s' : grid) : Prop :=
  s = s0 ∧ ∃ a, a ∈ l ∧ do_action s0 a = Some s'.

(** The invariant of the [while] loop.  While the successors of the node
    being expanded are processed, [pending s s'] holds of the moves out of its
    state that the [for] loop has yet to look at. *)
Record inv `{HeapQ} (self : GemPuzzleSolver) (n : nat)
    (pending : grid → grid → Prop) (c : config) : Prop := {
  inv_heap : is_heap (open_set c);
  inv_nodes : ∀ m, m ∈ open_set c → chain_ok self m;
  inv_start : ∃ g0, g_scores c !! state_to_tuple (initial_state self) = Some (Fin g0) ∧ g0 ≤ 0;
  inv_open : ∀ κ g,
    κ ∉ closed_set c → g_scores c !! κ = Some (Fin g) →
    ∃ m, m ∈ open_set c ∧ state_to_tuple (state m) = κ ∧ g_cost m = g;
  inv_closed : ∀ s k s',
    path_len (initial_state self) k s → state_to_tuple s ∈ closed_set c → move s s' →
    pending s s' ∨ state_to_tuple s' ∈ closed_set c ∨
    ∃ g', g_scores c !! state_to_tuple s' = Some (Fin g') ∧ g' ≤ Z.of_nat k + 1;
  inv_goal : state_to_tuple (goal_state self) ∉ closed_set c;
  inv_universe : closed_set c ⊆ universe n (initial_state self)
}.

(** The quantity that decreases at every iteration. *)
Definition measure (n : nat) (init : grid) (c : config) : nat :=
  5 * (size (universe n init) - size (closed_set c)) + length (open_set c).

(** ** Checking a heuristic on a finite set of states *)

(** Every move out of a state of [states] leads to a state of [states]. *)
Definition closed_under_moves (states : list grid) : bool :=
  forallb (λ s,
    match available_actions s with
    | Some actions =>
        forallb (λ a,
          match do_action s a with
          | Some s' => bool_decide (s' ∈ states)
          | None => true
          end) actions
    | None => true
    end) states.

(** [h] returns on every state of [states] and on its successors, and drops
    by at most one across each move. *)
Definition consistent_on (h : grid → grid → option Z) (goal : grid) (states : list grid) : bool :=
  forallb (λ s,
    match h s goal, available_actions s with
    | Some v, Some actions =>
        forallb (λ a,
          match do_action s a with
          | Some s' =>
              match h s' goal with
              | Some v' => bool_decide (v ≤ v' + 1)
              | None => false
              end
          | None => true
          end) actions
    | Some v, None => true
    | None, _ => false
    end) states.

(** ** Boards used as examples *)

(** The board with the blank first and the tiles in decreasing order, the
    goal of the notebook, and a walk of the blank around the border of the
    board, three and a half times (or back), that turns one into the other. *)
Definition reversed_3x3 : grid := [[0; 8; 7]; [6; 5; 4]; [3; 2; 1]].

Definition goal_3x3 : grid := [[1; 2; 3]; [4; 5; 6]; [7; 8; 0]].

Definition clockwise_from_top_left : list Action :=
  [mkAction (0, 0) (0, 1); mkAction (0, 1) (0, 2); mkAction (0, 2) (1, 2);
   mkAction (1, 2) (2, 2); mkAction (2, 2) (2, 1); mkAction (2, 1) (2, 0);
   mkAction (2, 0) (1, 0); mkAction (1, 0) (0, 0)].

Definition anticlockwise_from_bottom_right : list Action :=
  [mkAction (2, 2) (1, 2); mkAction (1, 2) (0, 2); mkAction (0, 2) (0, 1);
   mkAction (0, 1) (0, 0); mkAction (0, 0) (1, 0); mkAction (1, 0) (2, 0);
   mkAction (2, 0) (2, 1); mkAction (2, 1) (2, 2)].

Definition reversed_to_goal : list Action :=
  clockwise_from_top_left ++ clockwise_from_top_left ++ clockwise_from_top_left
    ++ take 4 clockwise_from_top_left.

Definition goal_to_reversed : list Action :=
  anticlockwise_from_bottom_right ++ anticlockwise_from_bottom_right
    ++ anticlockwise_from_bottom_right ++ take 4 anticlockwise_from_bottom_right.

(** A 2 by 2 instance with two tiles exchanged, which no sequence of moves
    solves. *)
Definition unsolvable_2x2 : GemPuzzleSolver :=
  {| initial_state := [[2; 1]; [3; 0]];
     goal_state := [[1; 2]; [3; 0]];
     heuristic_func := manhattan_distance |}.

(** A 2 by 2 instance two moves away from its goal, solved with
    [manhattan_distance], and the twelve states that can be reached in it. *)
Definition two_moves_2x2 : GemPuzzleSolver :=
  {| initial_state := [[0; 1]; [3; 2]];
     goal_state := [[1; 2]; [3; 0]];
     heuristic_func := manhattan_distance |}.

Definition states_2x2 : list grid :=
  [[[1; 2]; [3; 0]]; [[1; 0]; [3; 2]]; [[1; 2]; [0; 3]]; [[0; 1]; [3; 2]];
   [[0; 2]; [1; 3]]; [[2; 0]; [1; 3]]; [[3; 1]; [0; 2]]; [[2; 3]; [1; 0]];
   [[3; 1]; [2; 0]]; [[2; 3]; [0; 1]]; [[3; 0]; [2; 1]]; [[0; 3]; [2; 1]]].

(** ** Vocabulary for the further properties *)

(** A NumPy index pair accepted on an [n] by [n] array, and the cell it
    addresses. *)
Definition index_ok (n : nat) (p : pos) : Prop :=
  (- Z.of_nat n ≤ p.1 < Z.of_nat n) ∧ (- Z.of_nat n ≤ p.2 < Z.of_nat n).

Definition wrap (n : nat) (p : pos) : pos :=
  (p.1 `mod` Z.of_nat n, p.2 `mod` Z.of_nat n).

(** Row-major order of cells. *)
Definition row_major_le (p q : nat * nat) : Prop :=
  (p.1 < q.1)%nat ∨ (p.1 = q.1 ∧ (p.2 ≤ q.2)%nat).

(** ** The generator of instances *)

(** [np.array(flat).reshape((d, d))]: the rows are consecutive slices of the
    flat list.  NumPy raises when [d] is negative (two unknown or negative
    dimensions) or when the list does not have [d * d] elements. *)
Fixpoint rows_of (rows cols : nat) (flat : list Z) : grid :=
  match rows with
  | O => []
  | S rows' => take cols flat :: rows_of rows' cols (drop cols flat)
  end.

Definition reshape (flat : list Z) (d : Z) : option grid :=
  if bool_decide (0 ≤ d ∧ Z.of_nat (length flat) = d * d)
  then Some (rows_of (Z.to_nat d) (Z.to_nat d) flat)
  else None.

(** [np.array([i for i in range(1, puzzle_dim**2)] + [0]).reshape((puzzle_dim, puzzle_dim))],
    the first statement of [init_puzzle] and the goal built by the notebook. *)
Definition ordered_board (puzzle_dim : Z) : option grid :=
  reshape (seqZ 1 (puzzle_dim * puzzle_dim - 1) ++ [0]) puzzle_dim.

(** [random.choice(seq)]: the element at a random index of a non-empty
    sequence, [IndexError] on an empty one.  The argument [r] stands for the
    random draw; every element can be returned, and nothing else. *)
Definition choice {A} (seq : list A) (r : nat) : option A :=
  match seq with
  | [] => None
  | _ :: _ => seq !! (r `mod` length seq)%nat
  end.

Definition RANDOMIZE_STEPS : nat := Z.to_nat 100000.

(** The [for] loop of [init_puzzle]; [rnd r] is the draw of iteration [r].
    ([tqdm] only reports progress.) *)
Fixpoint randomize (steps : nat) (rnd : nat → nat) (r : nat) (state : grid) : option grid :=
  match steps with
  | O => Some state
  | S steps' =>
      actions ← available_actions state;
      a ← choice actions (rnd r);
      state' ← do_action state a;
      randomize steps' rnd (S r) state'
  end.

Definition init_puzzle (puzzle_dim : Z) (rnd : nat → nat) : option grid :=
  state ← ordered_board puzzle_dim;
  randomize RANDOMIZE_STEPS rnd 0 state.

(** ** The Manhattan distance as a sum over the cells *)

Fixpoint sumZ (f : nat → Z) (n : nat) : Z :=
  match n with
  | O => 0
  | S k => sumZ f k + f k
  end.

(** The value held by a cell, and the contribution to [manhattan_distance]
    of value [v] sitting in cell [(i, j)]. *)
Definition cell_value (s : grid) (i j : nat) : Z := default 0 (cell s i j).

Definition tile_distance (goal : grid) (v : Z) (i j : nat) : Z :=
  if bool_decide (v = 0) then 0
  else match where_first goal v with
       | Some goal_pos =>
           Z.abs (Z.of_nat i - Z.of_nat goal_pos.1) + Z.abs (Z.of_nat j - Z.of_nat goal_pos.2)
       | None => 0
       end.

Definition total_distance (n : nat) (s goal : grid) : Z :=
  sumZ (λ i, sumZ (λ j, tile_distance goal (cell_value s i j) i j) n) n.

(** ** Solutions and the invariant of the search under any heuristic *)

(** Replaying the entries of a path after the first: each entry must hold an
    action offered in the state before it and the state that the action
    produces. *)
Fixpoint replay (s : grid) (entries : list path_entry) : option grid :=
  match entries with
  | [] => Some s
  | (s', Some a) :: rest =>
      offered ← available_actions s;
      if bool_decide (a ∈ offered ∧ do_action s a = Some s') then replay s' rest else None
  | (_, None) :: _ => None
  end.

(** A path as [solve] returns it, leading from [init] to [goal] by legal
    moves. *)
Definition solution_path (init goal : grid) (path : list path_entry) : Prop :=
  ∃ steps, path = (init, None) :: steps ∧ replay init steps = Some goal.

(** What the [while] loop keeps whatever the heuristic returns: the nodes of
    the frontier are well built, every state with a finite cost that is not
    closed has a node in the frontier, every move out of a closed state leads
    to a state that is closed or has a finite cost, the closed states are
    reachable and are not the goal, and the counter is the size of the closed
    set. *)
Record search_inv `{HeapQ} (self : GemPuzzleSolver)
    (pending : grid → grid → Prop) (c : config) : Prop := {
  sinv_nodes : ∀ m, m ∈ open_set c → chain_ok self m;
  sinv_start : ∃ g0, g_scores c !! state_to_tuple (initial_state self) = Some (Fin g0);
  sinv_open : ∀ κ g,
    κ ∉ closed_set c → g_scores c !! κ = Some (Fin g) →
    ∃ m, m ∈ open_set c ∧ state_to_tuple (state m) = κ;
  sinv_closed : ∀ s k s',
    path_len (initial_state self) k s → state_to_tuple s ∈ closed_set c → move s s' →
    pending s s' ∨ state_to_tuple s' ∈ closed_set c ∨
    ∃ g', g_scores c !! state_to_tuple s' = Some (Fin g');
  sinv_reach : ∀ κ, κ ∈ closed_set c →
    ∃ k s, path_len (initial_state self) k s ∧ state_to_tuple s = κ;
  sinv_goal : state_to_tuple (goal_state self) ∉ closed_set c;
  sinv_count : evaluated_is_closed c
}.

(** The twelve states that can be reached from the initial state of
    [unsolvable_2x2]. *)
Definition states_unsolvable_2x2 : list grid :=
  [[[2; 1]; [3; 0]]; [[2; 0]; [3; 1]]; [[2; 1]; [0; 3]]; [[0; 1]; [2; 3]];
   [[0; 2]; [3; 1]]; [[1; 0]; [2; 3]]; [[3; 2]; [0; 1]]; [[1; 3]; [2; 0]];
   [[3; 2]; [1; 0]]; [[1; 3]; [0; 2]]; [[3; 0]; [1; 2]]; [[0; 3]; [1; 2]]].

(** * Properties *)

(** ** Arrays *)

Lemma norm_index_nonneg len i :
  0 ≤ i < Z.of_nat len → norm_index len i = Some (Z.to_nat i).
Proof. intros Hi. unfold norm_index. by rewrite bool_decide_eq_true_2. Qed.

Lemma square_lookup n a i r : square n a → a !! i = Some r → length r = n.
Proof. intros [_ Hall] Hr. by eapply (proj1 (Forall_lookup _ _) Hall). Qed.

Lemma square_row n a i : square n a → (i < n)%nat → ∃ r, a !! i = Some r ∧ length r = n.
Proof.
  intros Hsq Hi. destruct (lookup_lt_is_Some_2 a i) as [r Hr].
  { destruct Hsq as [-> _]. done. }
  exists r. split; [done | by eapply square_lookup].
Qed.

Lemma getitem_cell n a p :
  square n a → in_bounds n p → getitem a p = cell a (Z.to_nat p.1) (Z.to_nat p.2).
Proof.
  intros Hsq [Hx Hy]. unfold getitem, cell.
  rewrite norm_index_nonneg by (destruct Hsq as [-> _]; done). simpl.
  destruct (square_row n a (Z.to_nat p.1) Hsq) as (r & -> & Hr); [lia |]. simpl.
  rewrite norm_index_nonneg by (rewrite Hr; done). done.
Qed.

Lemma setitem_cell n a p v :
  square n a → in_bounds n p →
  setitem a p v = Some (set_cell a (Z.to_nat p.1) (Z.to_nat p.2) v).
Proof.
  intros Hsq [Hx Hy]. unfold setitem, set_cell.
  rewrite norm_index_nonneg by (destruct Hsq as [-> _]; done). simpl.
  destruct (square_row n a (Z.to_nat p.1) Hsq) as (r & Hr & Hlen); [lia |].
  rewrite Hr. simpl.
  rewrite norm_index_nonneg by (rewrite Hlen; done). simpl.
  by rewrite (list_lookup_total_correct _ _ _ Hr).
Qed.

Lemma cell_is_Some n a i j :
  square n a → (i < n)%nat → (j < n)%nat → is_Some (cell a i j).
Proof.
  intros Hsq Hi Hj. unfold cell.
  destruct (square_row n a i Hsq Hi) as (r & -> & Hr). simpl.
  apply lookup_lt_is_Some. lia.
Qed.

Lemma set_cell_square n a i j v : square n a → square n (set_cell a i j v).
Proof.
  intros [Hlen Hall]. split; unfold set_cell.
  - by rewrite length_insert.
  - destruct (decide (i < length a)%nat) as [Hi | Hi].
    + apply Forall_insert; [done |]. simpl. rewrite length_insert.
      destruct (lookup_lt_is_Some_2 a i Hi) as [r Hr].
      rewrite (list_lookup_total_correct _ _ _ Hr).
      by eapply (proj1 (Forall_lookup _ _) Hall).
    + rewrite list_insert_ge by lia. done.
Qed.

Lemma cell_set_cell n a i j v i' j' :
  square n a → (i < n)%nat → (j < n)%nat →
  cell (set_cell a i j v) i' j' =
    if decide (i = i' ∧ j = j') then Some v else cell a i' j'.
Proof.
  intros Hsq Hi Hj. unfold cell, set_cell.
  destruct (square_row n a i Hsq Hi) as (r & Hr & Hlen).
  rewrite (list_lookup_total_correct _ _ _ Hr).
  destruct (decide (i = i')) as [<- | Hne].
  - rewrite list_lookup_insert_eq by (destruct Hsq as [-> _]; done). simpl.
    destruct (decide (j = j')) as [<- | Hne'].
    + rewrite list_lookup_insert_eq by lia. by rewrite decide_True.
    + rewrite list_lookup_insert_ne by done. rewrite Hr.
      rewrite decide_False by naive_solver. done.
  - rewrite list_lookup_insert_ne by done.
    rewrite decide_False by naive_solver. done.
Qed.

Lemma square_ext n a b :
  square n a → square n b →
  (∀ i j, (i < n)%nat → (j < n)%nat → cell a i j = cell b i j) → a = b.
Proof.
  intros Ha Hb Hcell. apply list_eq. intros i.
  destruct (decide (i < n)%nat) as [Hi | Hi].
  - destruct (square_row n a i Ha Hi) as (ra & Hra & Hla).
    destruct (square_row n b i Hb Hi) as (rb & Hrb & Hlb).
    rewrite Hra, Hrb. f_equal. apply list_eq. intros j.
    destruct (decide (j < n)%nat) as [Hj | Hj].
    + specialize (Hcell i j Hi Hj). unfold cell in Hcell.
      by rewrite Hra, Hrb in Hcell.
    + rewrite !lookup_ge_None_2 by lia. done.
  - destruct Ha as [Ha _], Hb as [Hb _].
    rewrite !lookup_ge_None_2 by lia. done.
Qed.

Lemma do_action_swapped n a p q :
  square n a → in_bounds n p → in_bounds n q →
  do_action a (mkAction p q) = Some (swapped a p q).
Proof.
  intros Hsq Hp Hq. unfold do_action, swapped. simpl.
  rewrite !(getitem_cell n) by done.
  destruct (cell_is_Some n a (Z.to_nat q.1) (Z.to_nat q.2)) as [t1 Ht1];
    [done | destruct Hq; lia | destruct Hq; lia |].
  destruct (cell_is_Some n a (Z.to_nat p.1) (Z.to_nat p.2)) as [t2 Ht2];
    [done | destruct Hp; lia | destruct Hp; lia |].
  rewrite Ht1, Ht2. simpl.
  rewrite (setitem_cell n) by done. simpl.
  rewrite (setitem_cell n) by (by try apply set_cell_square). done.
Qed.

Lemma swapped_square n a p q : square n a → square n (swapped a p q).
Proof. intros Hsq. unfold swapped. by do 2 apply set_cell_square. Qed.

Lemma cell_swapped n a p q i j :
  square n a → in_bounds n p → in_bounds n q → (i < n)%nat → (j < n)%nat →
  cell (swapped a p q) i j =
    if decide (Z.to_nat q.1 = i ∧ Z.to_nat q.2 = j) then cell a (Z.to_nat p.1) (Z.to_nat p.2)
    else if decide (Z.to_nat p.1 = i ∧ Z.to_nat p.2 = j) then cell a (Z.to_nat q.1) (Z.to_nat q.2)
    else cell a i j.
Proof.
  intros Hsq [Hp1 Hp2] [Hq1 Hq2] Hi Hj. unfold swapped.
  destruct (cell_is_Some n a (Z.to_nat q.1) (Z.to_nat q.2)) as [t1 Ht1]; [done | lia | lia |].
  destruct (cell_is_Some n a (Z.to_nat p.1) (Z.to_nat p.2)) as [t2 Ht2]; [done | lia | lia |].
  rewrite Ht1, Ht2. simpl.
  rewrite (cell_set_cell n) by (try apply set_cell_square; done || lia).
  case_decide; [done |].
  rewrite (cell_set_cell n) by (done || lia).
  case_decide; done.
Qed.

Lemma swapped_involutive n a p q :
  square n a → in_bounds n p → in_bounds n q → swapped (swapped a p q) p q = a.
Proof.
  intros Hsq Hp Hq. apply (square_ext n); [by do 2 apply swapped_square | done |].
  intros i j Hi Hj.
  assert (Hp' : (Z.to_nat p.1 < n)%nat ∧ (Z.to_nat p.2 < n)%nat) by (destruct Hp; lia).
  assert (Hq' : (Z.to_nat q.1 < n)%nat ∧ (Z.to_nat q.2 < n)%nat) by (destruct Hq; lia).
  destruct Hp' as [Hp1 Hp2], Hq' as [Hq1 Hq2].
  rewrite (cell_swapped n) by (try apply swapped_square; done).
  rewrite !(cell_swapped n a) by done.
  repeat case_decide; naive_solver.
Qed.

Lemma in_bounds_to_nat n p :
  in_bounds n p → (Z.to_nat p.1 < n)%nat ∧ (Z.to_nat p.2 < n)%nat.
Proof. intros [? ?]. lia. Qed.

Lemma in_bounds_to_nat_inj n p q :
  in_bounds n p → in_bounds n q →
  Z.to_nat p.1 = Z.to_nat q.1 → Z.to_nat p.2 = Z.to_nat q.2 → p = q.
Proof.
  destruct p as [p1 p2], q as [q1 q2]. intros [? ?] [? ?]; simpl in *.
  intros. f_equal; lia.
Qed.

(** ** [do_action]: the object-level function computes the value-level one
    into a fresh array and leaves every existing array alone. *)

Lemma insert_last (σ : list grid) (x y : grid) :
  <[length σ := y]> (σ ++ [x]) = σ ++ [y].
Proof. rewrite insert_app_r_alt by done. by rewrite Nat.sub_diag. Qed.

Lemma Mem_do_action_pure σ r s a :
  σ !! r = Some s →
  Mem.do_action r a σ = (λ s', (length σ, σ ++ [s'])) <$> do_action s a.
Proof.
  intros Hr. unfold Mem.do_action, Mem.bind, Mem.copy, Mem.load, Mem.assign, Mem.ret, do_action.
  rewrite Hr. simpl.
  rewrite list_lookup_middle by done. simpl.
  destruct (getitem s (pos2 a)) as [t1 |]; [simpl | done].
  rewrite list_lookup_middle by done. simpl.
  destruct (getitem s (pos1 a)) as [t2 |]; [simpl | done].
  rewrite list_lookup_middle by done. simpl.
  destruct (setitem s (pos1 a) t1) as [s1 |]; [simpl | done].
  rewrite insert_last.
  rewrite list_lookup_middle by done. simpl.
  destruct (setitem s1 (pos2 a) t2) as [s2 |]; [simpl | done].
  by rewrite insert_last.
Qed.

(** C10. [do_action] accepts any two cells of the board, whether or not one
    of them is the blank and whether or not they are adjacent: it returns a
    new array in which the contents of the two cells are exchanged and every
    other cell is as in the argument, and the argument array is left as it
    was. *)
Theorem do_action_exchanges_cells n σ r s p q :
  σ !! r = Some s → square n s → in_bounds n p → in_bounds n q →
  ∃ s',
    Mem.do_action r (mkAction p q) σ = Some (length σ, σ ++ [s']) ∧
    (σ ++ [s']) !! r = Some s ∧
    do_action s (mkAction p q) = Some s' ∧
    square n s' ∧
    getitem s' p = getitem s q ∧
    getitem s' q = getitem s p ∧
    ∀ c, in_bounds n c → c ≠ p → c ≠ q → getitem s' c = getitem s c.
Proof.
  intros Hr Hsq Hp Hq. exists (swapped s p q).
  pose proof (swapped_square n s p q Hsq) as Hsq'.
  pose proof (in_bounds_to_nat n p Hp) as [Hp1 Hp2].
  pose proof (in_bounds_to_nat n q Hq) as [Hq1 Hq2].
  split_and!.
  - rewrite (Mem_do_action_pure σ r s) by done.
    by rewrite (do_action_swapped n).
  - rewrite lookup_app_l by (by eapply lookup_lt_Some). done.
  - by apply (do_action_swapped n).
  - done.
  - rewrite !(getitem_cell n) by done.
    rewrite (cell_swapped n) by done.
    destruct (decide (Z.to_nat q.1 = Z.to_nat p.1 ∧ Z.to_nat q.2 = Z.to_nat p.2))
      as [[H1 H2] | Hne].
    + by rewrite (in_bounds_to_nat_inj n q p).
    + by rewrite decide_True.
  - rewrite !(getitem_cell n) by done.
    rewrite (cell_swapped n) by done.
    rewrite decide_True by done. done.
  - intros c Hc Hcp Hcq.
    pose proof (in_bounds_to_nat n c Hc) as [Hc1 Hc2].
    rewrite !(getitem_cell n) by done.
    rewrite (cell_swapped n) by done.
    rewrite !decide_False; [done | |].
    + intros [? ?]. apply Hcp. by apply (in_bounds_to_nat_inj n).
    + intros [? ?]. apply Hcq. by apply (in_bounds_to_nat_inj n).
Qed.

Lemma do_action_exchanges_cells_witness :
  ∃ s',
    Mem.do_action 0%nat (mkAction (0, 0) (2, 1)) [[[3; 7; 4]; [5; 0; 6]; [8; 2; 1]]]
      = Some (1%nat, [[[3; 7; 4]; [5; 0; 6]; [8; 2; 1]]] ++ [s']) ∧
    ([[[3; 7; 4]; [5; 0; 6]; [8; 2; 1]]] ++ [s']) !! 0%nat = Some [[3; 7; 4]; [5; 0; 6]; [8; 2; 1]] ∧
    do_action [[3; 7; 4]; [5; 0; 6]; [8; 2; 1]] (mkAction (0, 0) (2, 1)) = Some s' ∧
    square 3 s' ∧
    getitem s' (0, 0) = getitem [[3; 7; 4]; [5; 0; 6]; [8; 2; 1]] (2, 1) ∧
    getitem s' (2, 1) = getitem [[3; 7; 4]; [5; 0; 6]; [8; 2; 1]] (0, 0) ∧
    ∀ c, in_bounds 3 c → c ≠ (0, 0) → c ≠ (2, 1) →
      getitem s' c = getitem [[3; 7; 4]; [5; 0; 6]; [8; 2; 1]] c.
Proof.
  apply (do_action_exchanges_cells 3 [[[3; 7; 4]; [5; 0; 6]; [8; 2; 1]]] 0%nat).
  - reflexivity.
  - split; [reflexivity | repeat constructor].
  - unfold in_bounds; simpl; lia.
  - unfold in_bounds; simpl; lia.
Defined.

(** ** Locating a value *)

Lemma index_of_Some v line j : index_of v line = Some j → line !! j = Some v.
Proof.
  revert j. induction line as [| w rest IH]; intros j; simpl; [done |].
  case_bool_decide as Hw.
  - intros [= <-]. by rewrite Hw.
  - destruct (index_of v rest) as [j' |]; simpl; [| done].
    intros [= <-]. by apply IH.
Qed.

Lemma index_of_is_Some v line : v ∈ line → is_Some (index_of v line).
Proof.
  induction line as [| w rest IH]; simpl.
  - by intros ?%elem_of_nil.
  - intros [-> | Hin]%elem_of_cons.
    + rewrite bool_decide_eq_true_2 by done. by eexists.
    + case_bool_decide; [by eexists |].
      destruct (IH Hin) as [j ->]. by eexists.
Qed.

Lemma where_first_Some a v i j : where_first a v = Some (i, j) → cell a i j = Some v.
Proof.
  revert i. induction a as [| r rest IH]; intros i; simpl; [done |].
  destruct (index_of v r) as [j' |] eqn:Hidx.
  - intros [= <- <-]. unfold cell. simpl. by apply index_of_Some.
  - destruct (where_first rest v) as [[i' j'] |]; simpl; [| done].
    intros [= <- <-]. by apply IH.
Qed.

Lemma where_first_is_Some a v : v ∈ concat a → is_Some (where_first a v).
Proof.
  induction a as [| r rest IH]; simpl.
  - by intros ?%elem_of_nil.
  - intros [Hin | Hin]%elem_of_app.
    + destruct (index_of_is_Some v r Hin) as [j ->]. by eexists.
    + destruct (index_of v r); [by eexists |].
      destruct (IH Hin) as [p ->]. by eexists.
Qed.

Lemma cell_Some_bounds n a i j v :
  square n a → cell a i j = Some v → (i < n)%nat ∧ (j < n)%nat.
Proof.
  intros Hsq Hc. unfold cell in Hc.
  destruct (a !! i) as [r |] eqn:Hr; [simpl in Hc | done].
  pose proof (lookup_lt_Some _ _ _ Hr) as Hi.
  pose proof (lookup_lt_Some _ _ _ Hc) as Hj.
  rewrite (square_lookup n a i r Hsq Hr) in Hj.
  destruct Hsq as [Hlen _]. lia.
Qed.

Lemma elem_of_concat (a : grid) v : v ∈ concat a ↔ ∃ r, r ∈ a ∧ v ∈ r.
Proof.
  induction a as [| r0 rest IH]; simpl.
  - split; [by intros ?%elem_of_nil | by intros (r & ?%elem_of_nil & _)].
  - rewrite elem_of_app, IH. split.
    + intros [Hin | (r & Hr & Hin)].
      * exists r0. split; [apply elem_of_cons; by left | done].
      * exists r. split; [apply elem_of_cons; by right | done].
    + intros (r & [-> | Hr]%elem_of_cons & Hin); [by left | right; eauto].
Qed.

Lemma cell_elem_of_concat a i j v : cell a i j = Some v → v ∈ concat a.
Proof.
  unfold cell. intros Hc.
  destruct (a !! i) as [r |] eqn:Hr; [simpl in Hc | done].
  apply elem_of_concat. exists r. split.
  - by eapply list_elem_of_lookup_2.
  - by eapply list_elem_of_lookup_2.
Qed.

(** ** [available_actions] *)

Lemma available_actions_unfold s :
  available_actions s =
    p ← where_first s 0;
    Some (actions_at (Z.of_nat (length s)) (Z.of_nat p.1) (Z.of_nat p.2)).
Proof.
  unfold available_actions, actions_at, shape0.
  destruct (where_first s 0) as [[i j] |]; simpl; [| done].
  repeat case_bool_decide; reflexivity.
Qed.

Lemma elem_of_actions_at d x y a :
  a ∈ actions_at d x y ↔
    pos1 a = (x, y) ∧
    ((pos2 a = (x - 1, y) ∧ x > 0) ∨ (pos2 a = (x + 1, y) ∧ x < d - 1) ∨
     (pos2 a = (x, y - 1) ∧ y > 0) ∨ (pos2 a = (x, y + 1) ∧ y < d - 1)).
Proof.
  unfold actions_at. rewrite !elem_of_app. destruct a as [p1 p2]. simpl.
  split.
  - intros Hyp.
    repeat case_bool_decide;
      rewrite ?elem_of_nil, ?list_elem_of_singleton in Hyp;
      destruct_or?; simplify_eq; try done; split; eauto 10.
  - intros [-> Hyp].
    destruct_or?; destruct_and?; subst p2;
      [left | right; left | right; right; left | right; right; right];
      rewrite bool_decide_eq_true_2 by done; by apply list_elem_of_singleton.
Qed.

Lemma NoDup_actions_at d x y : NoDup (actions_at d x y).
Proof.
  unfold actions_at.
  repeat case_bool_decide; simpl; repeat constructor;
    rewrite ?elem_of_cons, ?elem_of_nil; intros Hyp; destruct_or?; simplify_eq; lia.
Qed.

Lemma available_actions_blank n s actions :
  square n s → available_actions s = Some actions →
  ∃ b, in_bounds n b ∧ getitem s b = Some 0 ∧
       actions = actions_at (Z.of_nat n) b.1 b.2.
Proof.
  intros Hsq. rewrite available_actions_unfold.
  destruct (where_first s 0) as [[i j] |] eqn:Hw; simpl; [| done].
  intros [= <-].
  apply where_first_Some in Hw.
  destruct (cell_Some_bounds n s i j 0 Hsq Hw) as [Hi Hj].
  exists (Z.of_nat i, Z.of_nat j). simpl.
  assert (Hb : in_bounds n (Z.of_nat i, Z.of_nat j)) by (unfold in_bounds; simpl; lia).
  split_and!; [done | |].
  - rewrite (getitem_cell n) by done. simpl. by rewrite !Nat2Z.id.
  - destruct Hsq as [-> _]. done.
Qed.

Lemma available_actions_in_bounds n s actions a :
  square n s → available_actions s = Some actions → a ∈ actions → legal n s a.
Proof.
  intros Hsq Hacts Ha.
  destruct (available_actions_blank n s actions Hsq Hacts) as ([x y] & Hb & Hzero & ->).
  simpl in *. apply elem_of_actions_at in Ha as [Hp1 Hp2].
  destruct a as [p1 p2]. simpl in *. subst p1.
  destruct Hb as [Hx Hy]. simpl in *.
  unfold legal, in_bounds, orthogonal_neighbour. simpl.
  destruct_or!; destruct_and!; subst p2; simpl; split_and!; try done; try lia.
Qed.

(** C5. Applying an action offered by [available_actions] twice gives back
    the state it was first applied to, and neither application modifies the
    array it is given: each returns a freshly allocated array and leaves the
    arrays already in the store as they were. *)
Theorem do_action_twice n σ r s actions a :
  σ !! r = Some s → square n s →
  available_actions s = Some actions → a ∈ actions →
  ∃ s1,
    do_action s a = Some s1 ∧ do_action s1 a = Some s ∧
    Mem.do_action r a σ = Some (length σ, σ ++ [s1]) ∧
    Mem.do_action (length σ) a (σ ++ [s1]) = Some (S (length σ), (σ ++ [s1]) ++ [s]) ∧
    (σ ++ [s1]) !! r = Some s ∧
    ((σ ++ [s1]) ++ [s]) !! r = Some s ∧
    ((σ ++ [s1]) ++ [s]) !! length σ = Some s1.
Proof.
  intros Hr Hsq Hacts Ha.
  destruct (available_actions_in_bounds n s actions a Hsq Hacts Ha) as (Hp & _ & Hq & _).
  destruct a as [p q]. simpl in *.
  pose proof (do_action_swapped n s p q Hsq Hp Hq) as H1.
  pose proof (do_action_swapped n _ p q (swapped_square n s p q Hsq) Hp Hq) as H2.
  rewrite (swapped_involutive n) in H2 by done.
  pose proof (lookup_lt_Some _ _ _ Hr) as Hlt.
  exists (swapped s p q). split_and!; try done.
  - rewrite (Mem_do_action_pure σ r s) by done. by rewrite H1.
  - rewrite (Mem_do_action_pure _ _ (swapped s p q)) by (by apply list_lookup_middle).
    rewrite H2. simpl. rewrite length_app. simpl. do 3 f_equal. lia.
  - by rewrite lookup_app_l.
  - rewrite <- app_assoc. by rewrite lookup_app_l.
  - rewrite <- app_assoc. by apply list_lookup_middle.
Qed.

Lemma do_action_twice_witness :
  ∃ s1,
    do_action [[3; 7; 4]; [5; 0; 6]; [8; 2; 1]] (mkAction (1, 1) (2, 1)) = Some s1 ∧
    do_action s1 (mkAction (1, 1) (2, 1)) = Some [[3; 7; 4]; [5; 0; 6]; [8; 2; 1]] ∧
    Mem.do_action 0%nat (mkAction (1, 1) (2, 1)) [[[3; 7; 4]; [5; 0; 6]; [8; 2; 1]]]
      = Some (1%nat, [[[3; 7; 4]; [5; 0; 6]; [8; 2; 1]]] ++ [s1]) ∧
    Mem.do_action 1%nat (mkAction (1, 1) (2, 1)) ([[[3; 7; 4]; [5; 0; 6]; [8; 2; 1]]] ++ [s1])
      = Some (2%nat, ([[[3; 7; 4]; [5; 0; 6]; [8; 2; 1]]] ++ [s1])
                       ++ [[[3; 7; 4]; [5; 0; 6]; [8; 2; 1]]]) ∧
    ([[[3; 7; 4]; [5; 0; 6]; [8; 2; 1]]] ++ [s1]) !! 0%nat
      = Some [[3; 7; 4]; [5; 0; 6]; [8; 2; 1]] ∧
    (([[[3; 7; 4]; [5; 0; 6]; [8; 2; 1]]] ++ [s1]) ++ [[[3; 7; 4]; [5; 0; 6]; [8; 2; 1]]]) !! 0%nat
      = Some [[3; 7; 4]; [5; 0; 6]; [8; 2; 1]] ∧
    (([[[3; 7; 4]; [5; 0; 6]; [8; 2; 1]]] ++ [s1]) ++ [[[3; 7; 4]; [5; 0; 6]; [8; 2; 1]]]) !! 1%nat
      = Some s1.
Proof.
  apply (do_action_twice 3 [[[3; 7; 4]; [5; 0; 6]; [8; 2; 1]]] 0%nat
           [[3; 7; 4]; [5; 0; 6]; [8; 2; 1]]
           [mkAction (1, 1) (0, 1); mkAction (1, 1) (2, 1);
            mkAction (1, 1) (1, 0); mkAction (1, 1) (1, 2)]).
  - reflexivity.
  - split; [reflexivity | repeat constructor].
  - reflexivity.
  - apply elem_of_cons; right. apply elem_of_cons; left. reflexivity.
Defined.

Lemma valid_state_has_blank n s : (0 < n)%nat → valid_state n s → 0 ∈ concat s.
Proof.
  intros Hn [_ Hperm]. rewrite Hperm. unfold range.
  apply (list_elem_of_fmap_2 Z.of_nat _ 0%nat). apply elem_of_seq. nia.
Qed.

Lemma length_actions_at d x y :
  Z.of_nat (length (actions_at d x y)) =
    (if bool_decide (x > 0) then 1 else 0) + (if bool_decide (x < d - 1) then 1 else 0) +
    (if bool_decide (y > 0) then 1 else 0) + (if bool_decide (y < d - 1) then 1 else 0).
Proof. unfold actions_at. repeat case_bool_decide; reflexivity. Qed.

(** C9, on boards of side at least 2. *)
Theorem available_actions_neighbours n s :
  (2 ≤ n)%nat → valid_state n s → available_actions_claim n s.
Proof.
  intros Hn Hvalid.
  pose proof (valid_state_has_blank n s ltac:(lia) Hvalid) as Hblank.
  destruct Hvalid as [Hsq _].
  destruct (where_first_is_Some s 0 Hblank) as [p Hp].
  assert (Hacts : available_actions s
                  = Some (actions_at (Z.of_nat (length s)) (Z.of_nat p.1) (Z.of_nat p.2))).
  { rewrite available_actions_unfold, Hp. done. }
  destruct (available_actions_blank n s _ Hsq Hacts) as ([x y] & Hb & Hzero & Heq).
  rewrite Heq in Hacts. clear Heq Hp p. simpl in *.
  exists (actions_at (Z.of_nat n) x y), (x, y).
  pose proof (length_actions_at (Z.of_nat n) x y) as Hlen.
  destruct Hb as [Hx Hy]; simpl in *.
  split_and!; try done.
  - apply NoDup_actions_at.
  - intros [p1 [q1 q2]]. rewrite elem_of_actions_at.
    unfold in_bounds, orthogonal_neighbour. simpl. split.
    + intros [-> Hq]. destruct_or!; destruct_and!; simplify_eq; split_and!; try done; lia.
    + intros (-> & [Hq1 Hq2] & Hnb). split; [done |].
      assert (q1 = x - 1 ∧ q2 = y ∧ x > 0 ∨ q1 = x + 1 ∧ q2 = y ∧ x < Z.of_nat n - 1 ∨
              q1 = x ∧ q2 = y - 1 ∧ y > 0 ∨ q1 = x ∧ q2 = y + 1 ∧ y < Z.of_nat n - 1)
        as Hcases by lia.
      clear Hnb. destruct_or!; destruct_and!; subst; eauto 10.
  - unfold corner, on_border. simpl. intros Hc.
    repeat case_bool_decide; lia.
  - unfold edge, on_border. simpl. intros Hc.
    repeat case_bool_decide; lia.
  - unfold interior, on_border. simpl. intros Hc.
    repeat case_bool_decide; lia.
  - intros a Ha. by eapply available_actions_in_bounds.
Qed.

Lemma valid_state_start_3x3 : valid_state 3 [[3; 7; 4]; [5; 0; 6]; [8; 2; 1]].
Proof.
  split; [split; [reflexivity | repeat constructor] |].
  apply (Permutation_sym (l := range (3 * 3))).
  unfold range. simpl.
  apply Permutation_cons_app with (l1 := [3; 7; 4; 5]) (l2 := [6; 8; 2; 1]).
  apply Permutation_cons_app with (l1 := [3; 7; 4; 5; 6; 8; 2]) (l2 := []).
  apply Permutation_cons_app with (l1 := [3; 7; 4; 5; 6; 8]) (l2 := []).
  apply Permutation_cons_app with (l1 := []) (l2 := [7; 4; 5; 6; 8]).
  apply Permutation_cons_app with (l1 := [7]) (l2 := [5; 6; 8]).
  apply Permutation_cons_app with (l1 := [7]) (l2 := [6; 8]).
  apply Permutation_cons_app with (l1 := [7]) (l2 := [8]).
  apply Permutation_cons_app with (l1 := []) (l2 := [8]).
  reflexivity.
Qed.

Lemma available_actions_neighbours_witness :
  available_actions_claim 3 [[3; 7; 4]; [5; 0; 6]; [8; 2; 1]].
Proof.
  apply available_actions_neighbours.
  - lia.
  - exact valid_state_start_3x3.
Defined.

(** C9 as written fails on the 1 by 1 board [[0]]: the blank is in a corner
    and [available_actions] returns the empty list. *)
Lemma available_actions_claim_fails_1x1 :
  valid_state 1 [[0]] ∧ ¬ available_actions_claim 1 [[0]].
Proof.
  split.
  - split; [split; [reflexivity | repeat constructor] | reflexivity].
  - intros (actions & b & Hacts & [Hb1 Hb2] & _ & _ & _ & Hcorner & _).
    assert (actions = []) as -> by (by injection Hacts).
    assert (length (A := Action) [] = 2%nat) as Hlen; [| done].
    apply Hcorner. unfold corner, on_border. lia.
Qed.

(** ** Heuristics *)

Lemma foldl_nondecreasing {A} (f : Z → A → Z) :
  (∀ c x, c ≤ f c x) → ∀ l c, c ≤ foldl f c l.
Proof.
  intros Hf l. induction l as [| x l IH]; intros c; simpl; [lia |].
  specialize (IH (f c x)). specialize (Hf c x). lia.
Qed.

Lemma count_conflicts_nonneg line1 line2 : 0 ≤ count_conflicts line1 line2.
Proof.
  unfold count_conflicts. apply foldl_nondecreasing. intros c i.
  case_bool_decide; [lia |].
  apply foldl_nondecreasing. intros c' j.
  repeat case_bool_decide; simpl; lia.
Qed.

Lemma for_each_nondecreasing {A} (body : A → Z → option Z) l :
  (∀ a c c', a ∈ l → body a c = Some c' → c ≤ c') →
  ∀ c c', for_each l body c = Some c' → c ≤ c'.
Proof.
  induction l as [| a l IH]; intros Hbody c c'; simpl.
  - intros [= ->]. lia.
  - destruct (body a c) as [c1 |] eqn:Hc1; simpl; [| done].
    intros Hrest.
    assert (c ≤ c1) by (eapply Hbody; [apply elem_of_cons; by left | done]).
    assert (c1 ≤ c'); [| lia].
    eapply IH; [| done]. intros a' d d' Hin. apply Hbody. apply elem_of_cons. by right.
Qed.

Lemma for_each_is_Some {A S} (body : A → S → option S) l :
  (∀ a c, a ∈ l → is_Some (body a c)) → ∀ c, is_Some (for_each l body c).
Proof.
  induction l as [| a l IH]; intros Hbody c; simpl; [by eexists |].
  destruct (Hbody a c) as [c1 ->]; [apply elem_of_cons; by left |]. simpl.
  apply IH. intros a' d Hin. apply Hbody. apply elem_of_cons. by right.
Qed.

Lemma elem_of_range n i : i ∈ range n ↔ 0 ≤ i < Z.of_nat n.
Proof.
  unfold range. rewrite list_elem_of_fmap. split.
  - intros (k & -> & Hk%elem_of_seq). lia.
  - intros Hi. exists (Z.to_nat i). split; [lia |]. apply elem_of_seq. lia.
Qed.

Lemma square_shape1 n a : square n a → shape1 a = n.
Proof.
  intros [Hlen Hall]. destruct a as [| r rest]; simpl in *; [done |].
  by inversion Hall.
Qed.

(** Whenever [enhanced_manhattan] returns, [manhattan_distance] returned a
    value that is not larger. *)
Lemma enhanced_manhattan_above s g e :
  enhanced_manhattan s g = Some e →
  ∃ m, manhattan_distance s g = Some m ∧ m ≤ e.
Proof.
  unfold enhanced_manhattan.
  destruct (manhattan_distance s g) as [m |]; simpl; [| done].
  destruct (for_each (seq 0 (shape0 s)) _ m) as [c1 |] eqn:Hrows; simpl; [| done].
  destruct (for_each (seq 0 (shape1 s)) _ c1) as [c2 |] eqn:Hcols; simpl; [| done].
  intros [= <-]. exists m. split; [done |].
  assert (m ≤ c1).
  { eapply for_each_nondecreasing; [| exact Hrows]. intros i c c' _. cbv beta.
    destruct (row s i) as [l1 |]; simpl; [| done].
    destruct (row g i) as [l2 |]; simpl; [| done].
    intros [= <-]. pose proof (count_conflicts_nonneg l1 l2). lia. }
  assert (c1 ≤ c2); [| lia].
  eapply for_each_nondecreasing; [| exact Hcols]. intros j c c' _. cbv beta.
  destruct (column s j) as [l1 |]; simpl; [| done].
  destruct (column g j) as [l2 |]; simpl; [| done].
  intros [= <-]. pose proof (count_conflicts_nonneg l1 l2). lia.
Qed.

Lemma manhattan_distance_is_Some n s g :
  valid_state n s → valid_state n g → is_Some (manhattan_distance s g).
Proof.
  intros [Hs Hps] [Hg Hpg]. unfold manhattan_distance, shape0.
  destruct Hs as [Hlen Hrows].
  apply for_each_is_Some. intros i c Hi%elem_of_range.
  apply for_each_is_Some. intros j c' Hj%elem_of_range.
  assert (Hb : in_bounds n (i, j)) by (unfold in_bounds; simpl; lia).
  rewrite (getitem_cell n) by done. simpl.
  destruct (cell_is_Some n s (Z.to_nat i) (Z.to_nat j)) as [v Hv]; [done | lia | lia |].
  rewrite Hv. simpl. case_bool_decide; [| by eexists].
  destruct (where_first_is_Some g v) as [p ->]; [| by eexists].
  rewrite Hpg, <- Hps. by eapply cell_elem_of_concat.
Qed.

Lemma enhanced_manhattan_is_Some n s g :
  valid_state n s → valid_state n g → is_Some (enhanced_manhattan s g).
Proof.
  intros Hs Hg. unfold enhanced_manhattan.
  destruct (manhattan_distance_is_Some n s g Hs Hg) as [m ->]. simpl.
  destruct Hs as [Hs _], Hg as [Hg _].
  destruct (for_each_is_Some
              (λ i cost, line1 ← row s i; line2 ← row g i;
                         Some (cost + count_conflicts line1 line2))
              (seq 0 (shape0 s))) with (c := m) as [c1 Hc1].
  { intros i c Hi%elem_of_seq. unfold row, shape0 in *.
    destruct (square_row n s i Hs) as (l1 & -> & _); [destruct Hs; lia |].
    destruct (square_row n g i Hg) as (l2 & -> & _); [destruct Hs; lia |].
    by eexists. }
  rewrite Hc1. simpl.
  destruct (for_each_is_Some
              (λ j cost, line1 ← column s j; line2 ← column g j;
                         Some (cost + count_conflicts line1 line2))
              (seq 0 (shape1 s))) with (c := c1) as [c2 Hc2].
  { intros j c Hj%elem_of_seq. unfold column.
    rewrite (square_shape1 n s Hs) in *. rewrite (square_shape1 n g Hg).
    rewrite !bool_decide_eq_true_2 by lia. by eexists. }
  rewrite Hc2. by eexists.
Qed.

(** C8. On puzzle states of a common size both heuristics return, and
    [enhanced_manhattan] is at least [manhattan_distance]. *)
Theorem enhanced_manhattan_dominates n s g :
  valid_state n s → valid_state n g →
  ∃ m e, manhattan_distance s g = Some m ∧ enhanced_manhattan s g = Some e ∧ e >= m.
Proof.
  intros Hs Hg.
  destruct (enhanced_manhattan_is_Some n s g Hs Hg) as [e He].
  destruct (enhanced_manhattan_above s g e He) as (m & Hm & Hle).
  exists m, e. split_and!; [done | done | lia].
Qed.

Lemma valid_state_goal_3x3 : valid_state 3 [[1; 2; 3]; [4; 5; 6]; [7; 8; 0]].
Proof.
  split; [split; [reflexivity | repeat constructor] |].
  apply (Permutation_sym (l := range (3 * 3))).
  apply (Permutation_cons_append [1; 2; 3; 4; 5; 6; 7; 8] 0).
Qed.

Lemma enhanced_manhattan_dominates_witness :
  ∃ m e,
    manhattan_distance [[3; 7; 4]; [5; 0; 6]; [8; 2; 1]] [[1; 2; 3]; [4; 5; 6]; [7; 8; 0]] = Some m ∧
    enhanced_manhattan [[3; 7; 4]; [5; 0; 6]; [8; 2; 1]] [[1; 2; 3]; [4; 5; 6]; [7; 8; 0]] = Some e ∧
    e >= m.
Proof.
  apply (enhanced_manhattan_dominates 3).
  - exact valid_state_start_3x3.
  - exact valid_state_goal_3x3.
Defined.

(** ** Paths of moves *)

Lemma path_len_cons s t k u : move s t → path_len t k u → path_len s (S k) u.
Proof.
  intros Hmove Hpath. induction Hpath as [| k v w Hpath IH Hvw].
  - eapply path_step; [apply path_here | done].
  - eapply path_step; [by apply IH | done].
Qed.

Lemma path_len_app s j t k u : path_len s j t → path_len t k u → path_len s (j + k) u.
Proof.
  intros Hst Htu. induction Htu as [| k v w Hpath IH Hvw].
  - by rewrite Nat.add_0_r.
  - rewrite Nat.add_succ_r. eapply path_step; [by apply IH | done].
Qed.

Lemma play_path_len actions : ∀ s t, play s actions = Some t → path_len s (length actions) t.
Proof.
  induction actions as [| a rest IH]; intros s t; simpl.
  - intros [= ->]. apply path_here.
  - destruct (available_actions s) as [offered |] eqn:Hoff; simpl; [| done].
    case_bool_decide as Hin; [| done].
    destruct (do_action s a) as [s' |] eqn:Hdo; simpl; [| done].
    intros Hrest. eapply path_len_cons; [| by apply IH].
    by exists offered, a.
Qed.

(** ** [enhanced_manhattan] overestimates *)

Lemma valid_state_reversed_3x3 : valid_state 3 reversed_3x3.
Proof.
  split; [split; [reflexivity | repeat constructor] |].
  apply (Permutation_sym (l := range (3 * 3))).
  unfold range, reversed_3x3. simpl.
  apply perm_skip.
  change [8; 7; 6; 5; 4; 3; 2; 1] with (reverse [1; 2; 3; 4; 5; 6; 7; 8]).
  by rewrite reverse_Permutation.
Qed.

(** C2 fails on the code: on the reversed board, which 28 moves turn into the
    goal (and which 28 moves produce from the goal), [enhanced_manhattan]
    returns 32.  [manhattan_distance] returns 20 there; the other 12 are the
    three pairs in conflict in the middle row and the three in the middle
    column, each pair counted for 2. *)
Theorem enhanced_manhattan_overestimates :
  valid_state 3 reversed_3x3 ∧ valid_state 3 goal_3x3 ∧
  path_len goal_3x3 28 reversed_3x3 ∧
  path_len reversed_3x3 28 goal_3x3 ∧
  manhattan_distance reversed_3x3 goal_3x3 = Some 20 ∧
  enhanced_manhattan reversed_3x3 goal_3x3 = Some 32 ∧
  ¬ admissible enhanced_manhattan goal_3x3 goal_3x3.
Proof.
  assert (Hto : path_len reversed_3x3 28 goal_3x3).
  { apply (play_path_len reversed_to_goal). vm_compute. reflexivity. }
  assert (Hfrom : path_len goal_3x3 28 reversed_3x3).
  { apply (play_path_len goal_to_reversed). vm_compute. reflexivity. }
  split_and!.
  - exact valid_state_reversed_3x3.
  - exact valid_state_goal_3x3.
  - exact Hfrom.
  - exact Hto.
  - vm_compute. reflexivity.
  - vm_compute. reflexivity.
  - intros Hadm.
    destruct (Hadm reversed_3x3 28%nat 28%nat Hfrom Hto) as (v & Hv & Hle).
    assert (v = 32) as -> by (vm_compute in Hv; congruence).
    lia.
Qed.

(** ** The sorted list implements the priority queue interface *)

Lemma sorted_push_perm h n : sorted_push h n ≡ₚ n :: h.
Proof.
  induction h as [| m rest IH]; simpl; [done |].
  destruct (Node_lt n m); [done |].
  rewrite IH. apply perm_swap.
Qed.

Lemma sorted_push_sorted h n : sorted_by_f h → sorted_by_f (sorted_push h n).
Proof.
  induction h as [| m rest IH]; simpl.
  - intros _. split; [by intros m ?%elem_of_nil | done].
  - intros [Hm Hrest]. unfold Node_lt. case_bool_decide as Hlt; simpl.
    + split; [| done]. intros k [-> | Hk]%elem_of_cons; [lia |].
      specialize (Hm k Hk). lia.
    + split; [| by apply IH].
      intros k Hk. rewrite sorted_push_perm in Hk.
      apply elem_of_cons in Hk as [-> | Hk]; [lia | by apply Hm].
Qed.

#[global] Program Instance sorted_heapq : HeapQ := {|
  heappush := sorted_push;
  heappop := sorted_pop;
  is_heap := sorted_by_f
|}.
Next Obligation. intros n. simpl. split; [by intros m ?%elem_of_nil | done]. Qed.
Next Obligation. apply sorted_push_sorted. Qed.
Next Obligation. apply sorted_push_perm. Qed.
Next Obligation. intros [| n rest] Hne; [done | by eexists]. Qed.
Next Obligation. intros [| n' rest] n h'; simpl; [done |]. by intros [= -> ->]. Qed.
Next Obligation. intros [| n' rest] n h'; simpl; [done |]. by intros [_ Hrest] [= -> ->]. Qed.
Next Obligation.
  intros [| n' rest] n h' m; simpl; [done |]. intros [Hmin _] [= -> ->] Hm.
  unfold Node_lt. apply bool_decide_eq_false_2.
  apply elem_of_cons in Hm as [-> | Hm]; [lia |]. specialize (Hmin m Hm). lia.
Qed.

(** ** [reconstruct_path] *)

Lemma Node_parent_ind (P : Node → Prop) :
  (∀ n, parent n = None → P n) →
  (∀ n p, parent n = Some p → P p → P n) →
  ∀ n, P n.
Proof.
  intros Hroot Hchild. fix IH 1. intros [s [p |] a g h].
  - apply (Hchild _ p); [done | apply IH].
  - by apply Hroot.
Qed.

Lemma reconstruct_loop_collected node : ∀ path,
  reconstruct_loop node path = path ++ collected node.
Proof.
  induction node as [n Hn | n p Hn IH] using Node_parent_ind; intros path.
  - destruct n as [s par a g h]. simpl in *. by rewrite Hn.
  - destruct n as [s par a g h]. simpl in *. rewrite Hn.
    rewrite IH. by rewrite <- app_assoc.
Qed.

Lemma length_collected node : length (collected node) = S (depth node).
Proof.
  induction node as [n Hn | n p Hn IH] using Node_parent_ind.
  - destruct n as [s par a g h]. simpl in *. by rewrite Hn.
  - destruct n as [s par a g h]. simpl in *. rewrite Hn. simpl. by rewrite IH.
Qed.

Lemma collected_lookup_root node :
  collected node !! depth node = Some (state (ancestor (depth node) node), None).
Proof.
  induction node as [n Hn | n p Hn IH] using Node_parent_ind.
  - destruct n as [s par a g h]. simpl in *. by rewrite Hn.
  - destruct n as [s par a g h]. simpl in *. rewrite Hn. simpl. apply IH.
Qed.

Lemma collected_lookup_below node : ∀ i,
  (i < depth node)%nat →
  collected node !! i = Some (state (ancestor i node), action (ancestor i node)).
Proof.
  induction node as [n Hn | n p Hn IH] using Node_parent_ind; intros i Hi.
  - destruct n as [s par a g h]. simpl in *. rewrite Hn in Hi. lia.
  - destruct n as [s par a g h]. simpl in *. rewrite Hn in *.
    destruct i as [| i]; simpl; [done |]. apply IH. lia.
Qed.

Lemma ancestor_depth_root node : parent (ancestor (depth node) node) = None.
Proof.
  induction node as [n Hn | n p Hn IH] using Node_parent_ind.
  - destruct n as [s par a g h]. simpl in *. by rewrite Hn.
  - destruct n as [s par a g h]. simpl in *. by rewrite Hn.
Qed.

Lemma length_reconstruct_path node : length (reconstruct_path node) = S (depth node).
Proof.
  unfold reconstruct_path. rewrite reconstruct_loop_collected. simpl.
  rewrite length_reverse. apply length_collected.
Qed.

(** C7. For a node [m = depth node] parent links below the start node,
    [reconstruct_path] returns [m + 1] entries, oldest first: entry 0 is the
    state of the start node (the ancestor without a parent) paired with
    [None], and entry [k], for [k] from 1 to [m], is the state of the node
    reached after [k] moves, that is the ancestor [m - k] links up, paired
    with the action recorded in that node. *)
Theorem reconstruct_path_chronological node :
  length (reconstruct_path node) = S (depth node) ∧
  parent (ancestor (depth node) node) = None ∧
  reconstruct_path node !! 0%nat = Some (state (ancestor (depth node) node), None) ∧
  ∀ k, (1 ≤ k ≤ depth node)%nat →
    reconstruct_path node !! k
      = Some (state (ancestor (depth node - k) node),
              action (ancestor (depth node - k) node)).
Proof.
  unfold reconstruct_path. rewrite reconstruct_loop_collected. simpl.
  pose proof (length_collected node) as Hlen.
  split_and!.
  - by rewrite length_reverse.
  - apply ancestor_depth_root.
  - rewrite reverse_lookup by lia. rewrite Hlen.
    replace (S (depth node) - 1)%nat with (depth node) by lia.
    apply collected_lookup_root.
  - intros k Hk. rewrite reverse_lookup by lia. rewrite Hlen.
    replace (S (depth node) - S k)%nat with (depth node - k)%nat by lia.
    apply collected_lookup_below. lia.
Qed.

(** ** The search loop *)

Section SolverProperties.
Context `{HeapQ}.

Lemma heappop_singleton n : heappop [n] = Some (n, []).
Proof.
  destruct (heappop_is_Some [n]) as [[m rest] Hpop]; [done |].
  pose proof (heappop_perm _ _ _ Hpop) as Hperm.
  pose proof (Permutation_length Hperm) as Hlen. simpl in Hlen.
  destruct rest; [| done].
  apply Permutation_singleton_r in Hperm. by simplify_eq.
Qed.

Lemma broadcast_dim_diag d : broadcast_dim d d = Some d.
Proof. unfold broadcast_dim. by rewrite decide_True. Qed.

Lemma eq_all_refl g : eq_all g g = Some true.
Proof.
  unfold eq_all. rewrite !broadcast_dim_diag. simpl. f_equal.
  apply forallb_forall. intros i _. apply forallb_forall. intros j _.
  by apply bool_decide_eq_true_2.
Qed.

Lemma loop_iterate k : ∀ self c0 c fuel,
  iterate k self c0 = Some c → loop (k + fuel) self c0 = loop fuel self c.
Proof.
  induction k as [| k IH]; intros self c0 c fuel; simpl.
  - by intros [= ->].
  - destruct (step self c0) as [c1 | |]; [| done | done]. apply IH.
Qed.

(** When the initial state is the goal, the first iteration pops the start
    node and returns. *)
Lemma first_iteration_at_goal self v :
  initial_state self = goal_state self →
  heuristic_func self (initial_state self) (goal_state self) = Some v →
  ∃ c0,
    init_config self = Some c0 ∧
    popped c0 = Some (mkNode (initial_state self) None None 0 v) ∧
    ∀ fuel, solve (S fuel) self = Returns (Some [(goal_state self, None)], 0, 1).
Proof.
  intros Heq Hh. unfold solve, solve_run, init_config. rewrite Hh. simpl.
  eexists. split; [done |]. split.
  - unfold popped. simpl. by rewrite heappop_singleton.
  - intros fuel. unfold step. simpl. rewrite heappop_singleton. simpl.
    rewrite bool_decide_eq_false_2 by set_solver.
    rewrite Heq, eq_all_refl. done.
Qed.

(** C4. When the initial state is the goal and the heuristic returns a value
    for it, [solve] returns the one-entry path [(goal, None)], with 0 moves
    (and 1 state evaluated), whatever that value is. *)
Theorem solve_goal_as_start g h v fuel :
  h g g = Some v →
  solve (S fuel) {| initial_state := g; goal_state := g; heuristic_func := h |}
    = Returns (Some [(g, None)], 0, 1).
Proof.
  intros Hh.
  destruct (first_iteration_at_goal {| initial_state := g; goal_state := g; heuristic_func := h |} v)
    as (c0 & _ & _ & Hsolve); [done | done |].
  apply Hsolve.
Qed.

(** C6. If the loop reaches, after [k] iterations none of which returned, a
    loop head where the frontier is empty, then [solve] returns normally the
    triple of [None], 0 and the value the counter has there. *)
Theorem solve_exhausted self c0 k c fuel :
  init_config self = Some c0 →
  iterate k self c0 = Some c →
  open_set c = [] →
  (k < fuel)%nat →
  solve fuel self = Returns (None, 0, states_evaluated c).
Proof.
  intros Hinit Hiter Hempty Hfuel. unfold solve, solve_run. rewrite Hinit.
  replace fuel with (k + S (fuel - S k))%nat by lia.
  rewrite (loop_iterate k self c0 c) by done. simpl.
  unfold step. by rewrite Hempty.
Qed.

End SolverProperties.

Lemma solve_goal_as_start_witness :
  manhattan_distance goal_3x3 goal_3x3 = Some 0 ∧
  solve 1 {| initial_state := goal_3x3; goal_state := goal_3x3;
             heuristic_func := manhattan_distance |}
    = Returns (Some [(goal_3x3, None)], 0, 1).
Proof.
  split.
  - vm_compute. reflexivity.
  - apply (solve_goal_as_start goal_3x3 manhattan_distance 0 0). vm_compute. reflexivity.
Defined.

Lemma solve_exhausted_witness :
  ∃ c0 c,
    init_config unsolvable_2x2 = Some c0 ∧
    iterate 12 unsolvable_2x2 c0 = Some c ∧
    open_set c = [] ∧
    (12 < 13)%nat ∧
    states_evaluated c = 12 ∧
    solve 13 unsolvable_2x2 = Returns (None, 0, states_evaluated c).
Proof.
  destruct (init_config unsolvable_2x2) as [c0 |] eqn:Hinit;
    [| vm_compute in Hinit; discriminate].
  destruct (iterate 12 unsolvable_2x2 c0) as [c |] eqn:Hiter.
  - exists c0, c.
    assert (Hc : open_set c = [] ∧ states_evaluated c = 12).
    { pose proof Hinit as Hinit'. vm_compute in Hinit'. injection Hinit' as <-.
      pose proof Hiter as Hiter'. vm_compute in Hiter'. injection Hiter' as <-.
      split; reflexivity. }
    destruct Hc as [Hempty Hcount].
    split_and!; try done; [lia |].
    apply (solve_exhausted unsolvable_2x2 c0 12 c 13); [done | done | done | lia].
  - exfalso. vm_compute in Hinit. injection Hinit as <-.
    vm_compute in Hiter. discriminate.
Defined.

(** ** The counter of evaluated states *)

Lemma for_each_invariant {A S} (P : S → Prop) (body : A → S → option S) l :
  (∀ a s s', a ∈ l → P s → body a s = Some s' → P s') →
  ∀ s s', P s → for_each l body s = Some s' → P s'.
Proof.
  induction l as [| a l IH]; intros Hbody s s' Hs; simpl.
  - by intros [= <-].
  - destruct (body a s) as [s1 |] eqn:Hs1; simpl; [| done].
    apply IH.
    + intros a' t t' Hin. apply Hbody. apply elem_of_cons. by right.
    + eapply Hbody; [apply elem_of_cons; by left | done | done].
Qed.

Section Counter.
Context `{HeapQ}.

Lemma expand_keeps_closed self current a c c' :
  expand self current a c = Some c' →
  closed_set c' = closed_set c ∧ states_evaluated c' = states_evaluated c.
Proof.
  unfold expand.
  destruct (do_action (state current) a) as [new_state |]; simpl; [| done].
  case_bool_decide; [by intros [= <-] |].
  destruct (defaultdict_getitem _ _) as [known gs].
  destruct (ge_score _ known); [by intros [= <-] |].
  destruct (heuristic_func self new_state (goal_state self)); simpl; [| done].
  by intros [= <-].
Qed.

Lemma for_each_expand_keeps_closed self current actions c c' :
  for_each actions (expand self current) c = Some c' →
  closed_set c' = closed_set c ∧ states_evaluated c' = states_evaluated c.
Proof.
  apply (for_each_invariant
           (λ c', closed_set c' = closed_set c ∧ states_evaluated c' = states_evaluated c));
    [| done].
  intros a s s' _ [Hc He] Hexp.
  destruct (expand_keeps_closed _ _ _ _ _ Hexp) as [-> ->]. done.
Qed.

Lemma step_accounting self c :
  evaluated_is_closed c →
  match step self c with
  | Continue c' =>
      states_evaluated c ≤ states_evaluated c' ∧ closed_set c ⊆ closed_set c' ∧
      evaluated_is_closed c'
  | Return (Some path, moves, evaluated) c' =>
      states_evaluated c ≤ states_evaluated c' ∧ closed_set c ⊆ closed_set c' ∧
      evaluated = states_evaluated c' ∧
      states_evaluated c' = Z.of_nat (size (closed_set c')) + 1
  | Return (None, moves, evaluated) c' =>
      states_evaluated c ≤ states_evaluated c' ∧ closed_set c ⊆ closed_set c' ∧
      evaluated = states_evaluated c' ∧ evaluated_is_closed c'
  | Raise => True
  end.
Proof.
  unfold evaluated_is_closed. intros Hc. unfold step.
  destruct (open_set c) as [| n0 rest0]; [done |].
  destruct (heappop (n0 :: rest0)) as [[current rest] |]; [| done].
  case_bool_decide as Hclosed; simpl; [done |].
  destruct (eq_all (state current) (goal_state self)) as [[|] |]; [| | done].
  - simpl. split_and!; [lia | done | done | lia].
  - destruct (available_actions (state current)) as [actions |]; [| done].
    destruct (for_each actions (expand self current) _) as [c' |] eqn:Hfor; [| done].
    apply for_each_expand_keeps_closed in Hfor as [Hcl Hev]. simpl in *.
    rewrite Hcl, Hev. split_and!; [lia | set_solver |].
    rewrite size_union by set_solver. rewrite size_singleton. lia.
Qed.

Lemma iterate_accounting k : ∀ self c0 c,
  evaluated_is_closed c0 → iterate k self c0 = Some c → evaluated_is_closed c.
Proof.
  induction k as [| k IH]; intros self c0 c Hc0; simpl.
  - by intros [= <-].
  - pose proof (step_accounting self c0 Hc0) as Hstep.
    destruct (step self c0) as [c1 | |]; [| done | done].
    apply IH. by destruct Hstep as (_ & _ & ?).
Qed.

(** C3, as the code has it.  At every loop head of every run the counter
    equals the number of keys inserted in the closed set so far; an iteration
    never decreases the counter and never removes a key; the value returned
    is the counter; at the return after the frontier has emptied the counter
    still equals that number, and at the return that delivers a path it is
    that number plus 1. *)
Theorem states_evaluated_accounting self c0 k c :
  init_config self = Some c0 →
  iterate k self c0 = Some c →
  evaluated_accounting self c.
Proof.
  intros Hinit Hiter.
  assert (Hc0 : evaluated_is_closed c0).
  { unfold init_config in Hinit.
    destruct (heuristic_func self _ _); simpl in Hinit; [| done].
    injection Hinit as <-. reflexivity. }
  pose proof (iterate_accounting k self c0 c Hc0 Hiter) as Hc.
  split; [done |]. by apply step_accounting.
Qed.

End Counter.

Lemma states_evaluated_accounting_witness :
  ∃ c0 c,
    init_config unsolvable_2x2 = Some c0 ∧
    iterate 5 unsolvable_2x2 c0 = Some c ∧
    states_evaluated c = 5 ∧
    evaluated_accounting unsolvable_2x2 c.
Proof.
  destruct (init_config unsolvable_2x2) as [c0 |] eqn:Hinit;
    [| vm_compute in Hinit; discriminate].
  destruct (iterate 5 unsolvable_2x2 c0) as [c |] eqn:Hiter.
  - exists c0, c. split_and!; [done | done | |].
    + pose proof Hinit as Hinit'. vm_compute in Hinit'. injection Hinit' as <-.
      pose proof Hiter as Hiter'. vm_compute in Hiter'. injection Hiter' as <-.
      reflexivity.
    + apply (states_evaluated_accounting unsolvable_2x2 c0 5 c); done.
  - exfalso. vm_compute in Hinit. injection Hinit as <-.
    vm_compute in Hiter. discriminate.
Defined.

(** C3 as written fails when the initial state is the goal: [solve] returns
    with the counter at 1 and nothing in the closed set. *)
Lemma evaluated_claim_fails_at_goal :
  ∃ c0,
    init_config {| initial_state := goal_3x3; goal_state := goal_3x3;
                   heuristic_func := manhattan_distance |} = Some c0 ∧
    solve_run 1 {| initial_state := goal_3x3; goal_state := goal_3x3;
                   heuristic_func := manhattan_distance |}
      = Returns ((Some [(goal_3x3, None)], 0, 1),
                 mkConfig [] (g_scores c0) ∅ 1) ∧
    ¬ evaluated_claim {| initial_state := goal_3x3; goal_state := goal_3x3;
                         heuristic_func := manhattan_distance |} c0.
Proof.
  eexists. split; [vm_compute; reflexivity |]. split; [vm_compute; reflexivity |].
  intros [_ Hstep]. vm_compute in Hstep.
  destruct Hstep as (_ & _ & _ & Hle). apply Hle. reflexivity.
Qed.

(** ** Optimality of the search *)

Lemma elem_of_words alphabet w :
  (∀ v, v ∈ w → v ∈ alphabet) → w ∈ words alphabet (length w).
Proof.
  induction w as [| a w IH]; intros Hw; simpl.
  - apply list_elem_of_singleton. done.
  - apply list_elem_of_bind. exists a. split.
    + apply list_elem_of_fmap_2. apply IH. intros v Hv. apply Hw. apply elem_of_cons. by right.
    + apply Hw. apply elem_of_cons. by left.
Qed.

Lemma length_concat_square n a : square n a → length (concat a) = (length a * n)%nat.
Proof.
  intros [_ Hall]. induction Hall as [| r rest Hr Hrest IH]; simpl; [done |].
  rewrite length_app, IH, Hr. done.
Qed.

Lemma concat_inj_rows n : ∀ a b : grid,
  Forall (λ r, length r = n) a → Forall (λ r, length r = n) b →
  length a = length b → concat a = concat b → a = b.
Proof.
  induction a as [| r a IH]; intros [| r' b] Ha Hb Hlen Heq; simpl in *; try done.
  inversion Ha as [| ? ? Hr Ha']; inversion Hb as [| ? ? Hr' Hb']; subst.
  apply app_inj_1 in Heq as [-> Heq]; [| congruence].
  f_equal. apply IH; [done | done | lia | done].
Qed.

Lemma state_to_tuple_inj n a b :
  square n a → square n b → state_to_tuple a = state_to_tuple b → a = b.
Proof.
  intros [Hla Ha] [Hlb Hb]. apply (concat_inj_rows n); [done | done | congruence].
Qed.

Lemma elem_of_concat_cell (a : grid) v : v ∈ concat a → ∃ i j, cell a i j = Some v.
Proof.
  intros (r & Hr & Hv)%elem_of_concat.
  apply list_elem_of_lookup_1 in Hr as [i Hi].
  apply list_elem_of_lookup_1 in Hv as [j Hj].
  exists i, j. unfold cell. by rewrite Hi.
Qed.

(** A move exchanges the blank with a neighbouring tile of the board. *)
Lemma move_swapped n s s' :
  square n s → move s s' →
  ∃ p q, in_bounds n p ∧ in_bounds n q ∧ getitem s p = Some 0 ∧ s' = swapped s p q.
Proof.
  intros Hsq (actions & [p q] & Hacts & Ha & Hdo).
  destruct (available_actions_in_bounds n s actions _ Hsq Hacts Ha) as (Hp & Hzero & Hq & _).
  simpl in *. exists p, q. split_and!; try done.
  rewrite (do_action_swapped n) in Hdo by done. by injection Hdo.
Qed.

Lemma move_square n s s' : square n s → move s s' → square n s'.
Proof.
  intros Hsq Hmove.
  destruct (move_swapped n s s' Hsq Hmove) as (p & q & _ & _ & _ & ->).
  by apply swapped_square.
Qed.

Lemma move_blank n s s' : square n s → move s s' → 0 ∈ concat s'.
Proof.
  intros Hsq Hmove.
  destruct (move_swapped n s s' Hsq Hmove) as (p & q & Hp & Hq & Hzero & ->).
  rewrite (getitem_cell n) in Hzero by done.
  destruct (in_bounds_to_nat n q Hq) as [Hq1 Hq2].
  apply (cell_elem_of_concat _ (Z.to_nat q.1) (Z.to_nat q.2)).
  rewrite (cell_swapped n) by done. by rewrite decide_True.
Qed.

Lemma move_values n s s' v : square n s → move s s' → v ∈ concat s' → v ∈ concat s.
Proof.
  intros Hsq Hmove Hv.
  destruct (move_swapped n s s' Hsq Hmove) as (p & q & Hp & Hq & Hzero & ->).
  apply elem_of_concat_cell in Hv as (i & j & Hv).
  destruct (cell_Some_bounds n _ i j v (swapped_square n s p q Hsq) Hv) as [Hi Hj].
  rewrite (cell_swapped n) in Hv by done.
  repeat case_decide; by eapply cell_elem_of_concat.
Qed.

Lemma path_square n s k t : square n s → path_len s k t → square n t.
Proof.
  intros Hsq Hpath. induction Hpath as [| k t u Hpath IH Hmove]; [done |].
  eapply move_square; [by apply IH | done].
Qed.

Lemma path_values n s k t v : square n s → path_len s k t → v ∈ concat t → v ∈ concat s.
Proof.
  intros Hsq Hpath. revert v. induction Hpath as [| k t u Hpath IH Hmove]; [done |].
  intros v Hv. apply IH.
  eapply move_values; [| done | done]. by eapply path_square.
Qed.

Lemma path_blank n s k t : square n s → 0 ∈ concat s → path_len s k t → 0 ∈ concat t.
Proof.
  intros Hsq Hzero Hpath. destruct Hpath as [| k t u Hpath Hmove]; [done |].
  eapply move_blank; [| done]. by eapply path_square.
Qed.

Lemma available_actions_is_Some n s :
  square n s → 0 ∈ concat s →
  ∃ actions, available_actions s = Some actions ∧ (length actions ≤ 4)%nat ∧
             ∀ a, a ∈ actions → is_Some (do_action s a).
Proof.
  intros Hsq Hzero. rewrite available_actions_unfold.
  destruct (where_first_is_Some s 0 Hzero) as [p Hp]. rewrite Hp. simpl.
  eexists. split; [done |]. split.
  - pose proof (length_actions_at (Z.of_nat (length s)) (Z.of_nat p.1) (Z.of_nat p.2)).
    repeat case_bool_decide; lia.
  - intros [p1 p2] Ha.
    assert (Hacts : available_actions s
                    = Some (actions_at (Z.of_nat (length s)) (Z.of_nat p.1) (Z.of_nat p.2))).
    { rewrite available_actions_unfold, Hp. done. }
    destruct (available_actions_in_bounds n s _ _ Hsq Hacts Ha) as (Hp1 & _ & Hp2 & _).
    simpl in *. rewrite (do_action_swapped n) by done. by eexists.
Qed.

Section Optimality.
Context `{HeapQ}.
Variable self : GemPuzzleSolver.
Variable n : nat.

Notation init := (initial_state self).
Notation goal := (goal_state self).
Notation h := (heuristic_func self).
Notation key := state_to_tuple.

Hypothesis init_square : square n init.
Hypothesis init_blank : 0 ∈ concat init.
Hypothesis h_consistent : consistent h init goal.

Lemma chain_ok_path node :
  chain_ok self node →
  path_len init (depth node) (state node) ∧ g_cost node = Z.of_nat (depth node).
Proof.
  induction node as [m Hm | m p Hm IH] using Node_parent_ind.
  - destruct m as [s par a g hc]. simpl in *. rewrite Hm.
    intros (_ & -> & ->). split; [apply path_here | done].
  - destruct m as [s par a g hc]. simpl in *. rewrite Hm.
    intros (_ & (actions & a' & _ & Hacts & Ha & Hdo) & -> & Hp).
    destruct (IH Hp) as [Hpath ->]. split; [| lia].
    eapply path_step; [done |]. by exists actions, a'.
Qed.

Lemma chain_ok_h node : chain_ok self node → h (state node) goal = Some (h_cost node).
Proof. destruct node as [s [p |] a g hc]; simpl; by intros [? _]. Qed.

Lemma reach_square k s : path_len init k s → square n s.
Proof. by apply path_square. Qed.

Lemma reach_blank k s : path_len init k s → 0 ∈ concat s.
Proof. by apply (path_blank n). Qed.

Lemma reach_universe k s : path_len init k s → key s ∈ universe n init.
Proof.
  intros Hpath. unfold universe. apply elem_of_list_to_set.
  pose proof (reach_square k s Hpath) as Hsq.
  replace (n * n)%nat with (length (key s)).
  - apply elem_of_words. intros v Hv. by eapply (path_values n).
  - unfold state_to_tuple. rewrite (length_concat_square n) by done.
    destruct Hsq as [-> _]. done.
Qed.

Lemma reach_key_inj j s k t : path_len init j s → path_len init k t → key s = key t → s = t.
Proof.
  intros Hs Ht. apply (state_to_tuple_inj n); by eapply reach_square.
Qed.

Lemma consistent_path j s k t :
  path_len init j s → path_len s k t →
  ∀ v v', h s goal = Some v → h t goal = Some v' → v ≤ v' + Z.of_nat k.
Proof.
  intros Hs Hpath. induction Hpath as [| k t u Hpath IH Hmove]; intros v v' Hv Hv'.
  - assert (v = v') by congruence. lia.
  - pose proof (path_len_app _ _ _ _ _ Hs Hpath) as Ht.
    destruct (h_consistent t _ u Ht Hmove) as (vt & vu & Hvt & Hvu & Hle).
    assert (vu = v') by congruence. subst vu.
    specialize (IH v vt Hv Hvt). lia.
Qed.

(** As long as a reachable state is not closed, the frontier holds a node on
    every path to it, at a cost no larger than its position on the path. *)
Lemma frontier_on_path c k s :
  inv self n (λ _ _, False) c →
  path_len init k s → key s ∉ closed_set c →
  ∃ m j, m ∈ open_set c ∧ (j ≤ k)%nat ∧ g_cost m ≤ Z.of_nat j ∧
         path_len (state m) (k - j) s.
Proof.
  intros Hinv Hpath. induction Hpath as [| k t u Hpath IH Hmove]; intros Hopen.
  - destruct (inv_start _ _ _ _ Hinv) as (g0 & Hg0 & Hle).
    destruct (inv_open _ _ _ _ Hinv _ _ Hopen Hg0) as (m & Hm & Hkey & Hg).
    exists m, 0%nat. split_and!; [done | lia | lia |].
    destruct (chain_ok_path m (inv_nodes _ _ _ _ Hinv m Hm)) as [Hpm _].
    rewrite (reach_key_inj _ _ 0 init Hpm (path_here _) Hkey). apply path_here.
  - destruct (decide (key t ∈ closed_set c)) as [Hclosed | Hnot].
    + destruct (inv_closed _ _ _ _ Hinv t k u Hpath Hclosed Hmove)
        as [[] | [? | (g' & Hg' & Hle)]]; [done |].
      destruct (inv_open _ _ _ _ Hinv _ _ Hopen Hg') as (m & Hm & Hkey & Hg).
      exists m, (S k). split_and!; [done | lia | lia |].
      destruct (chain_ok_path m (inv_nodes _ _ _ _ Hinv m Hm)) as [Hpm _].
      rewrite (reach_key_inj _ _ (S k) u Hpm (path_step _ _ _ _ Hpath Hmove) Hkey).
      rewrite Nat.sub_diag. apply path_here.
    + destruct (IH Hnot) as (m & j & Hm & Hj & Hg & Hpm).
      exists m, j. split_and!; [done | lia | done |].
      replace (S k - j)%nat with (S (k - j)) by lia.
      by eapply path_step.
Qed.

(** The node popped from the frontier, if its state is not closed, has the
    cost of a shortest path to its state. *)
Lemma popped_optimal c current rest k :
  inv self n (λ _ _, False) c →
  heappop (open_set c) = Some (current, rest) →
  key (state current) ∉ closed_set c →
  path_len init k (state current) →
  g_cost current ≤ Z.of_nat k.
Proof.
  intros Hinv Hpop Hopen Hpath.
  destruct (frontier_on_path c k _ Hinv Hpath Hopen) as (m & j & Hm & Hj & Hg & Hpm).
  pose proof (heappop_min _ _ _ m (inv_heap _ _ _ _ Hinv) Hpop Hm) as Hmin.
  unfold Node_lt in Hmin. apply bool_decide_eq_false in Hmin.
  assert (Hcur : current ∈ open_set c).
  { rewrite (heappop_perm _ _ _ Hpop). apply elem_of_cons. by left. }
  pose proof (chain_ok_h _ (inv_nodes _ _ _ _ Hinv current Hcur)) as Hhc.
  pose proof (inv_nodes _ _ _ _ Hinv m Hm) as Hokm.
  pose proof (chain_ok_h _ Hokm) as Hhm.
  destruct (chain_ok_path m Hokm) as [Hreach _].
  pose proof (consistent_path _ _ _ _ Hreach Hpm _ _ Hhm Hhc) as Hcons.
  unfold f_cost in Hmin. lia.
Qed.

Lemma inv_pending_mono (P Q : grid → grid → Prop) c :
  (∀ s s', P s s' → Q s s') → inv self n P c → inv self n Q c.
Proof.
  intros HPQ [? ? ? ? Hclosed ? ?]. split; try done.
  intros s k s' Hpath Hin Hmove.
  destruct (Hclosed s k s' Hpath Hin Hmove) as [? | ?]; [left; by apply HPQ | by right].
Qed.

Lemma defaultdict_getitem_Fin (d : gmap (list Z) score) κ' known d' κ g :
  defaultdict_getitem d κ' = (known, d') →
  d' !! κ = Some (Fin g) ↔ d !! κ = Some (Fin g).
Proof.
  unfold defaultdict_getitem. destruct (d !! κ') as [v |] eqn:Hd.
  - by intros [= _ <-].
  - intros [= _ <-]. destruct (decide (κ' = κ)) as [<- | Hne].
    + rewrite lookup_insert_eq, Hd. split; intros; simplify_eq.
    + by rewrite lookup_insert_ne.
Qed.

Lemma defaultdict_getitem_known (d : gmap (list Z) score) κ' known d' g :
  defaultdict_getitem d κ' = (known, d') →
  known = Fin g ↔ d !! κ' = Some (Fin g).
Proof.
  unfold defaultdict_getitem. destruct (d !! κ') as [v |] eqn:Hd.
  - intros [= <- _]. split; intros; simplify_eq; done.
  - intros [= <- _]. split; intros; simplify_eq.
Qed.

(** One iteration of the [for] loop over the successors of [current]. *)
Lemma expand_inv current actions a rest_actions c :
  chain_ok self current →
  (∀ k, path_len init k (state current) → g_cost current ≤ Z.of_nat k) →
  available_actions (state current) = Some actions → a ∈ actions →
  inv self n (pending_via (state current) (a :: rest_actions)) c →
  ∃ c', expand self current a c = Some c' ∧
        inv self n (pending_via (state current) rest_actions) c' ∧
        closed_set c' = closed_set c ∧
        (length (open_set c') ≤ S (length (open_set c)))%nat.
Proof.
  intros Hok Hopt Hacts Ha Hinv.
  destruct (chain_ok_path current Hok) as [Hreach Hdepth].
  pose proof (reach_square _ _ Hreach) as Hsq.
  pose proof (reach_blank _ _ Hreach) as Hblank.
  destruct (available_actions_is_Some n _ Hsq Hblank) as (actions' & Hacts' & _ & Hdo).
  assert (actions' = actions) as -> by congruence.
  destruct (Hdo a Ha) as [s' Hs'].
  assert (Hmove : move (state current) s') by (by exists actions, a).
  pose proof (path_step _ _ _ _ Hreach Hmove) as Hreach'.
  (* the two ways in which nothing is pushed *)
  assert (Hskip :
    (state_to_tuple s' ∈ closed_set c ∨
     ∃ g', g_scores c !! state_to_tuple s' = Some (Fin g') ∧ g' ≤ g_cost current + 1) →
    inv self n (pending_via (state current) rest_actions) c).
  { intros Hcase. destruct Hinv as [? ? ? ? Hclosed ? ?]. split; try done.
    intros s k s'' Hpath Hin Hmv.
    destruct (Hclosed s k s'' Hpath Hin Hmv) as [(-> & a0 & Ha0 & Hdo0) | ?]; [| by right].
    apply elem_of_cons in Ha0 as [-> | Ha0].
    - assert (s'' = s') as -> by congruence. right.
      destruct Hcase as [? | (g' & Hg' & Hle)]; [by left | right].
      exists g'. split; [done |]. specialize (Hopt k Hpath). lia.
    - left. split; [done |]. by exists a0. }
  unfold expand. rewrite Hs'. simpl.
  case_bool_decide as Hclosed'.
  { exists c. split_and!; [done | | done | lia]. apply Hskip. by left. }
  destruct (defaultdict_getitem (g_scores c) (state_to_tuple s')) as [known gs'] eqn:Hget.
  destruct (ge_score (g_cost current + 1) known) eqn:Hge.
  { destruct known as [g' |]; simpl in Hge; [| done].
    apply bool_decide_eq_true in Hge.
    pose proof (proj1 (defaultdict_getitem_known _ _ _ _ g' Hget) eq_refl) as Hg'.
    assert (gs' = g_scores c) as ->.
    { unfold defaultdict_getitem in Hget. rewrite Hg' in Hget. by injection Hget. }
    eexists. split; [done |]. simpl.
    assert (Hc : inv self n (pending_via (state current) rest_actions) c).
    { apply Hskip. right. exists g'. split; [done | lia]. }
    split_and!; [| done | lia].
    destruct Hc. by split. }
  destruct (h_consistent _ _ s' Hreach Hmove) as (v & v' & _ & Hv' & _).
  rewrite Hv'. simpl. eexists. split; [done |]. simpl.
  set (new_node := mkNode s' (Some current) (Some a) (g_cost current + 1) v').
  assert (Hnew_g : ∀ g', g_scores c !! state_to_tuple s' = Some (Fin g') → g_cost current + 1 < g').
  { intros g' Hg'.
    pose proof (proj2 (defaultdict_getitem_known _ _ _ _ g' Hget) Hg') as ->.
    simpl in Hge. apply bool_decide_eq_false in Hge. lia. }
  assert (Hin_push : ∀ m, m ∈ heappush (open_set c) new_node ↔ m = new_node ∨ m ∈ open_set c).
  { intros m. rewrite heappush_perm. apply elem_of_cons. }
  split_and!; [| done |].
  - destruct Hinv as [Hheap Hnodes Hstart Hopen Hclosed Hgoal Huniv].
    split; simpl.
    + by apply heappush_is_heap.
    + intros m [-> | Hm]%Hin_push; [| by apply Hnodes].
      simpl. split; [done |]. split; [| done].
      exists actions, a. done.
    + destruct Hstart as (g0 & Hg0 & Hle).
      destruct (decide (state_to_tuple s' = state_to_tuple init)) as [Heq | Hne].
      * rewrite Heq in *. exists (g_cost current + 1).
        rewrite lookup_insert_eq. split; [done |].
        specialize (Hnew_g g0 Hg0). lia.
      * exists g0. rewrite lookup_insert_ne by done.
        split; [| done]. by apply (defaultdict_getitem_Fin _ _ _ _ _ _ Hget).
    + intros κ g Hκ Hlook.
      destruct (decide (state_to_tuple s' = κ)) as [<- | Hne].
      * rewrite lookup_insert_eq in Hlook. injection Hlook as <-.
        exists new_node. split; [apply Hin_push; by left | done].
      * rewrite lookup_insert_ne in Hlook by done.
        apply (defaultdict_getitem_Fin _ _ _ _ _ _ Hget) in Hlook.
        destruct (Hopen κ g Hκ Hlook) as (m & Hm & Hkey & Hg).
        exists m. split; [apply Hin_push; by right | done].
    + intros s k s'' Hpath Hin Hmv.
      assert (Hfresh : ∀ g', g' ≤ Z.of_nat k + 1 →
                g_scores c !! state_to_tuple s'' = Some (Fin g') →
                ∃ g'', <[state_to_tuple s' := Fin (g_cost current + 1)]> gs'
                         !! state_to_tuple s'' = Some (Fin g'') ∧ g'' ≤ Z.of_nat k + 1).
      { intros g' Hle Hg'.
        destruct (decide (state_to_tuple s' = state_to_tuple s'')) as [Heq | Hne].
        - rewrite <- Heq in *. exists (g_cost current + 1).
          rewrite lookup_insert_eq. split; [done |]. specialize (Hnew_g g' Hg'). lia.
        - exists g'. rewrite lookup_insert_ne by done.
          split; [| done]. by apply (defaultdict_getitem_Fin _ _ _ _ _ _ Hget). }
      destruct (Hclosed s k s'' Hpath Hin Hmv)
        as [(-> & a0 & Ha0 & Hdo0) | [? | (g' & Hg' & Hle)]].
      * apply elem_of_cons in Ha0 as [-> | Ha0].
        -- assert (s'' = s') as -> by congruence. right. right.
           exists (g_cost current + 1). rewrite lookup_insert_eq. split; [done |].
           specialize (Hopt k Hpath). lia.
        -- left. split; [done |]. by exists a0.
      * right. by left.
      * right. right. by apply (Hfresh g').
    + done.
    + done.
  - pose proof (Permutation_length (heappush_perm (open_set c) new_node)) as Hlen.
    simpl in Hlen. lia.
Qed.

(** The whole [for] loop. *)
Lemma for_each_expand_inv current actions :
  chain_ok self current →
  (∀ k, path_len init k (state current) → g_cost current ≤ Z.of_nat k) →
  available_actions (state current) = Some actions →
  ∀ todo c,
    (∀ a, a ∈ todo → a ∈ actions) →
    inv self n (pending_via (state current) todo) c →
    ∃ c', for_each todo (expand self current) c = Some c' ∧
          inv self n (λ _ _, False) c' ∧
          closed_set c' = closed_set c ∧
          (length (open_set c') ≤ length todo + length (open_set c))%nat.
Proof.
  intros Hok Hopt Hacts. induction todo as [| a todo IH]; intros c Hsub Hinv; simpl.
  - exists c. split_and!; [done | | done | lia].
    eapply inv_pending_mono; [| done]. intros s s' (_ & a & Ha%elem_of_nil & _). done.
  - destruct (expand_inv current actions a todo c Hok Hopt Hacts) as (c1 & -> & Hinv1 & Hcl1 & Hlen1);
      [apply Hsub, elem_of_cons; by left | done |]. simpl.
    destruct (IH c1) as (c' & Hfor & Hinv' & Hcl' & Hlen'); [| done |].
    { intros a' Ha'. apply Hsub, elem_of_cons. by right. }
    exists c'. split_and!; [done | done | congruence | lia].
Qed.

Lemma elem_of_heappop open_set' current (c : config) m :
  heappop (open_set c) = Some (current, open_set') →
  m ∈ open_set c ↔ m = current ∨ m ∈ open_set'.
Proof. intros Hpop. rewrite (heappop_perm _ _ _ Hpop). apply elem_of_cons. Qed.

Lemma broadcast_get_cell a i j :
  square n a → (i < n)%nat → (j < n)%nat → cell a i j = Some (broadcast_get a i j).
Proof.
  intros Hsq Hi Hj. unfold broadcast_get, cell.
  rewrite (square_shape1 n a Hsq). destruct Hsq as [Hlen Hall]. unfold shape0. rewrite Hlen.
  replace (if decide (n = 1%nat) then 0%nat else i) with i by (case_decide; lia).
  replace (if decide (n = 1%nat) then 0%nat else j) with j by (case_decide; lia).
  destruct (square_row n a i (conj Hlen Hall) Hi) as (r & Hr & Hlr).
  rewrite Hr. simpl. rewrite (list_lookup_total_correct _ _ _ Hr).
  apply list_lookup_lookup_total. apply lookup_lt_is_Some. lia.
Qed.

Lemma eq_all_square a b :
  square n a → square n b → eq_all a b = Some (bool_decide (a = b)).
Proof.
  intros Ha Hb. unfold eq_all.
  rewrite (square_shape1 n a), (square_shape1 n b) by done.
  unfold shape0. destruct Ha as [Hla Ha], Hb as [Hlb Hb]. rewrite Hla, Hlb.
  rewrite !broadcast_dim_diag. simpl. f_equal.
  case_bool_decide as Heq.
  - subst b. apply forallb_forall. intros i _. apply forallb_forall. intros j _.
    by apply bool_decide_eq_true_2.
  - apply not_true_is_false. intros Hall. apply Heq.
    apply (square_ext n); [done | done |]. intros i j Hi Hj.
    rewrite forallb_forall in Hall.
    specialize (Hall i ltac:(apply in_seq; lia)).
    rewrite forallb_forall in Hall.
    specialize (Hall j ltac:(apply in_seq; lia)).
    apply bool_decide_eq_true in Hall.
    rewrite (broadcast_get_cell a), (broadcast_get_cell b) by done. by rewrite Hall.
Qed.

Hypothesis solvable : ∃ k, path_len init k goal.

(** A loop head where the invariant holds has a node in the frontier, and the
    iteration from there either returns a node of the goal at the cost of a
    shortest path, or goes back to a loop head where the invariant holds and
    the measure is smaller, having popped a node of another state. *)
Lemma step_inv c :
  inv self n (λ _ _, False) c →
  ∃ current open_set',
    open_set c ≠ [] ∧ heappop (open_set c) = Some (current, open_set') ∧
    chain_ok self current ∧
    ((state current = goal ∧
      (∀ k, path_len init k goal → g_cost current ≤ Z.of_nat k) ∧
      step self c = Return (Some (reconstruct_path current),
                            Z.of_nat (length (reconstruct_path current)) - 1,
                            states_evaluated c + 1)
                           (mkConfig open_set' (g_scores c) (closed_set c)
                                     (states_evaluated c + 1)))
     ∨
     (state current ≠ goal ∧
      ∃ c', step self c = Continue c' ∧ inv self n (λ _ _, False) c' ∧
            (measure n init c' < measure n init c)%nat)).
Proof.
  intros Hinv. destruct solvable as [kg Hgoal].
  pose proof (reach_square _ _ Hgoal) as Hgoal_sq.
  (* the frontier is not empty: the goal is reachable and not closed *)
  destruct (frontier_on_path c kg goal Hinv Hgoal (inv_goal _ _ _ _ Hinv))
    as (m0 & _ & Hm0 & _).
  assert (Hne : open_set c ≠ []).
  { intros Hnil. rewrite Hnil in Hm0. by apply elem_of_nil in Hm0. }
  destruct (heappop_is_Some _ Hne) as [[current open_set'] Hpop].
  exists current, open_set'.
  assert (Hcur : current ∈ open_set c).
  { apply (elem_of_heappop _ _ _ _ Hpop). by left. }
  pose proof (inv_nodes _ _ _ _ Hinv current Hcur) as Hok.
  destruct (chain_ok_path current Hok) as [Hreach Hdepth].
  pose proof (reach_square _ _ Hreach) as Hsq.
  pose proof (Permutation_length (heappop_perm _ _ _ Hpop)) as Hlen. simpl in Hlen.
  split_and!; [done | done | done |].
  unfold step. destruct (open_set c) as [| n0 rest0] eqn:Hopen; [done |].
  rewrite Hpop. rewrite <- Hopen in *. clear Hopen n0 rest0.
  case_bool_decide as Hclosed.
  { (* a stale entry *)
    right. split.
    { intros Heq. rewrite Heq in Hclosed. by apply (inv_goal _ _ _ _ Hinv). }
    eexists. split; [done |]. split.
    - destruct Hinv as [Hheap Hnodes Hstart Hopen Hcl Hgoal' Huniv]. split; simpl; try done.
      + by eapply heappop_is_heap.
      + intros m Hm. apply Hnodes. apply (elem_of_heappop _ _ _ _ Hpop). by right.
      + intros κ g Hκ Hlook.
        destruct (Hopen κ g Hκ Hlook) as (m & Hm & Hkey & Hg).
        exists m. split; [| done].
        apply (elem_of_heappop _ _ _ _ Hpop) in Hm as [-> | Hm]; [| done].
        rewrite Hkey in Hclosed. done.
    - unfold measure. simpl. lia. }
  pose proof (λ k, popped_optimal c current open_set' k Hinv Hpop Hclosed) as Hopt.
  rewrite (eq_all_square _ _ Hsq Hgoal_sq).
  case_bool_decide as Hgoal_test.
  { left. split_and!; [done | | done]. intros k Hk. apply Hopt. by rewrite Hgoal_test. }
  right. split; [done |].
  pose proof (reach_blank _ _ Hreach) as Hblank.
  destruct (available_actions_is_Some n _ Hsq Hblank) as (actions & Hacts & Hlen_acts & _).
  rewrite Hacts.
  set (c1 := mkConfig open_set' (g_scores c) ({[state_to_tuple (state current)]} ∪ closed_set c)
                      (states_evaluated c + 1)).
  assert (Hinv1 : inv self n (pending_via (state current) actions) c1).
  { destruct Hinv as [Hheap Hnodes Hstart Hopen Hcl Hgoal' Huniv]. split; simpl.
    - by eapply heappop_is_heap.
    - intros m Hm. apply Hnodes. apply (elem_of_heappop _ _ _ _ Hpop). by right.
    - done.
    - intros κ g Hκ Hlook.
      destruct (Hopen κ g ltac:(set_solver) Hlook) as (m & Hm & Hkey & Hg).
      exists m. split; [| done].
      apply (elem_of_heappop _ _ _ _ Hpop) in Hm as [-> | Hm]; [| done].
      set_solver.
    - intros s k s' Hpath Hin Hmove.
      destruct (decide (state_to_tuple s = state_to_tuple (state current))) as [Heq | Hneq].
      + left. apply (reach_key_inj _ _ _ _ Hpath Hreach) in Heq. subst s.
        split; [done |]. destruct Hmove as (actions' & a & Hacts' & Ha & Hdo).
        exists a. split; [congruence | done].
      + right. destruct (Hcl s k s' Hpath ltac:(set_solver) Hmove) as [[] | [? | ?]].
        * left. set_solver.
        * by right.
    - intros [Heq%elem_of_singleton | ?]%elem_of_union; [| done].
      apply Hgoal_test. symmetry. by apply (reach_key_inj _ _ _ _ Hgoal Hreach).
    - apply union_subseteq. split; [| done].
      apply singleton_subseteq_l. by eapply reach_universe. }
  destruct (for_each_expand_inv current actions Hok Hopt Hacts actions c1)
    as (c' & Hfor & Hinv' & Hcl' & Hlen'); [done | done |].
  fold c1. rewrite Hfor. exists c'. split_and!; [done | done |].
  unfold measure. rewrite Hcl'. simpl in *.
  assert (Hsize : size ({[state_to_tuple (state current)]} ∪ closed_set c)
                  = S (size (closed_set c))).
  { rewrite size_union by set_solver. by rewrite size_singleton. }
  pose proof (subseteq_size _ _ (inv_universe _ _ _ _ Hinv1)) as Hbound.
  simpl in Hbound. rewrite Hsize in *. lia.
Qed.

Lemma popped_heappop c current open_set' :
  open_set c ≠ [] → heappop (open_set c) = Some (current, open_set') →
  popped c = Some current.
Proof.
  intros Hne Hpop. unfold popped. destruct (open_set c); [done |]. by rewrite Hpop.
Qed.

(** From a loop head where the invariant holds the loop reaches, after
    finitely many iterations that pop nodes of other states, an iteration
    that pops a node of the goal and returns it. *)
Lemma loop_finds_goal : ∀ bound c,
  (measure n init c < bound)%nat →
  inv self n (λ _ _, False) c →
  ∃ k c' current open_set',
    iterate k self c = Some c' ∧
    (∀ j cj node, (j < k)%nat → iterate j self c = Some cj →
                  popped cj = Some node → state node ≠ goal) ∧
    popped c' = Some current ∧
    chain_ok self current ∧
    state current = goal ∧
    (∀ k, path_len init k goal → g_cost current ≤ Z.of_nat k) ∧
    step self c' = Return (Some (reconstruct_path current),
                           Z.of_nat (length (reconstruct_path current)) - 1,
                           states_evaluated c' + 1)
                          (mkConfig open_set' (g_scores c') (closed_set c')
                                    (states_evaluated c' + 1)).
Proof.
  induction bound as [| bound IH]; intros c Hlt Hinv; [lia |].
  destruct (step_inv c Hinv) as (current & open_set' & Hne & Hpop & Hok & Hcases).
  pose proof (popped_heappop c current open_set' Hne Hpop) as Hpopped.
  destruct Hcases as [(Hgoal & Hopt & Hstep) | (Hother & c1 & Hstep & Hinv1 & Hdec)].
  - exists 0%nat, c, current, open_set'. split_and!; try done. intros; lia.
  - destruct (IH c1) as (k & c' & cur' & open' & Hiter & Hfirst & Hrest); [lia | done |].
    exists (S k), c', cur', open'. split_and!; try apply Hrest.
    + simpl. by rewrite Hstep.
    + intros [| j] cj node Hj; simpl.
      * intros [= <-] Hp. assert (node = current) as -> by congruence. done.
      * rewrite Hstep. apply Hfirst. lia.
Qed.

Hypothesis h_admissible : admissible h init goal.

Lemma init_config_inv :
  ∃ c0, init_config self = Some c0 ∧ inv self n (λ _ _, False) c0.
Proof.
  destruct solvable as [kg Hgoal].
  destruct (h_admissible init 0%nat kg (path_here _) Hgoal) as (v0 & Hv0 & _).
  unfold init_config. rewrite Hv0. simpl. eexists. split; [done |].
  split; simpl.
  - apply is_heap_singleton.
  - intros m ->%list_elem_of_singleton. simpl. done.
  - exists 0. by rewrite lookup_insert_eq.
  - intros κ g _ Hlook. apply lookup_insert_Some in Hlook as [[<- [= <-]] | [_ Hempty]].
    + eexists. split; [by apply list_elem_of_singleton | done].
    + by rewrite lookup_empty in Hempty.
  - intros s k s' _ Hin. set_solver.
  - set_solver.
  - set_solver.
Qed.

(** The search from [init], when [init] holds a blank. *)
Lemma solve_finds_shortest :
  ∃ k c0 c current d evaluated,
    init_config self = Some c0 ∧
    iterate k self c0 = Some c ∧
    (∀ j cj node, (j < k)%nat → iterate j self c0 = Some cj →
                  popped cj = Some node → state node ≠ goal) ∧
    popped c = Some current ∧
    state current = goal ∧
    g_cost current = Z.of_nat d ∧
    shortest init goal d ∧
    ∀ fuel, (k < fuel)%nat →
      solve fuel self = Returns (Some (reconstruct_path current), Z.of_nat d, evaluated).
Proof.
  destruct init_config_inv as (c0 & Hinit & Hinv0).
  destruct (loop_finds_goal (S (measure n init c0)) c0 ltac:(lia) Hinv0)
    as (k & c & current & open_set' & Hiter & Hfirst & Hpopped & Hok & Hgoal & Hopt & Hstep).
  destruct (chain_ok_path current Hok) as [Hpath Hdepth].
  exists k, c0, c, current, (depth current), (states_evaluated c + 1).
  split_and!; try done.
  - split; [by rewrite <- Hgoal |].
    intros k' Hk'. specialize (Hopt k' Hk'). lia.
  - intros fuel Hfuel. unfold solve, solve_run. rewrite Hinit.
    replace fuel with (k + S (fuel - S k))%nat by lia.
    rewrite (loop_iterate k self c0 c) by done. simpl. rewrite Hstep.
    rewrite length_reconstruct_path. do 3 f_equal. lia.
Qed.

End Optimality.

Lemma path_len_first s k t : path_len s k t → s = t ∨ ∃ u, move s u.
Proof.
  induction 1 as [| k t u Hpath IH Hmove]; [by left |].
  right. destruct IH as [-> | ?]; [by exists u | done].
Qed.

Lemma move_has_blank s u : move s u → 0 ∈ concat s.
Proof.
  intros (actions & a & Hacts & _). rewrite available_actions_unfold in Hacts.
  destruct (where_first s 0) as [[i j] |] eqn:Hw; [| done].
  eapply cell_elem_of_concat. by apply where_first_Some.
Qed.

(** C1. For a state [init] from which the goal can be reached, and a
    heuristic that is admissible and consistent, [solve] returns: some
    iteration pops a node whose state is the goal, no earlier iteration pops
    such a node, the [g_cost] of that node is the length of a shortest
    sequence of moves from [init] to the goal, and the move count returned is
    that length. *)
Theorem solve_optimal `{HeapQ} self n :
  valid_state n (initial_state self) →
  (∃ k, path_len (initial_state self) k (goal_state self)) →
  admissible (heuristic_func self) (initial_state self) (goal_state self) →
  consistent (heuristic_func self) (initial_state self) (goal_state self) →
  ∃ k c0 c current d evaluated,
    init_config self = Some c0 ∧
    iterate k self c0 = Some c ∧
    (∀ j cj node, (j < k)%nat → iterate j self c0 = Some cj →
                  popped cj = Some node → state node ≠ goal_state self) ∧
    popped c = Some current ∧
    state current = goal_state self ∧
    g_cost current = Z.of_nat d ∧
    shortest (initial_state self) (goal_state self) d ∧
    ∀ fuel, (k < fuel)%nat →
      solve fuel self = Returns (Some (reconstruct_path current), Z.of_nat d, evaluated).
Proof.
  intros [Hsq _] Hsolvable Hadm Hcons.
  destruct (decide (initial_state self = goal_state self)) as [Heq | Hne].
  - destruct Hsolvable as [kg Hgoal].
    destruct (Hadm _ 0%nat kg (path_here _) Hgoal) as (v & Hv & _).
    destruct (first_iteration_at_goal self v Heq Hv) as (c0 & Hinit & Hpopped & Hsolve).
    exists 0%nat, c0, c0, (mkNode (initial_state self) None None 0 v), 0%nat, 1.
    split_and!; try done.
    + intros; lia.
    + split; [rewrite <- Heq; apply path_here | intros; lia].
    + intros [| fuel] Hfuel; [lia |]. rewrite Hsolve.
      unfold reconstruct_path. simpl. by rewrite Heq.
  - assert (Hblank : 0 ∈ concat (initial_state self)).
    { destruct Hsolvable as [kg Hgoal].
      destruct (path_len_first _ _ _ Hgoal) as [? | [u Hmove]]; [done |].
      by eapply move_has_blank. }
    by apply (solve_finds_shortest self n).
Qed.

(** ** Heuristics checked on a finite set of states *)

Lemma closed_under_moves_reach states init :
  init ∈ states → closed_under_moves states = true →
  ∀ k s, path_len init k s → s ∈ states.
Proof.
  intros Hinit Hclosed k s Hpath.
  induction Hpath as [| k t u Hpath IH Hmove]; [done |].
  destruct Hmove as (actions & a & Hacts & Ha & Hdo).
  unfold closed_under_moves in Hclosed. rewrite forallb_forall in Hclosed.
  specialize (Hclosed t (proj1 (list_elem_of_In _ _) IH)).
  rewrite Hacts, forallb_forall in Hclosed.
  specialize (Hclosed a (proj1 (list_elem_of_In _ _) Ha)).
  rewrite Hdo in Hclosed. by apply bool_decide_eq_true in Hclosed.
Qed.

Lemma consistent_on_sound h init goal states :
  (∀ k s, path_len init k s → s ∈ states) →
  consistent_on h goal states = true →
  consistent h init goal.
Proof.
  intros Hreach Hcheck s j s' Hs (actions & a & Hacts & Ha & Hdo).
  unfold consistent_on in Hcheck. rewrite forallb_forall in Hcheck.
  specialize (Hcheck s (proj1 (list_elem_of_In _ _) (Hreach _ _ Hs))).
  destruct (h s goal) as [v |]; [| done]. rewrite Hacts, forallb_forall in Hcheck.
  specialize (Hcheck a (proj1 (list_elem_of_In _ _) Ha)).
  rewrite Hdo in Hcheck. destruct (h s' goal) as [v' |]; [| done].
  apply bool_decide_eq_true in Hcheck. by exists v, v'.
Qed.

(** A consistent heuristic that is 0 at the goal is admissible. *)
Lemma consistent_admissible h init goal :
  consistent h init goal → h goal goal = Some 0 → admissible h init goal.
Proof.
  intros Hcons Hzero s j k Hs Hgoal.
  assert (is_Some (h s goal)) as [v Hv].
  { destruct (path_len_first _ _ _ Hgoal) as [-> | [u Hmove]]; [by eexists |].
    destruct (Hcons s j u Hs Hmove) as (v & _ & Hv & _). by eexists. }
  exists v. split; [done |].
  pose proof (consistent_path {| initial_state := init; goal_state := goal;
                                 heuristic_func := h |} Hcons j s k goal Hs Hgoal v 0 Hv Hzero).
  lia.
Qed.

Lemma valid_state_two_moves_2x2 : valid_state 2 (initial_state two_moves_2x2).
Proof.
  split; [split; [reflexivity | repeat constructor] |].
  simpl. unfold range. simpl.
  apply perm_skip, perm_skip, perm_swap.
Qed.

Lemma solvable_two_moves_2x2 :
  ∃ k, path_len (initial_state two_moves_2x2) k (goal_state two_moves_2x2).
Proof.
  exists 2%nat.
  apply (play_path_len [mkAction (0, 0) (0, 1); mkAction (0, 1) (1, 1)]).
  vm_compute. reflexivity.
Qed.

Lemma consistent_two_moves_2x2 :
  consistent manhattan_distance (initial_state two_moves_2x2) (goal_state two_moves_2x2).
Proof.
  apply (consistent_on_sound _ _ _ states_2x2).
  - apply closed_under_moves_reach.
    + simpl. unfold states_2x2. set_solver.
    + vm_compute. reflexivity.
  - vm_compute. reflexivity.
Qed.

Lemma admissible_two_moves_2x2 :
  admissible manhattan_distance (initial_state two_moves_2x2) (goal_state two_moves_2x2).
Proof.
  apply consistent_admissible.
  - exact consistent_two_moves_2x2.
  - vm_compute. reflexivity.
Qed.

Lemma solve_optimal_witness :
  ∃ k c0 c current d evaluated,
    init_config two_moves_2x2 = Some c0 ∧
    iterate k two_moves_2x2 c0 = Some c ∧
    (∀ j cj node, (j < k)%nat → iterate j two_moves_2x2 c0 = Some cj →
                  popped cj = Some node → state node ≠ goal_state two_moves_2x2) ∧
    popped c = Some current ∧
    state current = goal_state two_moves_2x2 ∧
    g_cost current = Z.of_nat d ∧
    shortest (initial_state two_moves_2x2) (goal_state two_moves_2x2) d ∧
    ∀ fuel, (k < fuel)%nat →
      solve fuel two_moves_2x2
        = Returns (Some (reconstruct_path current), Z.of_nat d, evaluated).
Proof.
  apply (solve_optimal two_moves_2x2 2).
  - exact valid_state_two_moves_2x2.
  - exact solvable_two_moves_2x2.
  - exact admissible_two_moves_2x2.
  - exact consistent_two_moves_2x2.
Defined.

(** ** The embedding on the run recorded in the notebook

    The notebook prints the states of its solution for the start
    [[3 7 4] [5 0 6] [8 2 1]]; the first two moves are replayed here. *)

Example available_actions_notebook_start :
  available_actions [[3; 7; 4]; [5; 0; 6]; [8; 2; 1]]
  = Some [mkAction (1, 1) (0, 1); mkAction (1, 1) (2, 1);
          mkAction (1, 1) (1, 0); mkAction (1, 1) (1, 2)].
Proof. reflexivity. Qed.

Example do_action_notebook_move_1 :
  do_action [[3; 7; 4]; [5; 0; 6]; [8; 2; 1]] (mkAction (1, 1) (2, 1))
  = Some [[3; 7; 4]; [5; 2; 6]; [8; 0; 1]].
Proof. reflexivity. Qed.

Example do_action_notebook_move_2 :
  do_action [[3; 7; 4]; [5; 2; 6]; [8; 0; 1]] (mkAction (2, 1) (2, 2))
  = Some [[3; 7; 4]; [5; 2; 6]; [8; 1; 0]].
Proof. reflexivity. Qed.

Example do_action_negative_index :
  do_action [[3; 7; 4]; [5; 0; 6]; [8; 2; 1]] (mkAction (1, 1) (-1, -2))
  = Some [[3; 7; 4]; [5; 2; 6]; [8; 0; 1]].
Proof. reflexivity. Qed.

Example do_action_out_of_bounds :
  do_action [[3; 7; 4]; [5; 0; 6]; [8; 2; 1]] (mkAction (1, 1) (3, 1)) = None.
Proof. reflexivity. Qed.

Example manhattan_distance_notebook_start :
  manhattan_distance [[3; 7; 4]; [5; 0; 6]; [8; 2; 1]] goal_3x3 = Some 16.
Proof. vm_compute. reflexivity. Qed.

Example enhanced_manhattan_notebook_start :
  enhanced_manhattan [[3; 7; 4]; [5; 0; 6]; [8; 2; 1]] goal_3x3 = Some 16.
Proof. vm_compute. reflexivity. Qed.

Example solve_two_moves_2x2 :
  solve 10 two_moves_2x2
  = Returns (Some [([[0; 1]; [3; 2]], None);
                   ([[1; 0]; [3; 2]], Some (mkAction (0, 0) (0, 1)));
                   ([[1; 2]; [3; 0]], Some (mkAction (0, 1) (1, 1)))],
             2, 3).
Proof. vm_compute. reflexivity. Qed.

(** * Further properties of the code *)

(** ** [available_actions] and [do_action] at the edges of their domain *)

Lemma index_of_first v line j :
  index_of v line = Some j → ∀ j', (j' < j)%nat → line !! j' ≠ Some v.
Proof.
  revert j. induction line as [| w rest IH]; intros j; simpl; [done |].
  case_bool_decide as Hw.
  - intros [= <-] j' Hj'. lia.
  - destruct (index_of v rest) as [j0 |]; simpl; [| done].
    intros [= <-] [| j'] Hj'; simpl; [congruence |]. apply (IH j0 eq_refl). lia.
Qed.

Lemma index_of_None v line : index_of v line = None → v ∉ line.
Proof.
  intros Hnone Hin. destruct (index_of_is_Some v line Hin) as [j Hj]. congruence.
Qed.

Lemma where_first_first a v p :
  where_first a v = Some p →
  ∀ i j, cell a i j = Some v → row_major_le p (i, j).
Proof.
  revert p. induction a as [| r rest IH]; intros p; simpl; [done |].
  destruct (index_of v r) as [j0 |] eqn:Hidx.
  - intros [= <-] [| i] j Hc; unfold row_major_le; simpl; [| left; lia].
    right. split; [done |]. unfold cell in Hc. simpl in Hc.
    destruct (decide (j0 ≤ j)%nat); [done |].
    exfalso. by apply (index_of_first v r j0 Hidx j ltac:(lia)).
  - destruct (where_first rest v) as [[i0 j0] |] eqn:Hw; simpl; [| done].
    intros [= <-] [| i] j Hc; unfold row_major_le; simpl.
    + unfold cell in Hc. simpl in Hc. exfalso.
      apply (index_of_None v r Hidx). by eapply list_elem_of_lookup_2.
    + specialize (IH _ eq_refl i j Hc). unfold row_major_le in IH. simpl in IH. lia.
Qed.

(** X1. [available_actions] raises exactly when no cell of the array holds 0.
    When it returns, the blank it has used is the first cell holding 0 in
    row-major order (it matters only on arrays with several zeros), and every
    action starts from that cell. *)
Theorem available_actions_first_blank (s : grid) :
  (available_actions s = None ↔ 0 ∉ concat s) ∧
  ∀ actions, available_actions s = Some actions →
    ∃ i j, cell s i j = Some 0 ∧
           (∀ i' j', cell s i' j' = Some 0 → row_major_le (i, j) (i', j')) ∧
           ∀ a, a ∈ actions → pos1 a = (Z.of_nat i, Z.of_nat j).
Proof.
  split.
  - rewrite available_actions_unfold. split.
    + intros Hnone Hin. destruct (where_first_is_Some s 0 Hin) as [p Hp].
      by rewrite Hp in Hnone.
    + intros Hnot. destruct (where_first s 0) as [[i j] |] eqn:Hw; [| done].
      exfalso. apply Hnot. eapply cell_elem_of_concat. by apply where_first_Some.
  - intros actions. rewrite available_actions_unfold.
    destruct (where_first s 0) as [[i j] |] eqn:Hw; simpl; [| done].
    intros [= <-]. exists i, j. split_and!.
    + by apply where_first_Some.
    + by apply where_first_first.
    + intros a Ha. by apply elem_of_actions_at in Ha as [? _].
Qed.

Lemma norm_index_is_Some len i :
  is_Some (norm_index len i) ↔ - Z.of_nat len ≤ i < Z.of_nat len.
Proof.
  unfold norm_index. repeat case_bool_decide; split; intros Hyp;
    try lia; try (by eexists); by destruct Hyp.
Qed.

Lemma norm_index_mod len i :
  - Z.of_nat len ≤ i < Z.of_nat len →
  norm_index len i = norm_index len (i `mod` Z.of_nat len).
Proof.
  intros Hi. unfold norm_index.
  destruct (decide (0 ≤ i)) as [Hpos | Hneg].
  - rewrite Z.mod_small by lia. done.
  - assert (i `mod` Z.of_nat len = i + Z.of_nat len) as ->.
    { symmetry. apply (Z.mod_unique _ _ (-1)); lia. }
    rewrite (bool_decide_eq_false_2 (0 ≤ i < _)) by lia.
    rewrite (bool_decide_eq_true_2 (- _ ≤ i < 0)) by lia.
    rewrite (bool_decide_eq_true_2 (0 ≤ i + _ < _)) by lia. done.
Qed.

Lemma getitem_is_Some n a p : square n a → is_Some (getitem a p) ↔ index_ok n p.
Proof.
  intros Hsq. unfold getitem, index_ok. destruct Hsq as [Hlen Hall]. rewrite Hlen.
  split.
  - intros [v Hv].
    destruct (norm_index n p.1) as [x |] eqn:Hx; simpl in Hv; [| done].
    destruct (a !! x) as [r |] eqn:Hr; simpl in Hv; [| done].
    rewrite (square_lookup n a x r (conj Hlen Hall) Hr) in Hv.
    destruct (norm_index n p.2) as [y |] eqn:Hy; simpl in Hv; [| done].
    split; apply norm_index_is_Some; by eexists.
  - intros [[x Hx]%norm_index_is_Some [y Hy]%norm_index_is_Some]. rewrite Hx. simpl.
    assert (x < n)%nat as Hxn.
    { unfold norm_index in Hx. repeat case_bool_decide; simplify_eq; lia. }
    assert (y < n)%nat as Hyn.
    { unfold norm_index in Hy. repeat case_bool_decide; simplify_eq; lia. }
    destruct (square_row n a x (conj Hlen Hall) Hxn) as (r & -> & Hr). simpl.
    rewrite Hr, Hy. simpl. apply lookup_lt_is_Some. lia.
Qed.

Lemma getitem_wrap n a p : square n a → index_ok n p → getitem a p = getitem a (wrap n p).
Proof.
  intros Hsq [Hp1 Hp2]. unfold getitem, wrap. simpl.
  destruct Hsq as [Hlen Hall]. rewrite Hlen.
  rewrite <- (norm_index_mod n p.1) by done.
  destruct (norm_index n p.1) as [x |]; simpl; [| done].
  destruct (a !! x) as [r |] eqn:Hr; simpl; [| done].
  rewrite (square_lookup n a x r (conj Hlen Hall) Hr).
  by rewrite <- (norm_index_mod n p.2).
Qed.

Lemma setitem_wrap n a p v : square n a → index_ok n p → setitem a p v = setitem a (wrap n p) v.
Proof.
  intros Hsq [Hp1 Hp2]. unfold setitem, wrap. simpl.
  destruct Hsq as [Hlen Hall]. rewrite Hlen.
  rewrite <- (norm_index_mod n p.1) by done.
  destruct (norm_index n p.1) as [x |]; simpl; [| done].
  destruct (a !! x) as [r |] eqn:Hr; simpl; [| done].
  rewrite (square_lookup n a x r (conj Hlen Hall) Hr).
  by rewrite <- (norm_index_mod n p.2).
Qed.

Lemma wrap_in_bounds n p : index_ok n p → in_bounds n (wrap n p).
Proof.
  intros [Hp1 Hp2]. unfold in_bounds, wrap. simpl.
  split; apply Z.mod_pos_bound; lia.
Qed.

Lemma setitem_square n a p v a' : square n a → setitem a p v = Some a' → square n a'.
Proof.
  intros Hsq. unfold setitem.
  destruct (norm_index (length a) p.1) as [x |]; simpl; [| done].
  destruct (a !! x) as [r |] eqn:Hr; simpl; [| done].
  destruct (norm_index (length r) p.2) as [y |]; simpl; [| done].
  intros [= <-]. destruct Hsq as [Hlen Hall]. split.
  - by rewrite length_insert.
  - apply Forall_insert; [done |]. simpl. rewrite length_insert.
    by eapply (square_lookup n a x r).
Qed.

(** X2. On an [n] by [n] array [do_action] returns exactly when the four
    coordinates of the action lie in [-n, n), the index range of NumPy;
    otherwise it raises. *)
Theorem do_action_raises_out_of_range n s p q :
  square n s →
  (is_Some (do_action s (mkAction p q)) ↔ index_ok n p ∧ index_ok n q).
Proof.
  intros Hsq. unfold do_action. simpl. split.
  - intros [s' Hs'].
    destruct (getitem s q) as [t1 |] eqn:Hq; simpl in Hs'; [| done].
    destruct (getitem s p) as [t2 |] eqn:Hp; simpl in Hs'; [| done].
    split; apply (getitem_is_Some n s); [done | by eexists | done | by eexists].
  - intros [Hp Hq].
    destruct (proj2 (getitem_is_Some n s q Hsq) Hq) as [t1 ->].
    destruct (proj2 (getitem_is_Some n s p Hsq) Hp) as [t2 ->]. simpl.
    rewrite (setitem_wrap n) by done.
    rewrite (setitem_cell n) by (done || by apply wrap_in_bounds). simpl.
    rewrite (setitem_wrap n) by (done || by apply set_cell_square).
    rewrite (setitem_cell n) by (by apply set_cell_square || by apply wrap_in_bounds).
    by eexists.
Qed.

Lemma do_action_raises_out_of_range_witness :
  square 3 [[3; 7; 4]; [5; 0; 6]; [8; 2; 1]] ∧
  (is_Some (do_action [[3; 7; 4]; [5; 0; 6]; [8; 2; 1]] (mkAction (1, 1) (-3, 2)))
   ↔ index_ok 3 (1, 1) ∧ index_ok 3 (-3, 2)).
Proof.
  assert (Hsq : square 3 [[3; 7; 4]; [5; 0; 6]; [8; 2; 1]])
    by (split; [reflexivity | repeat constructor]).
  split; [exact Hsq |].
  apply (do_action_raises_out_of_range 3 _ (1, 1) (-3, 2) Hsq).
Defined.

Lemma do_action_wrap n s p q :
  square n s → index_ok n p → index_ok n q →
  do_action s (mkAction p q) = do_action s (mkAction (wrap n p) (wrap n q)).
Proof.
  intros Hsq Hp Hq. unfold do_action. simpl.
  rewrite <- !(getitem_wrap n) by done.
  destruct (getitem s q) as [t1 |]; simpl; [| done].
  destruct (getitem s p) as [t2 |]; simpl; [| done].
  rewrite <- (setitem_wrap n s p) by done.
  destruct (setitem s p t1) as [s1 |] eqn:Hs1; simpl; [| done].
  apply (setitem_wrap n); [by eapply setitem_square | done].
Qed.

Lemma do_action_Some_index_ok n s p q s' :
  square n s → do_action s (mkAction p q) = Some s' → index_ok n p ∧ index_ok n q.
Proof.
  intros Hsq Hs'. unfold do_action in Hs'. simpl in Hs'.
  destruct (getitem s q) as [t1 |] eqn:Hq; simpl in Hs'; [| done].
  destruct (getitem s p) as [t2 |] eqn:Hp; simpl in Hs'; [| done].
  split; apply (getitem_is_Some n s); [done | by eexists | done | by eexists].
Qed.

(** The array returned by [do_action], whenever it returns. *)
Lemma do_action_Some_swapped n s p q s' :
  square n s → do_action s (mkAction p q) = Some s' →
  index_ok n p ∧ index_ok n q ∧ s' = swapped s (wrap n p) (wrap n q).
Proof.
  intros Hsq Hs'.
  destruct (do_action_Some_index_ok n s p q s' Hsq Hs') as [Hp Hq].
  split_and!; [done | done |].
  rewrite (do_action_wrap n) in Hs' by done.
  rewrite (do_action_swapped n) in Hs' by (done || by apply wrap_in_bounds).
  by injection Hs'.
Qed.

(** X3. A negative coordinate counts from the end of its axis: an action
    given with coordinates in [-n, n) has the effect of the action on the
    same cells written with coordinates in [0, n). *)
Theorem do_action_negative_indices n s p q :
  square n s → index_ok n p → index_ok n q →
  do_action s (mkAction p q) = do_action s (mkAction (wrap n p) (wrap n q)) ∧
  in_bounds n (wrap n p) ∧ in_bounds n (wrap n q).
Proof.
  intros Hsq Hp Hq. split; [| split; by apply wrap_in_bounds].
  by apply do_action_wrap.
Qed.

Lemma do_action_negative_indices_witness :
  square 3 [[3; 7; 4]; [5; 0; 6]; [8; 2; 1]] ∧ index_ok 3 (-2, 1) ∧ index_ok 3 (-1, -2) ∧
  do_action [[3; 7; 4]; [5; 0; 6]; [8; 2; 1]] (mkAction (-2, 1) (-1, -2))
    = do_action [[3; 7; 4]; [5; 0; 6]; [8; 2; 1]] (mkAction (wrap 3 (-2, 1)) (wrap 3 (-1, -2))) ∧
  in_bounds 3 (wrap 3 (-2, 1)) ∧ in_bounds 3 (wrap 3 (-1, -2)).
Proof.
  assert (Hsq : square 3 [[3; 7; 4]; [5; 0; 6]; [8; 2; 1]])
    by (split; [reflexivity | repeat constructor]).
  assert (Hp : index_ok 3 (-2, 1)) by (unfold index_ok; simpl; lia).
  assert (Hq : index_ok 3 (-1, -2)) by (unfold index_ok; simpl; lia).
  split_and!; [exact Hsq | exact Hp | exact Hq | | |];
    apply (do_action_negative_indices 3 _ (-2, 1) (-1, -2) Hsq Hp Hq).
Defined.

(** ** The tiles of a board *)

(** The row-major position of a cell in the flattened array. *)
Lemma concat_lookup_cell n : ∀ (a : grid) i j,
  Forall (λ r, length r = n) a → (j < n)%nat →
  concat a !! (i * n + j)%nat = cell a i j.
Proof.
  induction a as [| r rest IH]; intros i j Hall Hj; simpl.
  - unfold cell. by rewrite !lookup_nil.
  - inversion Hall as [| ? ? Hr Hrest]; subst. destruct i as [| i]; simpl.
    + rewrite lookup_app_l by lia. done.
    + rewrite lookup_app_r by lia.
      replace (length r + i * length r + j - length r)%nat with (i * length r + j)%nat by lia.
      by apply IH.
Qed.

(** A state holds each tile in one cell only. *)
Lemma valid_state_cell_unique n s v i j i' j' :
  valid_state n s → cell s i j = Some v → cell s i' j' = Some v → i = i' ∧ j = j'.
Proof.
  intros [Hsq Hperm] Hc Hc'.
  destruct (cell_Some_bounds n s i j v Hsq Hc) as [Hi Hj].
  destruct (cell_Some_bounds n s i' j' v Hsq Hc') as [Hi' Hj'].
  assert (Hnodup : NoDup (concat s)).
  { rewrite Hperm. unfold range. apply NoDup_fmap; [apply _ | apply NoDup_seq]. }
  destruct Hsq as [_ Hall].
  rewrite <- (concat_lookup_cell n s i j Hall Hj) in Hc.
  rewrite <- (concat_lookup_cell n s i' j' Hall Hj') in Hc'.
  pose proof (NoDup_lookup _ _ _ _ Hnodup Hc Hc') as Heq.
  destruct (Nat.lt_trichotomy i i') as [Hlt | [-> | Hlt]].
  - pose proof (Nat.mul_le_mono_r (S i) i' n ltac:(lia)). lia.
  - lia.
  - pose proof (Nat.mul_le_mono_r (S i') i n ltac:(lia)). lia.
Qed.

(** Writing a cell replaces one occurrence of the value it held. *)
Lemma set_cell_Permutation (a : grid) i j w :
  cell a i j = Some w →
  ∃ others, concat a ≡ₚ w :: others ∧ ∀ v, concat (set_cell a i j v) ≡ₚ v :: others.
Proof.
  unfold cell, set_cell. intros Hc.
  destruct (a !! i) as [r |] eqn:Hr; simpl in Hc; [| done].
  exists (concat (take i a) ++ delete j r ++ concat (drop (S i) a)). split.
  - rewrite <- (take_drop_middle a i r Hr) at 1.
    rewrite concat_app. simpl.
    rewrite (delete_Permutation r j w Hc) at 1. simpl.
    by rewrite <- Permutation_middle.
  - intros v. rewrite (list_lookup_total_correct _ _ _ Hr).
    rewrite insert_take_drop by (by eapply lookup_lt_Some).
    rewrite concat_app. simpl.
    rewrite (insert_take_drop r) by (by eapply lookup_lt_Some).
    rewrite delete_take_drop. rewrite <- !app_assoc. simpl.
    by rewrite <- !Permutation_middle.
Qed.

Lemma swapped_Permutation n a p q :
  square n a → in_bounds n p → in_bounds n q → concat (swapped a p q) ≡ₚ concat a.
Proof.
  intros Hsq Hp Hq.
  destruct (in_bounds_to_nat n p Hp) as [Hp1 Hp2].
  destruct (in_bounds_to_nat n q Hq) as [Hq1 Hq2].
  destruct (cell_is_Some n a _ _ Hsq Hp1 Hp2) as [x Hx].
  destruct (cell_is_Some n a _ _ Hsq Hq1 Hq2) as [y Hy].
  unfold swapped. rewrite Hx, Hy. simpl.
  destruct (set_cell_Permutation a _ _ x Hx) as (R1 & Ha & Hset1).
  set (a1 := set_cell a (Z.to_nat p.1) (Z.to_nat p.2) y).
  assert (Hy1 : cell a1 (Z.to_nat q.1) (Z.to_nat q.2) = Some y).
  { unfold a1. rewrite (cell_set_cell n) by done. case_decide as Hpq; [done | done]. }
  destruct (set_cell_Permutation a1 _ _ y Hy1) as (R2 & Ha1 & Hset2).
  rewrite Hset2, Ha.
  assert (R1 ≡ₚ R2) as ->; [| done].
  apply (Permutation_cons_inv (a := y)). rewrite <- Ha1. unfold a1. by rewrite Hset1.
Qed.

Lemma swapped_comm n a p q :
  square n a → in_bounds n p → in_bounds n q → swapped a q p = swapped a p q.
Proof.
  intros Hsq Hp Hq. apply (square_ext n); [by apply swapped_square | by apply swapped_square |].
  intros i j Hi Hj. rewrite !(cell_swapped n) by done.
  repeat case_decide; try done; destruct_and?; congruence.
Qed.

(** X4. Whenever [do_action] returns on an [n] by [n] array, the result is
    an [n] by [n] array holding the same values with the same multiplicities;
    in particular it is a puzzle state when the argument is one. *)
Theorem do_action_keeps_tiles n s a s' :
  square n s → do_action s a = Some s' →
  square n s' ∧ concat s' ≡ₚ concat s ∧ (valid_state n s → valid_state n s').
Proof.
  intros Hsq Hdo. destruct a as [p q].
  destruct (do_action_Some_swapped n s p q s' Hsq Hdo) as (Hp & Hq & ->).
  assert (Hperm : concat (swapped s (wrap n p) (wrap n q)) ≡ₚ concat s)
    by (apply (swapped_Permutation n); [done | by apply wrap_in_bounds | by apply wrap_in_bounds]).
  split_and!; [by apply swapped_square | done |].
  intros [_ Hvalid]. split; [by apply swapped_square |]. by rewrite Hperm.
Qed.

Lemma do_action_keeps_tiles_witness :
  square 3 [[3; 7; 4]; [5; 0; 6]; [8; 2; 1]] ∧
  do_action [[3; 7; 4]; [5; 0; 6]; [8; 2; 1]] (mkAction (0, 0) (-1, 1))
    = Some [[2; 7; 4]; [5; 0; 6]; [8; 3; 1]] ∧
  square 3 [[2; 7; 4]; [5; 0; 6]; [8; 3; 1]] ∧
  concat [[2; 7; 4]; [5; 0; 6]; [8; 3; 1]] ≡ₚ concat [[3; 7; 4]; [5; 0; 6]; [8; 2; 1]] ∧
  (valid_state 3 [[3; 7; 4]; [5; 0; 6]; [8; 2; 1]] →
   valid_state 3 [[2; 7; 4]; [5; 0; 6]; [8; 3; 1]]).
Proof.
  assert (Hsq : square 3 [[3; 7; 4]; [5; 0; 6]; [8; 2; 1]])
    by (split; [reflexivity | repeat constructor]).
  assert (Hdo : do_action [[3; 7; 4]; [5; 0; 6]; [8; 2; 1]] (mkAction (0, 0) (-1, 1))
                = Some [[2; 7; 4]; [5; 0; 6]; [8; 3; 1]]) by reflexivity.
  split; [exact Hsq |]. split; [exact Hdo |].
  apply (do_action_keeps_tiles 3 _ _ _ Hsq Hdo).
Defined.

(** ** Moves can be taken back *)

Lemma available_actions_valid n s actions :
  valid_state n s → available_actions s = Some actions →
  ∃ b, in_bounds n b ∧ getitem s b = Some 0 ∧ actions = actions_at (Z.of_nat n) b.1 b.2 ∧
       ∀ c, in_bounds n c → getitem s c = Some 0 → c = b.
Proof.
  intros Hvalid Hacts.
  destruct (available_actions_blank n s actions (proj1 Hvalid) Hacts) as (b & Hb & Hzero & ->).
  exists b. split_and!; try done.
  intros c Hc Hzero'. rewrite (getitem_cell n) in Hzero, Hzero' by (done || apply Hvalid).
  destruct (valid_state_cell_unique n s 0 _ _ _ _ Hvalid Hzero' Hzero) as [H1 H2].
  by apply (in_bounds_to_nat_inj n).
Qed.

Lemma move_back n s actions a s' :
  valid_state n s → available_actions s = Some actions → a ∈ actions →
  do_action s a = Some s' →
  valid_state n s' ∧
  ∃ actions', available_actions s' = Some actions' ∧
              mkAction (pos2 a) (pos1 a) ∈ actions' ∧
              do_action s' (mkAction (pos2 a) (pos1 a)) = Some s.
Proof.
  intros Hvalid Hacts Ha Hdo. pose proof (proj1 Hvalid) as Hsq.
  destruct (available_actions_in_bounds n s actions a Hsq Hacts Ha) as (Hp & Hzero & Hq & Hnb).
  destruct (available_actions_valid n s actions Hvalid Hacts) as ([x y] & Hb & _ & -> & _).
  destruct a as [p q]. simpl in *.
  apply elem_of_actions_at in Ha as [Hp1 Hcases]. simpl in *. subst p.
  rewrite (do_action_swapped n) in Hdo by done. injection Hdo as <-.
  pose proof (swapped_square n s (x, y) q Hsq) as Hsq'.
  assert (Hvalid' : valid_state n (swapped s (x, y) q)).
  { split; [done |]. rewrite (swapped_Permutation n) by done. apply Hvalid. }
  split; [done |].
  assert (Hzero' : getitem (swapped s (x, y) q) q = Some 0).
  { rewrite (getitem_cell n) in Hzero |- * by done.
    destruct (in_bounds_to_nat n q Hq) as [Hq1 Hq2].
    rewrite (cell_swapped n) by done. by rewrite decide_True. }
  destruct (available_actions_is_Some n _ Hsq') as (actions' & Hacts' & _ & _).
  { rewrite (getitem_cell n) in Hzero' by done. by eapply cell_elem_of_concat. }
  destruct (available_actions_valid n _ actions' Hvalid' Hacts') as (b' & Hb' & _ & -> & Huniq).
  pose proof (Huniq q Hq Hzero') as Heq. subst b'.
  exists (actions_at (Z.of_nat n) q.1 q.2).
  split_and!; [done | |].
  - apply elem_of_actions_at. simpl. destruct q as [q1 q2]. simpl in *.
    destruct Hb as [Hx Hy], Hq as [Hq1 Hq2]. simpl in *. split; [done |].
    destruct_or!; destruct_and!; simplify_eq.
    + right; left. split; [f_equal; lia | lia].
    + left. split; [f_equal; lia | lia].
    + right; right; right. split; [f_equal; lia | lia].
    + right; right; left. split; [f_equal; lia | lia].
  - rewrite (do_action_swapped n) by done. f_equal.
    rewrite (swapped_comm n) by done. by apply (swapped_involutive n).
Qed.

(** X5. On a puzzle state every move can be taken back: after an action
    offered by [available_actions], the action with the two positions
    exchanged is offered in the new state and leads back to the old one. *)
Theorem moves_are_reversible n s actions a s' :
  valid_state n s → available_actions s = Some actions → a ∈ actions →
  do_action s a = Some s' →
  ∃ actions', available_actions s' = Some actions' ∧
              mkAction (pos2 a) (pos1 a) ∈ actions' ∧
              do_action s' (mkAction (pos2 a) (pos1 a)) = Some s.
Proof.
  intros Hvalid Hacts Ha Hdo.
  by destruct (move_back n s actions a s' Hvalid Hacts Ha Hdo) as [_ ?].
Qed.

Lemma moves_are_reversible_witness :
  valid_state 3 [[3; 7; 4]; [5; 0; 6]; [8; 2; 1]] ∧
  ∃ actions',
    available_actions [[3; 7; 4]; [5; 2; 6]; [8; 0; 1]] = Some actions' ∧
    mkAction (2, 1) (1, 1) ∈ actions' ∧
    do_action [[3; 7; 4]; [5; 2; 6]; [8; 0; 1]] (mkAction (2, 1) (1, 1))
      = Some [[3; 7; 4]; [5; 0; 6]; [8; 2; 1]].
Proof.
  split; [exact valid_state_start_3x3 |].
  apply (moves_are_reversible 3 [[3; 7; 4]; [5; 0; 6]; [8; 2; 1]]
           [mkAction (1, 1) (0, 1); mkAction (1, 1) (2, 1);
            mkAction (1, 1) (1, 0); mkAction (1, 1) (1, 2)]
           (mkAction (1, 1) (2, 1))).
  - exact valid_state_start_3x3.
  - reflexivity.
  - apply elem_of_cons; right. apply elem_of_cons; left. reflexivity.
  - reflexivity.
Defined.

Lemma move_valid n s s' : valid_state n s → move s s' → valid_state n s' ∧ move s' s.
Proof.
  intros Hvalid (actions & a & Hacts & Ha & Hdo).
  destruct (move_back n s actions a s' Hvalid Hacts Ha Hdo) as (Hvalid' & actions' & ? & ? & ?).
  split; [done |]. by exists actions', (mkAction (pos2 a) (pos1 a)).
Qed.

Lemma path_valid n s k t : valid_state n s → path_len s k t → valid_state n t.
Proof.
  intros Hvalid Hpath. induction Hpath as [| k t u Hpath IH Hmove]; [done |].
  by destruct (move_valid n t u IH Hmove).
Qed.

Lemma path_back n s k t : valid_state n s → path_len s k t → path_len t k s.
Proof.
  intros Hvalid Hpath. induction Hpath as [| k t u Hpath IH Hmove]; [apply path_here |].
  destruct (move_valid n t u (path_valid n s k t Hvalid Hpath) Hmove) as [_ Hback].
  by eapply path_len_cons.
Qed.

(** ** Keys of states *)

Lemma rows_of_concat n : ∀ (a : grid),
  Forall (λ r, length r = n) a → rows_of (length a) n (concat a) = a.
Proof.
  induction a as [| r rest IH]; intros Hall; simpl; [done |].
  inversion Hall as [| ? ? Hr Hrest]; subst.
  rewrite take_app_length, drop_app_length. by rewrite IH.
Qed.

(** X6. Flattening an [n] by [n] array and reshaping the result gives the
    array back, so two [n] by [n] states have the same key exactly when they
    are equal: the closed set and the cost table of [solve] never confuse two
    states of the board. *)
Theorem state_to_tuple_reshape n a b :
  square n a → square n b →
  reshape (state_to_tuple a) (Z.of_nat n) = Some a ∧
  (state_to_tuple a = state_to_tuple b ↔ a = b).
Proof.
  intros Ha Hb.
  assert (Hround : ∀ c, square n c → reshape (state_to_tuple c) (Z.of_nat n) = Some c).
  { intros c Hc. unfold reshape, state_to_tuple.
    rewrite (length_concat_square n c Hc). destruct Hc as [Hlen Hall].
    rewrite bool_decide_eq_true_2 by (rewrite Hlen; lia).
    rewrite Nat2Z.id. rewrite <- Hlen at 1. by rewrite rows_of_concat. }
  split; [by apply Hround |]. split; [| by intros ->].
  intros Heq. pose proof (Hround a Ha) as Hra. rewrite Heq, (Hround b Hb) in Hra.
  by injection Hra.
Qed.

Lemma state_to_tuple_reshape_witness :
  square 3 [[3; 7; 4]; [5; 0; 6]; [8; 2; 1]] ∧ square 3 goal_3x3 ∧
  reshape (state_to_tuple [[3; 7; 4]; [5; 0; 6]; [8; 2; 1]]) (Z.of_nat 3)
    = Some [[3; 7; 4]; [5; 0; 6]; [8; 2; 1]] ∧
  (state_to_tuple [[3; 7; 4]; [5; 0; 6]; [8; 2; 1]] = state_to_tuple goal_3x3
   ↔ [[3; 7; 4]; [5; 0; 6]; [8; 2; 1]] = goal_3x3).
Proof.
  assert (Ha : square 3 [[3; 7; 4]; [5; 0; 6]; [8; 2; 1]])
    by (split; [reflexivity | repeat constructor]).
  assert (Hb : square 3 goal_3x3) by (split; [reflexivity | repeat constructor]).
  split; [exact Ha |]. split; [exact Hb |].
  apply (state_to_tuple_reshape 3 _ _ Ha Hb).
Defined.

(** ** [manhattan_distance] *)

Lemma for_each_app {A S} (body : A → S → option S) l1 l2 s :
  for_each (l1 ++ l2) body s = for_each l1 body s ≫= for_each l2 body.
Proof.
  revert s. induction l1 as [| a l1 IH]; intros s; simpl; [done |].
  destruct (body a s) as [s' |]; simpl; [apply IH | done].
Qed.

Lemma range_S n : range (S n) = range n ++ [Z.of_nat n].
Proof. unfold range. rewrite seq_S, fmap_app. done. Qed.

Lemma for_each_range_sum (body : Z → Z → option Z) (f : nat → Z) n :
  (∀ k c, (k < n)%nat → body (Z.of_nat k) c = Some (c + f k)) →
  ∀ c, for_each (range n) body c = Some (c + sumZ f n).
Proof.
  induction n as [| n IH]; intros Hbody c.
  - simpl. f_equal. lia.
  - rewrite range_S, for_each_app. rewrite IH by (intros; apply Hbody; lia). simpl.
    rewrite Hbody by lia. simpl. f_equal. lia.
Qed.

Lemma for_each_None {A S} (body : A → S → option S) l a :
  a ∈ l → (∀ s, body a s = None) → ∀ s, for_each l body s = None.
Proof.
  induction l as [| b l IH]; intros Hin Hfail s; simpl.
  - by apply elem_of_nil in Hin.
  - destruct (body b s) as [s' |] eqn:Hb; simpl; [| done].
    apply elem_of_cons in Hin as [-> | Hin]; [by rewrite Hfail in Hb | by apply IH].
Qed.

Lemma getitem_cell_nat n s i j :
  square n s → (i < n)%nat → (j < n)%nat →
  getitem s (Z.of_nat i, Z.of_nat j) = cell s i j.
Proof.
  intros Hsq Hi Hj. rewrite (getitem_cell n) by (done || unfold in_bounds; simpl; lia).
  simpl. by rewrite !Nat2Z.id.
Qed.

Lemma manhattan_distance_sum n s g :
  square n s → (∀ v, v ∈ concat s → v ≠ 0 → v ∈ concat g) →
  manhattan_distance s g = Some (total_distance n s g).
Proof.
  intros Hsq Htiles. unfold manhattan_distance, total_distance, shape0.
  destruct Hsq as [Hlen Hall]. rewrite Hlen.
  rewrite (for_each_range_sum _
             (λ i, sumZ (λ j, tile_distance g (cell_value s i j) i j) n)); [done |].
  intros i c Hi.
  apply (for_each_range_sum _ (λ j, tile_distance g (cell_value s i j) i j)).
  intros j c' Hj.
  rewrite (getitem_cell_nat n) by done.
  destruct (cell_is_Some n s i j (conj Hlen Hall) Hi Hj) as [v Hv].
  unfold tile_distance, cell_value. rewrite Hv. simpl.
  case_bool_decide as Hnz.
  - rewrite bool_decide_eq_false_2 by done.
    destruct (where_first_is_Some g v) as [gp ->]; [| done].
    apply Htiles; [by eapply cell_elem_of_concat | done].
  - subst v. simpl. f_equal. lia.
Qed.

(** X7. On an [n] by [n] array [manhattan_distance] raises exactly when some
    tile of the state (a value other than 0) does not occur in the goal. *)
Theorem manhattan_distance_raises n s g :
  square n s →
  (manhattan_distance s g = None ↔ ∃ v, v ∈ concat s ∧ v ≠ 0 ∧ v ∉ concat g).
Proof.
  intros Hsq. split.
  - intros Hnone.
    destruct (decide (Forall (λ v, v = 0 ∨ v ∈ concat g) (concat s))) as [Hall | Hnot].
    + rewrite (manhattan_distance_sum n) in Hnone; [done | done |].
      intros v Hv Hnz. rewrite Forall_forall in Hall.
      destruct (Hall v Hv); done.
    + apply not_Forall_Exists in Hnot; [| apply _].
      apply Exists_exists in Hnot as (v & Hv & Hbad). exists v.
      split_and!; [done | |]; intros ?; apply Hbad; [by left | by right].
  - intros (v & Hv & Hnz & Hmissing).
    apply elem_of_concat_cell in Hv as (i & j & Hc).
    destruct (cell_Some_bounds n s i j v Hsq Hc) as [Hi Hj].
    unfold manhattan_distance, shape0. destruct Hsq as [Hlen Hall]. rewrite Hlen.
    apply (for_each_None _ _ (Z.of_nat i)); [apply elem_of_range; lia |].
    intros total.
    apply (for_each_None _ _ (Z.of_nat j)); [apply elem_of_range; lia |].
    intros total'. rewrite (getitem_cell_nat n) by done. rewrite Hc. simpl.
    rewrite bool_decide_eq_true_2 by done.
    destruct (where_first g v) as [gp |] eqn:Hw; [| done].
    exfalso. apply Hmissing. destruct gp as [gi gj].
    eapply cell_elem_of_concat. by apply where_first_Some.
Qed.

Lemma manhattan_distance_raises_witness :
  square 2 [[1; 2]; [9; 0]] ∧
  (manhattan_distance [[1; 2]; [9; 0]] [[1; 2]; [3; 0]] = None
   ↔ ∃ v, v ∈ concat [[1; 2]; [9; 0]] ∧ v ≠ 0 ∧ v ∉ concat [[1; 2]; [3; 0]]).
Proof.
  assert (Hsq : square 2 [[1; 2]; [9; 0]]) by (split; [reflexivity | repeat constructor]).
  split; [exact Hsq |].
  apply (manhattan_distance_raises 2 _ _ Hsq).
Defined.

Lemma sumZ_ext f g n : (∀ k, (k < n)%nat → f k = g k) → sumZ f n = sumZ g n.
Proof.
  induction n as [| n IH]; intros Hfg; simpl; [done |].
  rewrite IH by (intros; apply Hfg; lia). rewrite Hfg by lia. done.
Qed.

Lemma sumZ_update f g n k0 :
  (k0 < n)%nat → (∀ k, (k < n)%nat → k ≠ k0 → g k = f k) →
  sumZ g n = sumZ f n + (g k0 - f k0).
Proof.
  induction n as [| n IH]; intros Hk0 Hfg; simpl; [lia |].
  destruct (decide (k0 = n)) as [-> | Hne].
  - rewrite (sumZ_ext g f n) by (intros; apply Hfg; lia). lia.
  - rewrite IH by (lia || intros; apply Hfg; lia). rewrite (Hfg n) by lia. lia.
Qed.

Lemma sumZ_nonneg f n : (∀ k, (k < n)%nat → 0 ≤ f k) → 0 ≤ sumZ f n.
Proof.
  induction n as [| n IH]; intros Hf; simpl; [lia |].
  specialize (IH ltac:(intros; apply Hf; lia)). specialize (Hf n ltac:(lia)). lia.
Qed.

Lemma sumZ_zero f n :
  (∀ k, (k < n)%nat → 0 ≤ f k) → sumZ f n = 0 → ∀ k, (k < n)%nat → f k = 0.
Proof.
  induction n as [| n IH]; intros Hf Hsum k Hk; [lia |]. simpl in Hsum.
  pose proof (sumZ_nonneg f n ltac:(intros; apply Hf; lia)) as Hpos.
  pose proof (Hf n ltac:(lia)) as Hn.
  destruct (decide (k = n)) as [-> | Hne]; [lia |].
  apply IH; [intros; apply Hf; lia | lia | lia].
Qed.

(** A sum over the cells of the board, when the summand changes in a single
    cell. *)
Lemma grid_sum_update (F G : nat → nat → Z) n i0 j0 :
  (i0 < n)%nat → (j0 < n)%nat →
  (∀ i j, (i < n)%nat → (j < n)%nat → (i, j) ≠ (i0, j0) → G i j = F i j) →
  sumZ (λ i, sumZ (G i) n) n = sumZ (λ i, sumZ (F i) n) n + (G i0 j0 - F i0 j0).
Proof.
  intros Hi0 Hj0 HFG.
  rewrite (sumZ_update (λ i, sumZ (F i) n) (λ i, sumZ (G i) n) n i0 Hi0).
  - rewrite (sumZ_update (F i0) (G i0) n j0 Hj0); [lia |].
    intros j Hj Hne. apply HFG; [done | done | congruence].
  - intros i Hi Hne. apply sumZ_ext. intros j Hj. apply HFG; [done | done | congruence].
Qed.

Lemma tile_distance_nonneg g v i j : 0 ≤ tile_distance g v i j.
Proof. unfold tile_distance. case_bool_decide; [done |]. destruct (where_first g v); lia. Qed.

Lemma cell_value_swapped n s p q i j :
  square n s → in_bounds n p → in_bounds n q → (i < n)%nat → (j < n)%nat →
  cell_value (swapped s p q) i j =
    if decide (Z.to_nat q.1 = i ∧ Z.to_nat q.2 = j) then cell_value s (Z.to_nat p.1) (Z.to_nat p.2)
    else if decide (Z.to_nat p.1 = i ∧ Z.to_nat p.2 = j) then cell_value s (Z.to_nat q.1) (Z.to_nat q.2)
    else cell_value s i j.
Proof.
  intros. unfold cell_value. rewrite (cell_swapped n) by done. by repeat case_decide.
Qed.

(** The distance after the blank in [p] and the tile [v] in the neighbouring
    cell [q] have changed places. *)
Lemma total_distance_swapped n s g p q v :
  square n s → in_bounds n p → in_bounds n q → p ≠ q →
  getitem s p = Some 0 → getitem s q = Some v →
  total_distance n (swapped s p q) g =
    total_distance n s g
    + tile_distance g v (Z.to_nat p.1) (Z.to_nat p.2)
    - tile_distance g v (Z.to_nat q.1) (Z.to_nat q.2).
Proof.
  intros Hsq Hp Hq Hpq Hzero Hv.
  rewrite (getitem_cell n) in Hzero, Hv by done.
  destruct (in_bounds_to_nat n p Hp) as [Hp1 Hp2].
  destruct (in_bounds_to_nat n q Hq) as [Hq1 Hq2].
  assert (Hne : (Z.to_nat p.1, Z.to_nat p.2) ≠ (Z.to_nat q.1, Z.to_nat q.2)).
  { intros [= H1 H2]. apply Hpq. by apply (in_bounds_to_nat_inj n). }
  set (F := λ i j, tile_distance g (cell_value s i j) i j).
  set (G := λ i j, tile_distance g (cell_value (swapped s p q) i j) i j).
  set (F1 := λ i j, if decide ((i, j) = (Z.to_nat p.1, Z.to_nat p.2))
                    then G i j else F i j).
  assert (HG : total_distance n (swapped s p q) g = sumZ (λ i, sumZ (G i) n) n) by reflexivity.
  assert (HF : total_distance n s g = sumZ (λ i, sumZ (F i) n) n) by reflexivity.
  assert (E1 : sumZ (λ i, sumZ (G i) n) n
               = sumZ (λ i, sumZ (F1 i) n) n
                 + (G (Z.to_nat q.1) (Z.to_nat q.2) - F1 (Z.to_nat q.1) (Z.to_nat q.2))).
  { apply grid_sum_update; [done | done |].
    intros i j Hi Hj Hij. unfold F1. case_decide as Hpij; [done |].
    unfold G, F. rewrite (cell_value_swapped n) by done.
    rewrite decide_False by (intros [? ?]; apply Hij; congruence).
    rewrite decide_False by (intros [? ?]; apply Hpij; congruence). done. }
  assert (E2 : sumZ (λ i, sumZ (F1 i) n) n
               = sumZ (λ i, sumZ (F i) n) n
                 + (F1 (Z.to_nat p.1) (Z.to_nat p.2) - F (Z.to_nat p.1) (Z.to_nat p.2))).
  { apply grid_sum_update; [done | done |].
    intros i j Hi Hj Hij. unfold F1. by rewrite decide_False. }
  rewrite HG, HF, E1, E2.
  unfold F1, G, F. rewrite decide_True by done.
  rewrite decide_False by (intros Heq; apply Hne; by rewrite Heq).
  assert (Hvp : cell_value (swapped s p q) (Z.to_nat p.1) (Z.to_nat p.2) = v).
  { rewrite (cell_value_swapped n) by done.
    rewrite decide_False by (intros [? ?]; apply Hne; congruence).
    rewrite decide_True by done. unfold cell_value. by rewrite Hv. }
  assert (Hvq : cell_value (swapped s p q) (Z.to_nat q.1) (Z.to_nat q.2) = 0).
  { rewrite (cell_value_swapped n) by done.
    rewrite decide_True by done. unfold cell_value. by rewrite Hzero. }
  rewrite Hvp, Hvq. unfold cell_value. rewrite Hzero, Hv. simpl.
  assert (Hblank : ∀ i j, tile_distance g 0 i j = 0).
  { intros i j. unfold tile_distance. by rewrite bool_decide_eq_true_2. }
  rewrite !Hblank. lia.
Qed.

Lemma valid_state_same_tiles n s g v :
  valid_state n s → valid_state n g → v ∈ concat s → v ∈ concat g.
Proof. intros [_ Hs] [_ Hg]. by rewrite Hs, Hg. Qed.

Lemma manhattan_distance_valid n s g :
  valid_state n s → valid_state n g →
  manhattan_distance s g = Some (total_distance n s g).
Proof.
  intros Hs Hg. apply manhattan_distance_sum; [apply Hs |].
  intros v Hv _. by apply (valid_state_same_tiles n s g).
Qed.

Lemma manhattan_distance_move n s g actions a s' :
  valid_state n s → valid_state n g →
  available_actions s = Some actions → a ∈ actions → do_action s a = Some s' →
  ∃ m m', manhattan_distance s g = Some m ∧ manhattan_distance s' g = Some m' ∧
          (m' = m + 1 ∨ m' = m - 1).
Proof.
  intros Hs Hg Hacts Ha Hdo. pose proof (proj1 Hs) as Hsq.
  destruct (move_back n s actions a s' Hs Hacts Ha Hdo) as [Hs' _].
  destruct (available_actions_in_bounds n s actions a Hsq Hacts Ha) as (Hp & Hzero & Hq & Hnb).
  destruct a as [p q]. simpl in *.
  rewrite (do_action_swapped n) in Hdo by done. injection Hdo as <-.
  exists (total_distance n s g), (total_distance n (swapped s p q) g).
  split; [by apply manhattan_distance_valid |].
  split; [by apply manhattan_distance_valid |].
  assert (Hpq : p ≠ q).
  { intros ->. unfold orthogonal_neighbour in Hnb. lia. }
  destruct (in_bounds_to_nat n q Hq) as [Hq1 Hq2].
  destruct (cell_is_Some n s _ _ Hsq Hq1 Hq2) as [v Hv].
  assert (Hgetv : getitem s q = Some v) by (by rewrite (getitem_cell n)).
  rewrite (total_distance_swapped n s g p q v) by done.
  assert (Hnz : v ≠ 0).
  { intros ->. rewrite (getitem_cell n) in Hzero by done.
    destruct (valid_state_cell_unique n s 0 _ _ _ _ Hs Hzero Hv) as [H1 H2].
    apply Hpq. by apply (in_bounds_to_nat_inj n). }
  destruct (where_first_is_Some g v) as [gp Hgp].
  { apply (valid_state_same_tiles n s g); [done | done |]. by eapply cell_elem_of_concat. }
  unfold tile_distance. rewrite bool_decide_eq_false_2 by done. rewrite Hgp.
  destruct Hp as [Hp1 Hp2]. destruct Hq as [Hq1' Hq2'].
  unfold orthogonal_neighbour in Hnb. lia.
Qed.

(** X8. Every move changes [manhattan_distance] by exactly one: on puzzle
    states of a common size the heuristic returns before and after an action
    offered by [available_actions], and the two values differ by 1. *)
Theorem manhattan_distance_step n s g actions a s' :
  valid_state n s → valid_state n g →
  available_actions s = Some actions → a ∈ actions → do_action s a = Some s' →
  ∃ m m', manhattan_distance s g = Some m ∧ manhattan_distance s' g = Some m' ∧
          (m' = m + 1 ∨ m' = m - 1).
Proof. apply manhattan_distance_move. Qed.

Lemma manhattan_distance_step_witness :
  ∃ m m',
    manhattan_distance [[3; 7; 4]; [5; 0; 6]; [8; 2; 1]] goal_3x3 = Some m ∧
    manhattan_distance [[3; 7; 4]; [5; 2; 6]; [8; 0; 1]] goal_3x3 = Some m' ∧
    (m' = m + 1 ∨ m' = m - 1).
Proof.
  apply (manhattan_distance_step 3 [[3; 7; 4]; [5; 0; 6]; [8; 2; 1]] goal_3x3
           [mkAction (1, 1) (0, 1); mkAction (1, 1) (2, 1);
            mkAction (1, 1) (1, 0); mkAction (1, 1) (1, 2)]
           (mkAction (1, 1) (2, 1))).
  - exact valid_state_start_3x3.
  - exact valid_state_goal_3x3.
  - reflexivity.
  - apply elem_of_cons; right. apply elem_of_cons; left. reflexivity.
  - reflexivity.
Defined.

Lemma sumZ_all_zero f n : (∀ k, (k < n)%nat → f k = 0) → sumZ f n = 0.
Proof.
  induction n as [| n IH]; intros Hf; simpl; [done |].
  rewrite IH by (intros; apply Hf; lia). rewrite Hf by lia. done.
Qed.

Lemma total_distance_nonneg n s g : 0 ≤ total_distance n s g.
Proof.
  unfold total_distance. apply sumZ_nonneg. intros i _.
  apply sumZ_nonneg. intros j _. apply tile_distance_nonneg.
Qed.

(** The distance of a tile to its own cell. *)
Lemma tile_distance_home n g i j v :
  valid_state n g → cell g i j = Some v → tile_distance g v i j = 0.
Proof.
  intros Hg Hc. unfold tile_distance. case_bool_decide; [done |].
  destruct (where_first g v) as [[gi gj] |] eqn:Hw; [| done].
  apply where_first_Some in Hw.
  destruct (valid_state_cell_unique n g v _ _ _ _ Hg Hw Hc) as [-> ->]. simpl. lia.
Qed.

Lemma total_distance_goal n g : valid_state n g → total_distance n g g = 0.
Proof.
  intros Hg. unfold total_distance. apply sumZ_all_zero. intros i Hi.
  apply sumZ_all_zero. intros j Hj.
  destruct (cell_is_Some n g i j (proj1 Hg) Hi Hj) as [v Hv].
  unfold cell_value. rewrite Hv. simpl. by apply (tile_distance_home n).
Qed.

Lemma total_distance_zero n s g :
  valid_state n s → valid_state n g → total_distance n s g = 0 → s = g.
Proof.
  intros Hs Hg Hzero. pose proof (proj1 Hs) as Hsqs. pose proof (proj1 Hg) as Hsqg.
  assert (Hcell : ∀ i j, (i < n)%nat → (j < n)%nat →
            tile_distance g (cell_value s i j) i j = 0).
  { intros i j Hi Hj. unfold total_distance in Hzero.
    pose proof (sumZ_zero _ n ltac:(intros; apply sumZ_nonneg; intros; apply tile_distance_nonneg)
                  Hzero i Hi) as Hrow.
    cbv beta in Hrow.
    apply (sumZ_zero _ n ltac:(intros; apply tile_distance_nonneg) Hrow j Hj). }
  (* every tile of [s] sits in the cell it has in [g] *)
  assert (Htile : ∀ i j v, cell s i j = Some v → v ≠ 0 → cell g i j = Some v).
  { intros i j v Hv Hnz.
    destruct (cell_Some_bounds n s i j v Hsqs Hv) as [Hi Hj].
    specialize (Hcell i j Hi Hj). unfold cell_value in Hcell. rewrite Hv in Hcell.
    simpl in Hcell. unfold tile_distance in Hcell.
    rewrite bool_decide_eq_false_2 in Hcell by done.
    destruct (where_first_is_Some g v) as [[gi gj] Hw].
    { apply (valid_state_same_tiles n s g); [done | done |]. by eapply cell_elem_of_concat. }
    rewrite Hw in Hcell. simpl in Hcell. apply where_first_Some in Hw.
    assert (gi = i ∧ gj = j) as [-> ->] by lia. done. }
  apply (square_ext n); [done | done |]. intros i j Hi Hj.
  destruct (cell_is_Some n s i j Hsqs Hi Hj) as [v Hv].
  destruct (decide (v = 0)) as [-> | Hnz]; [| rewrite Hv; symmetry; by apply Htile].
  destruct (cell_is_Some n g i j Hsqg Hi Hj) as [w Hw]. rewrite Hv, Hw. f_equal.
  destruct (decide (w = 0)) as [-> | Hwnz]; [done |]. exfalso.
  assert (Hin : w ∈ concat s).
  { apply (valid_state_same_tiles n g s); [done | done |]. by eapply cell_elem_of_concat. }
  apply elem_of_concat_cell in Hin as (i' & j' & Hw').
  pose proof (Htile i' j' w Hw' Hwnz) as Hgw.
  destruct (valid_state_cell_unique n g w _ _ _ _ Hg Hgw Hw) as [-> ->]. congruence.
Qed.

(** X9. Between puzzle states of a common size [manhattan_distance] is never
    negative, and it is 0 exactly when the state is the goal. *)
Theorem manhattan_distance_zero n s g :
  valid_state n s → valid_state n g →
  ∃ m, manhattan_distance s g = Some m ∧ 0 ≤ m ∧ (m = 0 ↔ s = g).
Proof.
  intros Hs Hg. exists (total_distance n s g).
  split; [by apply manhattan_distance_valid |].
  split; [apply total_distance_nonneg |]. split.
  - by apply total_distance_zero.
  - intros ->. by apply total_distance_goal.
Qed.

Lemma manhattan_distance_zero_witness :
  ∃ m, manhattan_distance [[3; 7; 4]; [5; 0; 6]; [8; 2; 1]] goal_3x3 = Some m ∧ 0 ≤ m ∧
       (m = 0 ↔ [[3; 7; 4]; [5; 0; 6]; [8; 2; 1]] = goal_3x3).
Proof.
  apply (manhattan_distance_zero 3).
  - exact valid_state_start_3x3.
  - exact valid_state_goal_3x3.
Defined.

Lemma manhattan_distance_consistent n init goal :
  valid_state n init → valid_state n goal → consistent manhattan_distance init goal.
Proof.
  intros Hinit Hgoal s j s' Hs (actions & a & Hacts & Ha & Hdo).
  pose proof (path_valid n init j s Hinit Hs) as Hvalid.
  destruct (manhattan_distance_move n s goal actions a s' Hvalid Hgoal Hacts Ha Hdo)
    as (m & m' & Hm & Hm' & Hstep).
  exists m, m'. split_and!; [done | done | lia].
Qed.

Lemma manhattan_distance_admissible_from n init goal :
  valid_state n init → valid_state n goal → admissible manhattan_distance init goal.
Proof.
  intros Hinit Hgoal. apply consistent_admissible.
  - by apply (manhattan_distance_consistent n).
  - rewrite (manhattan_distance_valid n) by done. by rewrite (total_distance_goal n).
Qed.

(** X10. [manhattan_distance] never overestimates: between puzzle states of
    a common size it is at most the length of any sequence of moves that
    leads from the state to the goal. *)
Theorem manhattan_distance_admissible n s g k :
  valid_state n s → valid_state n g → path_len s k g →
  ∃ m, manhattan_distance s g = Some m ∧ m ≤ Z.of_nat k.
Proof.
  intros Hs Hg Hpath.
  apply (manhattan_distance_admissible_from n s g Hs Hg s 0%nat k (path_here _) Hpath).
Qed.

Lemma manhattan_distance_admissible_witness :
  valid_state 3 reversed_3x3 ∧ valid_state 3 goal_3x3 ∧
  path_len reversed_3x3 28 goal_3x3 ∧
  ∃ m, manhattan_distance reversed_3x3 goal_3x3 = Some m ∧ m ≤ Z.of_nat 28.
Proof.
  assert (Hpath : path_len reversed_3x3 28 goal_3x3).
  { apply (play_path_len reversed_to_goal). vm_compute. reflexivity. }
  split; [exact valid_state_reversed_3x3 |]. split; [exact valid_state_goal_3x3 |].
  split; [exact Hpath |].
  apply (manhattan_distance_admissible 3 _ _ _ valid_state_reversed_3x3 valid_state_goal_3x3 Hpath).
Defined.

Lemma solve_manhattan_shortest `{HeapQ} n init goal :
  valid_state n init → (∃ k, path_len init k goal) →
  ∃ k path d evaluated,
    shortest init goal d ∧
    ∀ fuel, (k < fuel)%nat →
      solve fuel {| initial_state := init; goal_state := goal;
                    heuristic_func := manhattan_distance |}
        = Returns (Some path, Z.of_nat d, evaluated).
Proof.
  intros Hinit [kg Hgoal].
  pose proof (path_valid n init kg goal Hinit Hgoal) as Hvalid_goal.
  set (self := {| initial_state := init; goal_state := goal;
                  heuristic_func := manhattan_distance |}).
  destruct (decide (init = goal)) as [Heq | Hne].
  - assert (Hh : heuristic_func self (initial_state self) (goal_state self) = Some 0).
    { simpl. rewrite (manhattan_distance_valid n) by done. rewrite Heq.
      by rewrite (total_distance_goal n). }
    destruct (first_iteration_at_goal self 0 Heq Hh) as (c0 & _ & _ & Hsolve).
    exists 0%nat, [(goal, None)], 0%nat, 1. split.
    + split; [rewrite Heq; apply path_here | intros; lia].
    + intros [| fuel] Hfuel; [lia |]. apply Hsolve.
  - assert (Hblank : 0 ∈ concat init).
    { destruct (path_len_first _ _ _ Hgoal) as [? | [u Hmove]]; [done |].
      by eapply move_has_blank. }
    destruct (solve_finds_shortest self n (proj1 Hinit) Hblank
                (manhattan_distance_consistent n init goal Hinit Hvalid_goal)
                (ex_intro _ kg Hgoal)
                (manhattan_distance_admissible_from n init goal Hinit Hvalid_goal))
      as (k & c0 & c & current & d & evaluated & _ & _ & _ & _ & _ & _ & Hshort & Hsolve).
    by exists k, (reconstruct_path current), d, evaluated.
Qed.

(** X11. With [manhattan_distance], [solve] returns a shortest solution of
    every instance that has one: for a puzzle state from which the goal can
    be reached, [solve] returns a path, and the move count it returns is the
    length of a shortest sequence of moves to the goal. *)
Theorem solve_manhattan_optimal `{HeapQ} n init goal :
  valid_state n init → (∃ k, path_len init k goal) →
  ∃ k path d evaluated,
    shortest init goal d ∧
    ∀ fuel, (k < fuel)%nat →
      solve fuel {| initial_state := init; goal_state := goal;
                    heuristic_func := manhattan_distance |}
        = Returns (Some path, Z.of_nat d, evaluated).
Proof. apply solve_manhattan_shortest. Qed.

Lemma solve_manhattan_optimal_witness :
  valid_state 3 reversed_3x3 ∧ (∃ k, path_len reversed_3x3 k goal_3x3) ∧
  ∃ k path d evaluated,
    shortest reversed_3x3 goal_3x3 d ∧
    ∀ fuel, (k < fuel)%nat →
      solve fuel {| initial_state := reversed_3x3; goal_state := goal_3x3;
                    heuristic_func := manhattan_distance |}
        = Returns (Some path, Z.of_nat d, evaluated).
Proof.
  assert (Hpath : ∃ k, path_len reversed_3x3 k goal_3x3).
  { exists 28%nat. apply (play_path_len reversed_to_goal). vm_compute. reflexivity. }
  split; [exact valid_state_reversed_3x3 |]. split; [exact Hpath |].
  apply (solve_manhattan_optimal 3 _ _ valid_state_reversed_3x3 Hpath).
Defined.

(** ** The search under an arbitrary heuristic *)

Lemma replay_app s entries1 entries2 :
  replay s (entries1 ++ entries2) = replay s entries1 ≫= λ s', replay s' entries2.
Proof.
  revert s. induction entries1 as [| [s1 [a |]] rest IH]; intros s; simpl; [done | | done].
  destruct (available_actions s) as [offered |]; simpl; [| done].
  case_bool_decide; [apply IH | done].
Qed.

Lemma chain_ok_solution_path self node :
  chain_ok self node →
  ∃ steps, reconstruct_path node = (initial_state self, None) :: steps ∧
           replay (initial_state self) steps = Some (state node).
Proof.
  unfold reconstruct_path. rewrite reconstruct_loop_collected. simpl.
  induction node as [m Hm | m p Hm IH] using Node_parent_ind.
  - destruct m as [s par a g hc]. simpl in *. rewrite Hm.
    intros (_ & -> & _). by exists [].
  - destruct m as [s par a g hc]. simpl in *. rewrite Hm.
    intros (_ & (actions & a' & -> & Hacts & Ha & Hdo) & _ & Hp).
    destruct (IH Hp) as (steps & Hrev & Hreplay).
    exists (steps ++ [(s, Some a')]). split.
    + rewrite reverse_cons, Hrev. done.
    + rewrite replay_app, Hreplay. simpl. rewrite Hacts. simpl.
      by rewrite bool_decide_eq_true_2.
Qed.

Section Search.
Context `{HeapQ}.
Variable self : GemPuzzleSolver.
Variable n : nat.

Notation init := (initial_state self).
Notation goal := (goal_state self).
Notation h := (heuristic_func self).
Notation key := state_to_tuple.

Hypothesis init_square : square n init.
Hypothesis init_blank : 0 ∈ concat init.
Hypothesis goal_square : square n goal.
Hypothesis h_total : ∀ k s, path_len init k s → is_Some (h s goal).

Lemma search_inv_pending_mono (P Q : grid → grid → Prop) c :
  (∀ s s', P s s' → Q s s') → search_inv self P c → search_inv self Q c.
Proof.
  intros HPQ [? ? ? Hclosed ? ? ?]. split; try done.
  intros s k s' Hpath Hin Hmove.
  destruct (Hclosed s k s' Hpath Hin Hmove) as [? | ?]; [left; by apply HPQ | by right].
Qed.

Lemma expand_search_inv current actions a todo c :
  chain_ok self current →
  available_actions (state current) = Some actions → a ∈ actions →
  search_inv self (pending_via (state current) (a :: todo)) c →
  ∃ c', expand self current a c = Some c' ∧
        search_inv self (pending_via (state current) todo) c' ∧
        closed_set c' = closed_set c ∧
        (length (open_set c') ≤ S (length (open_set c)))%nat.
Proof.
  intros Hok Hacts Ha Hinv.
  destruct (chain_ok_path self current Hok) as [Hreach Hdepth].
  pose proof (reach_square self n init_square _ _ Hreach) as Hsq.
  pose proof (reach_blank self n init_square init_blank _ _ Hreach) as Hblank.
  destruct (available_actions_is_Some n _ Hsq Hblank) as (actions' & Hacts' & _ & Hdo).
  assert (actions' = actions) as -> by congruence.
  destruct (Hdo a Ha) as [s' Hs'].
  assert (Hmove : move (state current) s') by (by exists actions, a).
  pose proof (path_step _ _ _ _ Hreach Hmove) as Hreach'.
  assert (Hskip :
    (state_to_tuple s' ∈ closed_set c ∨
     ∃ g', g_scores c !! state_to_tuple s' = Some (Fin g')) →
    search_inv self (pending_via (state current) todo) c).
  { intros Hcase. destruct Hinv as [? ? ? Hclosed ? ? ?]. split; try done.
    intros s k s'' Hpath Hin Hmv.
    destruct (Hclosed s k s'' Hpath Hin Hmv) as [(-> & a0 & Ha0 & Hdo0) | ?]; [| by right].
    apply elem_of_cons in Ha0 as [-> | Ha0].
    - assert (s'' = s') as -> by congruence. by right.
    - left. split; [done |]. by exists a0. }
  unfold expand. rewrite Hs'. simpl.
  case_bool_decide as Hclosed'.
  { exists c. split_and!; [done | | done | lia]. apply Hskip. by left. }
  destruct (defaultdict_getitem (g_scores c) (state_to_tuple s')) as [known gs'] eqn:Hget.
  destruct (ge_score (g_cost current + 1) known) eqn:Hge.
  { destruct known as [g' |]; simpl in Hge; [| done].
    pose proof (proj1 (defaultdict_getitem_known _ _ _ _ g' Hget) eq_refl) as Hg'.
    assert (gs' = g_scores c) as ->.
    { unfold defaultdict_getitem in Hget. rewrite Hg' in Hget. by injection Hget. }
    eexists. split; [done |]. simpl.
    assert (Hc : search_inv self (pending_via (state current) todo) c).
    { apply Hskip. right. by exists g'. }
    split_and!; [| done | lia].
    destruct Hc. by split. }
  destruct (h_total _ _ Hreach') as [v' Hv'].
  rewrite Hv'. simpl. eexists. split; [done |]. simpl.
  set (new_node := mkNode s' (Some current) (Some a) (g_cost current + 1) v').
  assert (Hin_push : ∀ m, m ∈ heappush (open_set c) new_node ↔ m = new_node ∨ m ∈ open_set c).
  { intros m. rewrite heappush_perm. apply elem_of_cons. }
  assert (Hfin : ∀ κ g, g_scores c !! κ = Some (Fin g) →
            ∃ g', <[state_to_tuple s' := Fin (g_cost current + 1)]> gs' !! κ = Some (Fin g')).
  { intros κ g Hg. destruct (decide (state_to_tuple s' = κ)) as [<- | Hne].
    - eexists. by rewrite lookup_insert_eq.
    - exists g. rewrite lookup_insert_ne by done.
      by apply (defaultdict_getitem_Fin _ _ _ _ _ _ Hget). }
  split_and!; [| done |].
  - destruct Hinv as [Hnodes Hstart Hopen Hclosed Hreachc Hgoal Hcount].
    split; simpl.
    + intros m [-> | Hm]%Hin_push; [| by apply Hnodes].
      simpl. split; [done |]. split; [| done]. by exists actions, a.
    + destruct Hstart as (g0 & Hg0). by apply (Hfin _ g0).
    + intros κ g Hκ Hlook.
      destruct (decide (state_to_tuple s' = κ)) as [<- | Hne].
      * exists new_node. split; [apply Hin_push; by left | done].
      * rewrite lookup_insert_ne in Hlook by done.
        apply (defaultdict_getitem_Fin _ _ _ _ _ _ Hget) in Hlook.
        destruct (Hopen κ g Hκ Hlook) as (m & Hm & Hkey).
        exists m. split; [apply Hin_push; by right | done].
    + intros s k s'' Hpath Hin Hmv.
      destruct (Hclosed s k s'' Hpath Hin Hmv)
        as [(-> & a0 & Ha0 & Hdo0) | [? | (g' & Hg')]].
      * apply elem_of_cons in Ha0 as [-> | Ha0].
        -- assert (s'' = s') as -> by congruence. right. right.
           eexists. by rewrite lookup_insert_eq.
        -- left. split; [done |]. by exists a0.
      * right. by left.
      * right. right. by apply (Hfin _ g').
    + done.
    + done.
    + done.
  - pose proof (Permutation_length (heappush_perm (open_set c) new_node)) as Hlen.
    simpl in Hlen. lia.
Qed.

Lemma for_each_expand_search_inv current actions :
  chain_ok self current →
  available_actions (state current) = Some actions →
  ∀ todo c,
    (∀ a, a ∈ todo → a ∈ actions) →
    search_inv self (pending_via (state current) todo) c →
    ∃ c', for_each todo (expand self current) c = Some c' ∧
          search_inv self (λ _ _, False) c' ∧
          closed_set c' = closed_set c ∧
          (length (open_set c') ≤ length todo + length (open_set c))%nat.
Proof.
  intros Hok Hacts. induction todo as [| a todo IH]; intros c Hsub Hinv; simpl.
  - exists c. split_and!; [done | | done | lia].
    eapply search_inv_pending_mono; [| done]. intros s s' (_ & a & Ha%elem_of_nil & _). done.
  - destruct (expand_search_inv current actions a todo c Hok Hacts)
      as (c1 & -> & Hinv1 & Hcl1 & Hlen1); [apply Hsub, elem_of_cons; by left | done |].
    simpl.
    destruct (IH c1) as (c' & Hfor & Hinv' & Hcl' & Hlen'); [| done |].
    { intros a' Ha'. apply Hsub, elem_of_cons. by right. }
    exists c'. split_and!; [done | done | congruence | lia].
Qed.

(** With an empty frontier every reachable state is closed. *)
Lemma exhausted_all_closed c :
  search_inv self (λ _ _, False) c → open_set c = [] →
  ∀ k s, path_len init k s → key s ∈ closed_set c.
Proof.
  intros Hinv Hempty k s Hpath.
  assert (Hnone : ∀ κ g, g_scores c !! κ = Some (Fin g) → κ ∈ closed_set c).
  { intros κ g Hg. destruct (decide (κ ∈ closed_set c)) as [? | Hnot]; [done |].
    destruct (sinv_open _ _ _ Hinv κ g Hnot Hg) as (m & Hm & _).
    rewrite Hempty in Hm. by apply elem_of_nil in Hm. }
  induction Hpath as [| k t u Hpath IH Hmove].
  - destruct (sinv_start _ _ _ Hinv) as (g0 & Hg0). by eapply Hnone.
  - destruct (sinv_closed _ _ _ Hinv t k u Hpath IH Hmove) as [[] | [? | (g' & Hg')]]; [done |].
    by eapply Hnone.
Qed.

Lemma step_search_inv c :
  search_inv self (λ _ _, False) c → open_set c ≠ [] →
  ∃ current open_set',
    heappop (open_set c) = Some (current, open_set') ∧
    chain_ok self current ∧
    ((state current = goal ∧
      step self c = Return (Some (reconstruct_path current),
                            Z.of_nat (length (reconstruct_path current)) - 1,
                            states_evaluated c + 1)
                           (mkConfig open_set' (g_scores c) (closed_set c)
                                     (states_evaluated c + 1)))
     ∨
     (∃ c', step self c = Continue c' ∧ search_inv self (λ _ _, False) c' ∧
            (measure n init c' < measure n init c)%nat)).
Proof.
  intros Hinv Hne.
  destruct (heappop_is_Some _ Hne) as [[current open_set'] Hpop].
  exists current, open_set'.
  assert (Hcur : current ∈ open_set c).
  { apply (elem_of_heappop _ _ _ _ Hpop). by left. }
  pose proof (sinv_nodes _ _ _ Hinv current Hcur) as Hok.
  destruct (chain_ok_path self current Hok) as [Hreach Hdepth].
  pose proof (reach_square self n init_square _ _ Hreach) as Hsq.
  pose proof (Permutation_length (heappop_perm _ _ _ Hpop)) as Hlen. simpl in Hlen.
  assert (Huniv : closed_set c ⊆ universe n init).
  { intros κ Hκ. destruct (sinv_reach _ _ _ Hinv κ Hκ) as (k & s & Hs & <-).
    by eapply reach_universe. }
  split_and!; [done | done |].
  unfold step. destruct (open_set c) as [| n0 rest0] eqn:Hopen; [done |].
  rewrite Hpop. rewrite <- Hopen in *. clear Hopen n0 rest0.
  case_bool_decide as Hclosed.
  { right. eexists. split; [done |]. split.
    - destruct Hinv as [Hnodes Hstart Hopen Hcl Hreachc Hgoal' Hcount]. split; simpl; try done.
      + intros m Hm. apply Hnodes. apply (elem_of_heappop _ _ _ _ Hpop). by right.
      + intros κ g Hκ Hlook.
        destruct (Hopen κ g Hκ Hlook) as (m & Hm & Hkey).
        exists m. split; [| done].
        apply (elem_of_heappop _ _ _ _ Hpop) in Hm as [-> | Hm]; [| done].
        rewrite Hkey in Hclosed. done.
    - unfold measure. simpl. lia. }
  rewrite (eq_all_square n _ _ Hsq goal_square).
  case_bool_decide as Hgoal_test.
  { left. done. }
  right.
  pose proof (reach_blank self n init_square init_blank _ _ Hreach) as Hblank.
  destruct (available_actions_is_Some n _ Hsq Hblank) as (actions & Hacts & Hlen_acts & _).
  rewrite Hacts.
  set (c1 := mkConfig open_set' (g_scores c) ({[state_to_tuple (state current)]} ∪ closed_set c)
                      (states_evaluated c + 1)).
  assert (Hsize : size ({[state_to_tuple (state current)]} ∪ closed_set c)
                  = S (size (closed_set c))).
  { rewrite size_union by set_solver. by rewrite size_singleton. }
  assert (Hinv1 : search_inv self (pending_via (state current) actions) c1).
  { destruct Hinv as [Hnodes Hstart Hopen Hcl Hreachc Hgoal' Hcount]. split; simpl.
    - intros m Hm. apply Hnodes. apply (elem_of_heappop _ _ _ _ Hpop). by right.
    - done.
    - intros κ g Hκ Hlook.
      destruct (Hopen κ g ltac:(set_solver) Hlook) as (m & Hm & Hkey).
      exists m. split; [| done].
      apply (elem_of_heappop _ _ _ _ Hpop) in Hm as [-> | Hm]; [| done].
      set_solver.
    - intros s k s' Hpath Hin Hmove.
      destruct (decide (state_to_tuple s = state_to_tuple (state current))) as [Heq | Hneq].
      + left. apply (reach_key_inj self n init_square _ _ _ _ Hpath Hreach) in Heq. subst s.
        split; [done |]. destruct Hmove as (actions' & a & Hacts' & Ha & Hdo).
        exists a. split; [congruence | done].
      + right. destruct (Hcl s k s' Hpath ltac:(set_solver) Hmove) as [[] | [? | ?]].
        * left. set_solver.
        * by right.
    - intros κ [->%elem_of_singleton | Hκ]%elem_of_union; [by eauto | by apply Hreachc].
    - intros [Heq%elem_of_singleton | ?]%elem_of_union; [| done].
      apply Hgoal_test. symmetry. by apply (state_to_tuple_inj n).
    - unfold evaluated_is_closed in *. simpl. rewrite Hsize. lia. }
  destruct (for_each_expand_search_inv current actions Hok Hacts actions c1)
    as (c' & Hfor & Hinv' & Hcl' & Hlen'); [done | done |].
  fold c1. rewrite Hfor. exists c'. split_and!; [done | done |].
  unfold measure. rewrite Hcl'. simpl in *.
  assert (Huniv' : {[state_to_tuple (state current)]} ∪ closed_set c ⊆ universe n init).
  { apply union_subseteq. split; [| done].
    apply singleton_subseteq_l. by eapply reach_universe. }
  pose proof (subseteq_size _ _ Huniv') as Hbound.
  rewrite Hsize in *. lia.
Qed.

(** The loop reaches a loop head with an empty frontier, or one at which it
    pops a node of the goal. *)
Lemma loop_search : ∀ bound c,
  (measure n init c < bound)%nat →
  search_inv self (λ _ _, False) c →
  ∃ k c', iterate k self c = Some c' ∧ search_inv self (λ _ _, False) c' ∧
    (open_set c' = [] ∨
     ∃ current open_set',
       chain_ok self current ∧ state current = goal ∧
       step self c' = Return (Some (reconstruct_path current),
                              Z.of_nat (length (reconstruct_path current)) - 1,
                              states_evaluated c' + 1)
                             (mkConfig open_set' (g_scores c') (closed_set c')
                                       (states_evaluated c' + 1))).
Proof.
  induction bound as [| bound IH]; intros c Hlt Hinv; [lia |].
  destruct (decide (open_set c = [])) as [Hempty | Hne].
  { exists 0%nat, c. split_and!; [done | done | by left]. }
  destruct (step_search_inv c Hinv Hne) as (current & open_set' & Hpop & Hok & Hcases).
  destruct Hcases as [(Hgoal & Hstep) | (c1 & Hstep & Hinv1 & Hdec)].
  - exists 0%nat, c. split_and!; [done | done |]. right. by exists current, open_set'.
  - destruct (IH c1) as (k & c' & Hiter & Hrest); [lia | done |].
    exists (S k), c'. split; [| done]. simpl. by rewrite Hstep.
Qed.

Lemma init_config_search_inv :
  ∃ c0, init_config self = Some c0 ∧ search_inv self (λ _ _, False) c0.
Proof.
  destruct (h_total 0%nat init (path_here _)) as [v0 Hv0].
  unfold init_config. rewrite Hv0. simpl. eexists. split; [done |].
  split; simpl.
  - intros m ->%list_elem_of_singleton. simpl. done.
  - exists 0. by rewrite lookup_insert_eq.
  - intros κ g _ Hlook. apply lookup_insert_Some in Hlook as [[<- [= <-]] | [_ Hempty]].
    + eexists. split; [by apply list_elem_of_singleton | done].
    + by rewrite lookup_empty in Hempty.
  - intros s k s' _ Hin. set_solver.
  - set_solver.
  - set_solver.
  - reflexivity.
Qed.

(** [solve] returns, and what it returns is right: a path is a solution with
    the announced number of moves, and no path means that the goal cannot be
    reached and that every reachable state has been evaluated. *)
Lemma solve_returns :
  ∃ k result moves evaluated,
    (∀ fuel, (k < fuel)%nat → solve fuel self = Returns (result, moves, evaluated)) ∧
    match result with
    | Some path =>
        solution_path init goal path ∧ moves = Z.of_nat (length path) - 1 ∧
        path_len init (length path - 1) goal
    | None =>
        moves = 0 ∧ (∀ k', ¬ path_len init k' goal) ∧
        ∃ reachable : gset (list Z),
          (∀ κ, κ ∈ reachable ↔ ∃ k' s, path_len init k' s ∧ key s = κ) ∧
          evaluated = Z.of_nat (size reachable)
    end.
Proof.
  destruct init_config_search_inv as (c0 & Hinit & Hinv0).
  destruct (loop_search (S (measure n init c0)) c0 ltac:(lia) Hinv0)
    as (k & c & Hiter & Hinv & Hcases).
  assert (Hsolve : ∀ r cf, step self c = Return r cf →
            ∀ fuel, (k < fuel)%nat → solve fuel self = Returns r).
  { intros r cf Hstep fuel Hfuel. unfold solve, solve_run. rewrite Hinit.
    replace fuel with (k + S (fuel - S k))%nat by lia.
    rewrite (loop_iterate k self c0 c) by done. simpl. by rewrite Hstep. }
  destruct Hcases as [Hempty | (current & open_set' & Hok & Hgoal & Hstep)].
  - exists k, None, 0, (states_evaluated c). split.
    + apply (Hsolve _ c). unfold step. by rewrite Hempty.
    + pose proof (exhausted_all_closed c Hinv Hempty) as Hall.
      split_and!; [done | |].
      * intros k' Hpath. apply (sinv_goal _ _ _ Hinv). by eapply Hall.
      * exists (closed_set c). split; [| apply (sinv_count _ _ _ Hinv)].
        intros κ. split; [apply (sinv_reach _ _ _ Hinv) |].
        intros (k' & s & Hs & <-). by eapply Hall.
  - exists k, (Some (reconstruct_path current)),
      (Z.of_nat (length (reconstruct_path current)) - 1), (states_evaluated c + 1).
    split; [by eapply Hsolve |].
    destruct (chain_ok_solution_path self current Hok) as (steps & Hpath & Hreplay).
    destruct (chain_ok_path self current Hok) as [Hreach _].
    split_and!; [| done |].
    + exists steps. by rewrite <- Hgoal.
    + rewrite length_reconstruct_path. simpl. rewrite Nat.sub_0_r. by rewrite <- Hgoal.
Qed.

End Search.

Lemma square_0 a : square 0 a → a = [].
Proof. intros [Hlen _]. by destruct a. Qed.

(** [solve_returns] on a puzzle state, whether or not it is the goal. *)
Lemma solve_returns_valid `{HeapQ} self n :
  valid_state n (initial_state self) →
  square n (goal_state self) →
  (∀ k s, path_len (initial_state self) k s →
          is_Some (heuristic_func self s (goal_state self))) →
  ∃ k result moves evaluated,
    (∀ fuel, (k < fuel)%nat → solve fuel self = Returns (result, moves, evaluated)) ∧
    match result with
    | Some path =>
        solution_path (initial_state self) (goal_state self) path ∧
        moves = Z.of_nat (length path) - 1 ∧
        path_len (initial_state self) (length path - 1) (goal_state self)
    | None =>
        moves = 0 ∧ (∀ k', ¬ path_len (initial_state self) k' (goal_state self)) ∧
        ∃ reachable : gset (list Z),
          (∀ κ, κ ∈ reachable ↔
                ∃ k' s, path_len (initial_state self) k' s ∧ state_to_tuple s = κ) ∧
          evaluated = Z.of_nat (size reachable)
    end.
Proof.
  intros Hvalid Hgoal Htotal.
  destruct (decide (initial_state self = goal_state self)) as [Heq | Hne].
  - destruct (Htotal 0%nat _ (path_here _)) as [v Hv].
    destruct (first_iteration_at_goal self v Heq Hv) as (c0 & _ & _ & Hsolve).
    exists 0%nat, (Some [(goal_state self, None)]), 0, 1. split.
    + intros [| fuel] Hfuel; [lia |]. apply Hsolve.
    + split_and!; [| done |].
      * exists []. split; [by rewrite Heq | by rewrite Heq].
      * simpl. rewrite Heq. apply path_here.
  - destruct n as [| n].
    { exfalso. apply Hne. by rewrite (square_0 _ (proj1 Hvalid)), (square_0 _ Hgoal). }
    apply (solve_returns self (S n)); [apply Hvalid | | done | done].
    apply (valid_state_has_blank (S n)); [lia | done].
Qed.

(** X12. Whatever the heuristic, as long as it returns a value on the
    states that can be reached, [solve] finds a solution of every instance
    that has one: it returns a path that starts with the initial state, goes
    on by actions each offered in the state before it, and ends in the goal,
    together with the number of those actions. *)
Theorem solve_finds_solution `{HeapQ} self n :
  valid_state n (initial_state self) →
  (∀ k s, path_len (initial_state self) k s →
          is_Some (heuristic_func self s (goal_state self))) →
  (∃ k, path_len (initial_state self) k (goal_state self)) →
  ∃ k path evaluated,
    solution_path (initial_state self) (goal_state self) path ∧
    ∀ fuel, (k < fuel)%nat →
      solve fuel self = Returns (Some path, Z.of_nat (length path) - 1, evaluated).
Proof.
  intros Hvalid Htotal [kg Hgoal].
  pose proof (path_square n _ _ _ (proj1 Hvalid) Hgoal) as Hgoal_sq.
  destruct (solve_returns_valid self n Hvalid Hgoal_sq Htotal)
    as (k & [path |] & moves & evaluated & Hsolve & Hresult).
  - destruct Hresult as (Hpath & -> & _). by exists k, path, evaluated.
  - destruct Hresult as (_ & Hnone & _). by destruct (Hnone kg).
Qed.

Lemma enhanced_manhattan_total n init goal :
  valid_state n init → valid_state n goal →
  ∀ k s, path_len init k s → is_Some (enhanced_manhattan s goal).
Proof.
  intros Hinit Hgoal k s Hpath. apply (enhanced_manhattan_is_Some n); [| done].
  by apply (path_valid n init k s).
Qed.

Lemma solve_finds_solution_witness :
  valid_state 3 reversed_3x3 ∧
  (∀ k s, path_len reversed_3x3 k s → is_Some (enhanced_manhattan s goal_3x3)) ∧
  (∃ k, path_len reversed_3x3 k goal_3x3) ∧
  ∃ k path evaluated,
    solution_path reversed_3x3 goal_3x3 path ∧
    ∀ fuel, (k < fuel)%nat →
      solve fuel {| initial_state := reversed_3x3; goal_state := goal_3x3;
                    heuristic_func := enhanced_manhattan |}
        = Returns (Some path, Z.of_nat (length path) - 1, evaluated).
Proof.
  assert (Htotal : ∀ k s, path_len reversed_3x3 k s → is_Some (enhanced_manhattan s goal_3x3))
    by (apply (enhanced_manhattan_total 3);
        [exact valid_state_reversed_3x3 | exact valid_state_goal_3x3]).
  assert (Hpath : ∃ k, path_len reversed_3x3 k goal_3x3).
  { exists 28%nat. apply (play_path_len reversed_to_goal). vm_compute. reflexivity. }
  split; [exact valid_state_reversed_3x3 |]. split; [exact Htotal |]. split; [exact Hpath |].
  apply (solve_finds_solution
           {| initial_state := reversed_3x3; goal_state := goal_3x3;
              heuristic_func := enhanced_manhattan |} 3
           valid_state_reversed_3x3 Htotal Hpath).
Defined.

(** X13. Whatever the heuristic, as long as it returns a value on the
    states that can be reached, [solve] reports failure on every instance
    without a solution: it returns [None] and 0 moves, and the count it
    returns is the number of states that can be reached from the initial
    state, each of which has been evaluated once. *)
Theorem solve_reports_no_solution `{HeapQ} self n :
  valid_state n (initial_state self) →
  square n (goal_state self) →
  (∀ k s, path_len (initial_state self) k s →
          is_Some (heuristic_func self s (goal_state self))) →
  (∀ k, ¬ path_len (initial_state self) k (goal_state self)) →
  ∃ k (reachable : gset (list Z)),
    (∀ κ, κ ∈ reachable ↔
          ∃ k' s, path_len (initial_state self) k' s ∧ state_to_tuple s = κ) ∧
    ∀ fuel, (k < fuel)%nat →
      solve fuel self = Returns (None, 0, Z.of_nat (size reachable)).
Proof.
  intros Hvalid Hgoal_sq Htotal Hnone.
  destruct (solve_returns_valid self n Hvalid Hgoal_sq Htotal)
    as (k & [path |] & moves & evaluated & Hsolve & Hresult).
  - destruct Hresult as (_ & _ & Hpath). by destruct (Hnone _ Hpath).
  - destruct Hresult as (-> & _ & reachable & Hreach & ->). by exists k, reachable.
Qed.

Lemma valid_state_unsolvable_2x2 : valid_state 2 (initial_state unsolvable_2x2).
Proof.
  split; [split; [reflexivity | repeat constructor] |].
  simpl. unfold range. simpl.
  apply (Permutation_sym (l := [0; 1; 2; 3])).
  apply (Permutation_cons_app [2; 1; 3] []). simpl.
  apply (Permutation_cons_app [2] [3]). reflexivity.
Qed.

Lemma reach_unsolvable_2x2 k s :
  path_len (initial_state unsolvable_2x2) k s → s ∈ states_unsolvable_2x2.
Proof.
  apply closed_under_moves_reach.
  - simpl. unfold states_unsolvable_2x2. set_solver.
  - vm_compute. reflexivity.
Qed.

Lemma solve_reports_no_solution_witness :
  valid_state 2 (initial_state unsolvable_2x2) ∧
  square 2 (goal_state unsolvable_2x2) ∧
  (∀ k, ¬ path_len (initial_state unsolvable_2x2) k (goal_state unsolvable_2x2)) ∧
  ∃ k (reachable : gset (list Z)),
    (∀ κ, κ ∈ reachable ↔
          ∃ k' s, path_len (initial_state unsolvable_2x2) k' s ∧ state_to_tuple s = κ) ∧
    ∀ fuel, (k < fuel)%nat →
      solve fuel unsolvable_2x2 = Returns (None, 0, Z.of_nat (size reachable)).
Proof.
  assert (Hgoal : square 2 (goal_state unsolvable_2x2))
    by (split; [reflexivity | repeat constructor]).
  assert (Hnone : ∀ k, ¬ path_len (initial_state unsolvable_2x2) k (goal_state unsolvable_2x2)).
  { intros k Hpath. apply reach_unsolvable_2x2 in Hpath.
    unfold states_unsolvable_2x2 in Hpath. simpl in Hpath.
    repeat (apply elem_of_cons in Hpath as [Hpath | Hpath]; [discriminate |]).
    by apply elem_of_nil in Hpath. }
  assert (Htotal : ∀ k s, path_len (initial_state unsolvable_2x2) k s →
            is_Some (heuristic_func unsolvable_2x2 s (goal_state unsolvable_2x2))).
  { intros k s Hpath. apply reach_unsolvable_2x2 in Hpath.
    unfold states_unsolvable_2x2 in Hpath.
    repeat (apply elem_of_cons in Hpath as [-> | Hpath]; [by eexists |]).
    by apply elem_of_nil in Hpath. }
  split; [exact valid_state_unsolvable_2x2 |]. split; [exact Hgoal |]. split; [exact Hnone |].
  apply (solve_reports_no_solution unsolvable_2x2 2 valid_state_unsolvable_2x2 Hgoal Htotal Hnone).
Defined.

(** ** The generator of instances *)

Lemma rows_of_spec cols : ∀ rows flat,
  length flat = (rows * cols)%nat →
  length (rows_of rows cols flat) = rows ∧
  Forall (λ r, length r = cols) (rows_of rows cols flat) ∧
  concat (rows_of rows cols flat) = flat.
Proof.
  induction rows as [| rows IH]; intros flat Hlen; simpl in *.
  - split_and!; [done | done |]. by destruct flat.
  - destruct (IH (drop cols flat)) as (Hl & Hall & Hcat).
    { rewrite length_drop. lia. }
    split_and!.
    + by rewrite Hl.
    + constructor; [| done]. rewrite length_take. lia.
    + rewrite Hcat. apply take_drop.
Qed.

Lemma reshape_None flat d : d < 0 ∨ Z.of_nat (length flat) ≠ d * d → reshape flat d = None.
Proof. intros Hbad. unfold reshape. rewrite bool_decide_eq_false_2; [done | lia]. Qed.

Lemma ordered_board_valid d :
  1 ≤ d → ∃ board, ordered_board d = Some board ∧ valid_state (Z.to_nat d) board.
Proof.
  intros Hd. unfold ordered_board, reshape.
  assert (Hlen : length (seqZ 1 (d * d - 1) ++ [0]) = (Z.to_nat d * Z.to_nat d)%nat).
  { rewrite length_app, length_seqZ. simpl. nia. }
  rewrite bool_decide_eq_true_2 by (rewrite Hlen; nia).
  eexists. split; [done |].
  destruct (rows_of_spec (Z.to_nat d) (Z.to_nat d) _ Hlen) as (Hl & Hall & Hcat).
  split; [by split |]. rewrite Hcat.
  apply NoDup_Permutation.
  - apply NoDup_app. split_and!; [apply NoDup_seqZ | | apply NoDup_singleton].
    intros x Hx%elem_of_seqZ ->%list_elem_of_singleton. lia.
  - unfold range. apply NoDup_fmap; [apply _ | apply NoDup_seq].
  - intros x. rewrite elem_of_app, elem_of_seqZ, list_elem_of_singleton, elem_of_range. nia.
Qed.

Lemma choice_elem_of {A} (seq : list A) r a : choice seq r = Some a → a ∈ seq.
Proof.
  unfold choice. destruct seq as [| b rest]; [done |].
  intros Hlook. by eapply list_elem_of_lookup_2.
Qed.

Lemma choice_is_Some {A} (seq : list A) r : seq ≠ [] → is_Some (choice seq r).
Proof.
  unfold choice. destruct seq as [| b rest]; [done |]. intros _.
  apply lookup_lt_is_Some. apply Nat.mod_upper_bound. done.
Qed.


Lemma available_actions_nonempty n s :
  (2 ≤ n)%nat → valid_state n s →
  ∃ actions, available_actions s = Some actions ∧ actions ≠ [] ∧
             ∀ a, a ∈ actions → is_Some (do_action s a).
Proof.
  intros Hn Hvalid.
  destruct (available_actions_is_Some n s (proj1 Hvalid)) as (actions & Hacts & _ & Hdo).
  { apply (valid_state_has_blank n); [lia | done]. }
  exists actions. split_and!; [done | | done].
  destruct (available_actions_valid n s actions Hvalid Hacts) as ([x y] & [Hx Hy] & _ & -> & _).
  simpl in *. intros Hnil.
  pose proof (length_actions_at (Z.of_nat n) x y) as Hlen. rewrite Hnil in Hlen.
  simpl in Hlen. repeat case_bool_decide; lia.
Qed.

Lemma randomize_valid n : ∀ steps rnd r s,
  (2 ≤ n)%nat → valid_state n s →
  ∃ s', randomize steps rnd r s = Some s' ∧ valid_state n s' ∧ path_len s steps s'.
Proof.
  induction steps as [| steps IH]; intros rnd r s Hn Hvalid; simpl.
  - exists s. split_and!; [done | done | apply path_here].
  - destruct (available_actions_nonempty n s Hn Hvalid) as (actions & Hacts & Hne & Hdo).
    rewrite Hacts. simpl.
    destruct (choice_is_Some actions (rnd r) Hne) as [a Ha]. rewrite Ha. simpl.
    apply choice_elem_of in Ha.
    destruct (Hdo a Ha) as [s1 Hs1]. rewrite Hs1. simpl.
    assert (Hmove : move s s1) by (by exists actions, a).
    destruct (move_valid n s s1 Hvalid Hmove) as [Hvalid1 _].
    destruct (IH rnd (S r) s1 Hn Hvalid1) as (s' & Hrun & Hvalid' & Hpath).
    exists s'. split_and!; [done | done |]. by eapply path_len_cons.
Qed.

Lemma init_puzzle_valid d rnd :
  2 ≤ d →
  ∃ board s,
    ordered_board d = Some board ∧ init_puzzle d rnd = Some s ∧
    valid_state (Z.to_nat d) board ∧ valid_state (Z.to_nat d) s ∧
    path_len board RANDOMIZE_STEPS s ∧ path_len s RANDOMIZE_STEPS board.
Proof.
  intros Hd. destruct (ordered_board_valid d ltac:(lia)) as (board & Hboard & Hvalid).
  destruct (randomize_valid (Z.to_nat d) RANDOMIZE_STEPS rnd 0 board ltac:(lia) Hvalid)
    as (s & Hrun & Hvalid' & Hpath).
  exists board, s.
  split_and!; [done | | done | done | done | by apply (path_back (Z.to_nat d))].
  unfold init_puzzle. rewrite Hboard. exact Hrun.
Qed.

(** X14. For a board of side at least 2, whatever the random draws,
    [init_puzzle] returns a puzzle state (each of the values 0 to
    [puzzle_dim * puzzle_dim - 1] once) produced from the ordered board by
    100000 legal moves, and 100000 legal moves lead back from it to the
    ordered board: every generated instance has a solution. *)
Theorem init_puzzle_solvable d rnd :
  2 ≤ d →
  ∃ board s,
    ordered_board d = Some board ∧ init_puzzle d rnd = Some s ∧
    valid_state (Z.to_nat d) s ∧
    path_len board RANDOMIZE_STEPS s ∧ path_len s RANDOMIZE_STEPS board.
Proof.
  intros Hd.
  destruct (init_puzzle_valid d rnd Hd) as (board & s & ? & ? & ? & ? & ? & ?).
  by exists board, s.
Qed.

Lemma init_puzzle_solvable_witness :
  2 ≤ 3 ∧
  ∃ board s,
    ordered_board 3 = Some board ∧ init_puzzle 3 (λ r, r) = Some s ∧
    valid_state (Z.to_nat 3) s ∧
    path_len board RANDOMIZE_STEPS s ∧ path_len s RANDOMIZE_STEPS board.
Proof.
  split; [lia |]. apply (init_puzzle_solvable 3 (λ r, r)). lia.
Defined.

Lemma RANDOMIZE_STEPS_succ : ∃ k, RANDOMIZE_STEPS = S k.
Proof.
  exists (Z.to_nat 99999). unfold RANDOMIZE_STEPS.
  rewrite <- Z2Nat.inj_succ by lia. reflexivity.
Qed.

(** X15. [init_puzzle] raises for every [puzzle_dim] below 2: for 0 and for
    negative numbers the list cannot be reshaped, and on the 1 by 1 board no
    action is available, so [random.choice] is given an empty list in the
    first iteration. *)
Theorem init_puzzle_raises_below_2 d rnd : d < 2 → init_puzzle d rnd = None.
Proof.
  intros Hd. unfold init_puzzle.
  destruct (decide (d = 1)) as [-> | Hne].
  - destruct RANDOMIZE_STEPS_succ as [k ->]. reflexivity.
  - unfold ordered_board. rewrite reshape_None; [done |].
    destruct (decide (d < 0)) as [? | ?]; [by left | right].
    assert (d = 0) as -> by lia. simpl. lia.
Qed.

Lemma init_puzzle_raises_below_2_witness :
  1 < 2 ∧ init_puzzle 1 (λ r, r) = None.
Proof.
  split; [lia |]. apply (init_puzzle_raises_below_2 1 (λ r, r)). lia.
Defined.


(** ** The run of the notebook *)



(** ** [enhanced_manhattan] at the goal *)

Lemma foldl_unchanged {A B} (f : A → B → A) l c :
  (∀ x c', x ∈ l → f c' x = c') → foldl f c l = c.
Proof.
  revert c. induction l as [| x l IH]; intros c Hf; simpl; [done |].
  rewrite Hf by (apply elem_of_cons; by left).
  apply IH. intros y c' Hy. apply Hf. apply elem_of_cons. by right.
Qed.

Lemma index_of_NoDup v line i :
  NoDup line → line !! i = Some v → index_of v line = Some i.
Proof.
  intros Hnodup Hi.
  destruct (index_of_is_Some v line) as [j Hj]; [by eapply list_elem_of_lookup_2 |].
  pose proof (index_of_Some v line j Hj) as Hj'.
  by rewrite (NoDup_lookup line i j v Hnodup Hi Hj').
Qed.

(** A line without repetition has no conflict with itself. *)
Lemma count_conflicts_same line : NoDup line → count_conflicts line line = 0.
Proof.
  intros Hnodup. unfold count_conflicts.
  apply foldl_unchanged. intros i c Hi%elem_of_seq.
  case_bool_decide; [done |].
  apply foldl_unchanged. intros j c' Hj%elem_of_seq.
  case_bool_decide; [done |].
  destruct (lookup_lt_is_Some_2 line i ltac:(lia)) as [vi Hvi].
  destruct (lookup_lt_is_Some_2 line j ltac:(lia)) as [vj Hvj].
  rewrite (list_lookup_total_correct _ _ _ Hvi), (list_lookup_total_correct _ _ _ Hvj).
  rewrite (index_of_NoDup vi line i Hnodup Hvi), (index_of_NoDup vj line j Hnodup Hvj). simpl.
  rewrite (bool_decide_eq_false_2 (j < i)%nat) by lia. by destruct (_ && _).
Qed.

Lemma valid_state_row_NoDup n g i line : valid_state n g → row g i = Some line → NoDup line.
Proof.
  intros Hg Hrow. apply NoDup_alt. intros j j' v Hj Hj'.
  assert (cell g i j = Some v) as Hc by (unfold cell, row in *; by rewrite Hrow).
  assert (cell g i j' = Some v) as Hc' by (unfold cell, row in *; by rewrite Hrow).
  by destruct (valid_state_cell_unique n g v _ _ _ _ Hg Hc Hc').
Qed.

Lemma valid_state_column_NoDup n g j line :
  valid_state n g → column g j = Some line → NoDup line.
Proof.
  intros Hg. unfold column. case_bool_decide as Hj; [| done]. intros [= <-].
  rewrite (square_shape1 n g (proj1 Hg)) in Hj.
  assert (Hcol : ∀ i v, ((λ r : list Z, r !!! j) <$> g) !! i = Some v → cell g i j = Some v).
  { intros i v. rewrite list_lookup_fmap. unfold cell.
    destruct (g !! i) as [r |] eqn:Hr; simpl; [| done]. intros [= <-].
    apply list_lookup_lookup_total. apply lookup_lt_is_Some.
    rewrite (square_lookup n g i r (proj1 Hg) Hr). done. }
  apply NoDup_alt. intros i i' v Hi Hi'.
  by destruct (valid_state_cell_unique n g v _ _ _ _ Hg (Hcol _ _ Hi) (Hcol _ _ Hi')).
Qed.

Lemma for_each_unchanged {A} (body : A → Z → option Z) l c :
  (∀ a c', a ∈ l → body a c' = Some c') → for_each l body c = Some c.
Proof.
  revert c. induction l as [| a l IH]; intros c Hbody; simpl; [done |].
  rewrite Hbody by (apply elem_of_cons; by left). simpl.
  apply IH. intros b c' Hb. apply Hbody. apply elem_of_cons. by right.
Qed.

Lemma enhanced_manhattan_goal n g : valid_state n g → enhanced_manhattan g g = Some 0.
Proof.
  intros Hg. unfold enhanced_manhattan.
  rewrite (manhattan_distance_valid n) by done. rewrite (total_distance_goal n) by done.
  simpl. pose proof (proj1 Hg) as Hsq.
  rewrite for_each_unchanged; simpl.
  - rewrite for_each_unchanged; [done |].
    intros j c Hj%elem_of_seq.
    destruct (column g j) as [line |] eqn:Hcol; simpl.
    + rewrite (count_conflicts_same line) by (by eapply valid_state_column_NoDup).
      f_equal. lia.
    + unfold column in Hcol. rewrite bool_decide_eq_true_2 in Hcol by lia. done.
  - intros i c Hi%elem_of_seq. unfold shape0 in Hi.
    destruct (row g i) as [line |] eqn:Hrow; simpl.
    + rewrite (count_conflicts_same line) by (by eapply valid_state_row_NoDup).
      f_equal. lia.
    + unfold row in Hrow. apply lookup_ge_None in Hrow. lia.
Qed.

(** X18. Between puzzle states of a common size [enhanced_manhattan] is
    never negative, and it is 0 exactly when the state is the goal: the
    penalty for conflicts vanishes there. *)
Theorem enhanced_manhattan_zero n s g :
  valid_state n s → valid_state n g →
  ∃ e, enhanced_manhattan s g = Some e ∧ 0 ≤ e ∧ (e = 0 ↔ s = g).
Proof.
  intros Hs Hg.
  destruct (enhanced_manhattan_is_Some n s g Hs Hg) as [e He].
  destruct (enhanced_manhattan_above s g e He) as (m & Hm & Hle).
  rewrite (manhattan_distance_valid n) in Hm by done. injection Hm as <-.
  pose proof (total_distance_nonneg n s g) as Hpos.
  exists e. split_and!; [done | lia |]. split.
  - intros ->. apply (total_distance_zero n); [done | done | lia].
  - intros ->. rewrite (enhanced_manhattan_goal n) in He by done. congruence.
Qed.

Lemma enhanced_manhattan_zero_witness :
  ∃ e, enhanced_manhattan goal_3x3 goal_3x3 = Some e ∧ 0 ≤ e ∧
       (e = 0 ↔ goal_3x3 = goal_3x3).
Proof.
  apply (enhanced_manhattan_zero 3).
  - exact valid_state_goal_3x3.
  - exact valid_state_goal_3x3.
Defined.

(** ** [solve] on an array without a blank *)

(** X19. On an initial array without a cell holding 0 that is not the goal,
    [solve] raises, whatever the heuristic: either the heuristic raises on
    the initial state, or the first iteration pops the start node, finds
    that it is not the goal and calls [available_actions], which raises. *)
Theorem solve_raises_without_blank `{HeapQ} self n fuel :
  square n (initial_state self) → square n (goal_state self) →
  initial_state self ≠ goal_state self →
  0 ∉ concat (initial_state self) →
  solve (S fuel) self = Raises.
Proof.
  intros Hinit Hgoal Hne Hblank. unfold solve, solve_run, init_config.
  destruct (heuristic_func self (initial_state self) (goal_state self)) as [h |];
    simpl; [| done].
  unfold step. simpl. rewrite heappop_singleton. simpl.
  rewrite bool_decide_eq_false_2 by set_solver.
  rewrite (eq_all_square n _ _ Hinit Hgoal).
  rewrite bool_decide_eq_false_2 by done.
  rewrite available_actions_unfold.
  destruct (where_first (initial_state self) 0) as [[i j] |] eqn:Hw; [| done].
  exfalso. apply Hblank. eapply cell_elem_of_concat. by apply where_first_Some.
Qed.

Lemma solve_raises_without_blank_witness :
  square 2 [[1; 2]; [3; 4]] ∧ square 2 [[1; 2]; [4; 3]] ∧
  ([[1; 2]; [3; 4]] : grid) ≠ [[1; 2]; [4; 3]] ∧
  0 ∉ concat [[1; 2]; [3; 4]] ∧
  solve 1 {| initial_state := [[1; 2]; [3; 4]]; goal_state := [[1; 2]; [4; 3]];
             heuristic_func := manhattan_distance |} = Raises.
Proof.
  assert (H1 : square 2 [[1; 2]; [3; 4]]) by (split; [reflexivity | repeat constructor]).
  assert (H2 : square 2 [[1; 2]; [4; 3]]) by (split; [reflexivity | repeat constructor]).
  assert (H3 : ([[1; 2]; [3; 4]] : grid) ≠ [[1; 2]; [4; 3]]) by discriminate.
  assert (H4 : 0 ∉ concat [[1; 2]; [3; 4]]).
  { simpl. intros Hin.
    repeat (apply elem_of_cons in Hin as [Hin | Hin]; [discriminate |]).
    by apply elem_of_nil in Hin. }
  split_and!; [done | done | done | done |].
  apply (solve_raises_without_blank
           {| initial_state := [[1; 2]; [3; 4]]; goal_state := [[1; 2]; [4; 3]];
              heuristic_func := manhattan_distance |} 2 0 H1 H2 H3 H4).
Defined.
